(** * VectorEngine: aggregation of state-vector snapshot results

    A shallow embedding of [src/qiskit-simulator/src/engines/vector_engine.hpp]
    (class [VectorEngine], its methods [add], [compute_results], [get_probs]
    and the free functions [to_json] / [from_json]), followed by the
    properties of the engine stated in the specification.

    Conventions of the embedding:
    - [double] is an abstract scalar type with its operations (class
      [Scalar]); no law of arithmetic is assumed unless a theorem lists it
      as a hypothesis.  [std::complex<double>] is a pair of scalars with the
      usual formulas.
    - [std::map<uint_t, T>] is [gmap N T]; a range-for over such a map visits
      the entries by increasing key ([items]).
    - [std::vector<T>] is [list T]; [uint_t] is [N], sizes are [nat].
    - a method that mutates [*this] is a function returning the new engine;
      [compute_results], which can throw, returns the engine as the throw
      leaves it together with the exception, if any.
    - the base class [BaseEngine<QubitVector>], the backend and the helpers of
      [misc.hpp] that the file only calls are collaborators
      (class [Collaborators]) or are modelled from the specification, as their
      doc comments say. *)

From stdpp Require Import base option list gmap strings pretty sorting.
From Stdlib Require QArith Qabs.

(** ** Scalars and complex numbers *)

(** The operations on [double] that the engine uses. *)
Class Scalar := {
  real : Type;
  r0 : real;
  r1 : real;
  radd : real → real → real;
  rsub : real → real → real;
  rmul : real → real → real;
  rdiv : real → real → real;
  ropp : real → real;
  rabs : real → real;
  rltb : real → real → bool;
  of_uint : N → real;
  (** the literal [1e-10] *)
  r_1e_10 : real;
}.

Section Numeric.
Context `{Scalar}.

(** [complex_t], i.e. [std::complex<double>]. *)
Record complex_t := Cx { re : real; im : real }.

Definition c0 : complex_t := Cx r0 r0.

Definition cadd (a b : complex_t) : complex_t :=
  Cx (radd (re a) (re b)) (radd (im a) (im b)).

Definition cmul (a b : complex_t) : complex_t :=
  Cx (rsub (rmul (re a) (re b)) (rmul (im a) (im b)))
     (radd (rmul (re a) (im b)) (rmul (im a) (re b))).

(** [std::conj]. *)
Definition cconj (a : complex_t) : complex_t := Cx (re a) (ropp (im a)).

(** [complex_t * double]. *)
Definition cscale (a : complex_t) (x : real) : complex_t :=
  Cx (rmul (re a) x) (rmul (im a) x).

End Numeric.

Arguments complex_t {_}.
Arguments Cx {_} _ _.

(** ** Containers *)

Abbreviation cvector_t := (list complex_t).
Abbreviation rvector_t := (list real).
Abbreviation cmatrix_t := (list (list complex_t)).
Abbreviation cket_t := (gmap string complex_t).
Abbreviation rket_t := (gmap string real).
(** A [QubitVector] is represented by its amplitudes: [vector()] is the
    identity and [size()] is [length]. *)
Abbreviation QubitVector := (list complex_t).

(** Order of a range-for over a [std::map<uint_t, T>]: increasing keys. *)
Definition key_le {A} (x y : N * A) : Prop := (x.1 ≤ y.1)%N.

#[global] Instance key_le_dec {A} : RelDecision (@key_le A).
Proof. intros x y. unfold key_le. apply _. Defined.

Definition items {A} (m : gmap N A) : list (N * A) :=
  merge_sort key_le (map_to_list m).

(** [for (const auto &s : m) body(s.first, s.second)], threading the state
    the body updates. *)
Definition for_each {A B} (m : gmap N A) (body : N → A → B → B) (st : B) : B :=
  foldl (λ st kv, body kv.1 kv.2 st) st (items m).

(** [acc[k]] of a [std::map]: the entry, default-constructed when absent. *)
Definition at_key {K} `{Countable K} {B} (dflt : B) (acc : gmap K B) (k : K) : B :=
  default dflt (acc !! k).

(** Elementwise combination of two sequences; where one is exhausted the
    other is copied. *)
Fixpoint vec_add {A} (f : A → A → A) (l r : list A) : list A :=
  match l, r with
  | [], _ => r
  | _, [] => l
  | a :: l', b :: r' => f a b :: vec_add f l' r'
  end.

(** Modelled from the spec: [to_lowercase] of [misc.hpp] (absent):
    case-folds the token. *)
Definition ascii_to_lower (c : Ascii.ascii) : Ascii.ascii :=
  let n := Ascii.N_of_ascii c in
  if (65 <=? n)%N && (n <=? 90)%N then Ascii.ascii_of_N (n + 32) else c.

Fixpoint to_lowercase (s : string) : string :=
  match s with
  | EmptyString => EmptyString
  | String c s' => String (ascii_to_lower c) (to_lowercase s')
  end.

(** Modelled from the spec: [string_trim] of [misc.hpp] (absent): trims the
    surrounding whitespace. *)
Fixpoint drop_space (s : string) : string :=
  match s with
  | EmptyString => EmptyString
  | String c s' => if Ascii.is_space c then drop_space s' else s
  end.

Definition string_trim (s : string) : string :=
  String.rev (drop_space (String.rev (drop_space s))).

Section Helpers.
Context `{Scalar}.

(** Modelled from the spec: [chop] of [misc.hpp] (absent) on a [double]:
    a value whose absolute value is below the threshold is forced to exactly
    zero, any other value is unchanged. *)
Definition chop (epsilon : real) (x : real) : real :=
  if rltb (rabs x) epsilon then r0 else x.

(** Modelled from the spec: [chop] on a complex number acts on the real and
    on the imaginary component. *)
Definition chop_c (epsilon : real) (z : complex_t) : complex_t :=
  Cx (chop epsilon (re z)) (chop epsilon (im z)).

(** Modelled from the spec: [chop] on vectors, matrices and kets is
    elementwise. *)
Definition chop_rvec (epsilon : real) (v : rvector_t) : rvector_t :=
  chop epsilon <$> v.

Definition chop_cvec (epsilon : real) (v : cvector_t) : cvector_t :=
  chop_c epsilon <$> v.

Definition chop_cvecs (epsilon : real) (l : list cvector_t) : list cvector_t :=
  chop_cvec epsilon <$> l.

Definition chop_matrix (epsilon : real) (m : cmatrix_t) : cmatrix_t :=
  chop_cvec epsilon <$> m.

Definition chop_rket (epsilon : real) (k : rket_t) : rket_t :=
  chop epsilon <$> k.

(** Modelled from the spec: [operator+=] on [rvector_t] of [misc.hpp]
    (absent): sums are added elementwise, creating entries on first
    encounter (a default-constructed, empty left operand takes the right
    one). *)
Definition vector_add (l r : rvector_t) : rvector_t := vec_add radd l r.

(** [cmatrix_t::size()]: the number of entries. *)
Definition matrix_size (m : cmatrix_t) : nat := sum_list (length <$> m).

(** Modelled from the spec: [operator+] / [operator+=] on [cmatrix_t]
    (absent): elementwise sum. *)
Definition matrix_add (a b : cmatrix_t) : cmatrix_t := vec_add (vec_add cadd) a b.

(** Modelled from the spec: [operator+=] on [std::map<std::string, double>]
    (absent): values are added per key; a key seen for the first time starts
    from the zero default of [operator[]]. *)
Definition rket_add (l r : rket_t) : rket_t :=
  merge (λ a b, match b with
                | Some v => Some (radd (default r0 a) v)
                | None => a
                end) l r.

(** [val * renorm] on vectors, matrices and kets. *)
Definition rvec_scale (v : rvector_t) (x : real) : rvector_t := (λ a, rmul a x) <$> v.

Definition matrix_scale (m : cmatrix_t) (x : real) : cmatrix_t :=
  (λ row : cvector_t, (λ a, cscale a x) <$> row) <$> m.

Definition rket_scale (k : rket_t) (x : real) : rket_t := (λ a, rmul a x) <$> k.

(** Modelled from the spec: [outer_product] of [misc.hpp] (absent):
    amplitude ⊗ amplitude*, entry (i, j) is [u_i * conj(v_j)]. *)
Definition outer_product (u v : cvector_t) : cmatrix_t :=
  (λ a : complex_t, (λ b, cmul a (cconj b)) <$> v) <$> u.

(** Modelled from the spec: [QubitVector::inner_product] (absent):
    snapshot · target*, the sum of [psi_i * conj(vec_i)]. *)
Definition inner_product (psi vec : QubitVector) : complex_t :=
  foldl cadd c0 (zip_with (λ a b, cmul a (cconj b)) psi vec).

(** [VectorEngine::get_probs(const complex_t &)]. *)
Definition get_probs (val : complex_t) : real := re (cmul (cconj val) val).

(** [VectorEngine::get_probs(const QubitVector &)]. *)
Definition get_probs_vec (vec : QubitVector) : rvector_t :=
  foldl (λ ret elt, ret ++ [get_probs elt]) [] vec.

(** [VectorEngine::get_probs(const cket_t &)]: one entry per entry of the
    ket. *)
Definition get_probs_ket (ket : cket_t) : rket_t := get_probs <$> ket.

End Helpers.

(** ** Documents, circuit and collaborators *)

Section Documents.
Context `{Scalar}.

(** A value of a [json_t] document, by the C++ type it is converted from or
    to; [JOther] stands for any value of another shape. *)
Inductive json_value :=
| JBool (b : bool)
| JUint (n : N)
| JReal (x : real)
| JStrings (l : list string)
| JStates (l : list QubitVector)
| JKets (l : list (gmap N cket_t))
| JMatrices (m : gmap N cmatrix_t)
| JRVectors (m : gmap N rvector_t)
| JRKets (m : gmap N rket_t)
| JCVectorLists (m : gmap N (list cvector_t))
| JOther (s : string).

(** [Circuit]: only [qubit_sizes], the (register name, size) pairs in
    iteration order, is read. *)
Record Circuit := { qubit_sizes : list (string * N) }.

(** The exception thrown by [compute_results]: a [std::runtime_error] whose
    message is [error: target_state vector size "k" should be "n"]; the
    record keeps the two numbers. *)
Record runtime_error := TargetStateSize { vec_size : nat; should_be : nat }.

End Documents.

Arguments json_value {_}.

(** A [json_t] object: its keys and their values. *)
Abbreviation json_t := (gmap string json_value).

(** What [vector_engine.hpp] uses and does not define: the base class
    [BaseEngine<QubitVector>] (its state, its methods, the inherited members
    [snapshots], [total_shots] and [initial_state]), the backend
    [BaseBackend<QubitVector>], and the helpers [vec2ket] and
    [QubitVector::renormalize]. *)
Class Collaborators `{Scalar} := {
  BaseEngine : Type;
  Backend : Type;
  (** [be->access_qreg()] and [be->access_snapshots()] *)
  access_qreg : Backend → QubitVector;
  access_snapshots : Backend → gmap N QubitVector;
  (** [BaseEngine<QubitVector>()] *)
  base_engine_new : BaseEngine;
  (** [BaseEngine<QubitVector>::add(eng)] on the base sub-objects *)
  base_add : BaseEngine → BaseEngine → BaseEngine;
  (** [BaseEngine<QubitVector>::compute_results(qasm, be)] *)
  base_compute_results : BaseEngine → Circuit → Backend → BaseEngine;
  (** [snapshots.empty()] on the inherited member *)
  snapshots_empty : BaseEngine → bool;
  (** the inherited member [total_shots] *)
  total_shots : BaseEngine → N;
  (** the inherited member [initial_state_flag] and the effect of
      [initial_state.renormalize()] *)
  initial_state_flag : BaseEngine → bool;
  initial_state_renormalize : BaseEngine → BaseEngine;
  (** [to_json(js, base_eng)] and [from_json(js, base_eng)] of the base *)
  base_to_json : json_t → BaseEngine → json_t;
  base_from_json : json_t → BaseEngine → BaseEngine;
  (** [vec2ket(vec, qudit_dim, epsilon, regs)] of [misc.hpp] *)
  vec2ket : cvector_t → N → real → list N → cket_t;
  (** [QubitVector::renormalize()] *)
  renormalize : QubitVector → QubitVector;
}.

(** ** The engine *)

Section Engine.
Context `{Collaborators}.

(** [class VectorEngine : public BaseEngine<QubitVector>]: the base
    sub-object, the configuration and the accumulated snapshot data. *)
Record VectorEngine := {
  base : BaseEngine;
  qudit_dim : N;
  epsilon : real;
  show_snapshots_ket : bool;
  show_snapshots_density : bool;
  show_snapshots_probs : bool;
  show_snapshots_probs_ket : bool;
  show_snapshots_inner_product : bool;
  show_snapshots_overlaps : bool;
  target_states : list QubitVector;
  snapshots_ket : list (gmap N cket_t);
  snapshots_density : gmap N cmatrix_t;
  snapshots_probs : gmap N rvector_t;
  snapshots_probs_ket : gmap N rket_t;
  snapshots_inprods : gmap N (list cvector_t);
  snapshots_overlaps : gmap N rvector_t;
}.

(** [VectorEngine(dim)]: the member initialisers of the class. *)
Definition VectorEngine_new (dim : N) : VectorEngine :=
  {| base := base_engine_new; qudit_dim := dim; epsilon := r_1e_10;
     show_snapshots_ket := false; show_snapshots_density := false;
     show_snapshots_probs := false; show_snapshots_probs_ket := false;
     show_snapshots_inner_product := false; show_snapshots_overlaps := false;
     target_states := []; snapshots_ket := []; snapshots_density := ∅;
     snapshots_probs := ∅; snapshots_probs_ket := ∅; snapshots_inprods := ∅;
     snapshots_overlaps := ∅ |}.

(** Assignments to one member. *)
Definition set_base (v : BaseEngine) (e : VectorEngine) : VectorEngine :=
  {| base := v; qudit_dim := qudit_dim e; epsilon := epsilon e;
     show_snapshots_ket := show_snapshots_ket e;
     show_snapshots_density := show_snapshots_density e;
     show_snapshots_probs := show_snapshots_probs e;
     show_snapshots_probs_ket := show_snapshots_probs_ket e;
     show_snapshots_inner_product := show_snapshots_inner_product e;
     show_snapshots_overlaps := show_snapshots_overlaps e;
     target_states := target_states e; snapshots_ket := snapshots_ket e;
     snapshots_density := snapshots_density e;
     snapshots_probs := snapshots_probs e;
     snapshots_probs_ket := snapshots_probs_ket e;
     snapshots_inprods := snapshots_inprods e;
     snapshots_overlaps := snapshots_overlaps e |}.

Definition set_snapshots_ket (v : list (gmap N cket_t)) (e : VectorEngine) : VectorEngine :=
  {| base := base e; qudit_dim := qudit_dim e; epsilon := epsilon e;
     show_snapshots_ket := show_snapshots_ket e;
     show_snapshots_density := show_snapshots_density e;
     show_snapshots_probs := show_snapshots_probs e;
     show_snapshots_probs_ket := show_snapshots_probs_ket e;
     show_snapshots_inner_product := show_snapshots_inner_product e;
     show_snapshots_overlaps := show_snapshots_overlaps e;
     target_states := target_states e; snapshots_ket := v;
     snapshots_density := snapshots_density e;
     snapshots_probs := snapshots_probs e;
     snapshots_probs_ket := snapshots_probs_ket e;
     snapshots_inprods := snapshots_inprods e;
     snapshots_overlaps := snapshots_overlaps e |}.

Definition set_snapshots_density (v : gmap N cmatrix_t) (e : VectorEngine) : VectorEngine :=
  {| base := base e; qudit_dim := qudit_dim e; epsilon := epsilon e;
     show_snapshots_ket := show_snapshots_ket e;
     show_snapshots_density := show_snapshots_density e;
     show_snapshots_probs := show_snapshots_probs e;
     show_snapshots_probs_ket := show_snapshots_probs_ket e;
     show_snapshots_inner_product := show_snapshots_inner_product e;
     show_snapshots_overlaps := show_snapshots_overlaps e;
     target_states := target_states e; snapshots_ket := snapshots_ket e;
     snapshots_density := v;
     snapshots_probs := snapshots_probs e;
     snapshots_probs_ket := snapshots_probs_ket e;
     snapshots_inprods := snapshots_inprods e;
     snapshots_overlaps := snapshots_overlaps e |}.

Definition set_snapshots_probs (v : gmap N rvector_t) (e : VectorEngine) : VectorEngine :=
  {| base := base e; qudit_dim := qudit_dim e; epsilon := epsilon e;
     show_snapshots_ket := show_snapshots_ket e;
     show_snapshots_density := show_snapshots_density e;
     show_snapshots_probs := show_snapshots_probs e;
     show_snapshots_probs_ket := show_snapshots_probs_ket e;
     show_snapshots_inner_product := show_snapshots_inner_product e;
     show_snapshots_overlaps := show_snapshots_overlaps e;
     target_states := target_states e; snapshots_ket := snapshots_ket e;
     snapshots_density := snapshots_density e;
     snapshots_probs := v;
     snapshots_probs_ket := snapshots_probs_ket e;
     snapshots_inprods := snapshots_inprods e;
     snapshots_overlaps := snapshots_overlaps e |}.

Definition set_snapshots_probs_ket (v : gmap N rket_t) (e : VectorEngine) : VectorEngine :=
  {| base := base e; qudit_dim := qudit_dim e; epsilon := epsilon e;
     show_snapshots_ket := show_snapshots_ket e;
     show_snapshots_density := show_snapshots_density e;
     show_snapshots_probs := show_snapshots_probs e;
     show_snapshots_probs_ket := show_snapshots_probs_ket e;
     show_snapshots_inner_product := show_snapshots_inner_product e;
     show_snapshots_overlaps := show_snapshots_overlaps e;
     target_states := target_states e; snapshots_ket := snapshots_ket e;
     snapshots_density := snapshots_density e;
     snapshots_probs := snapshots_probs e;
     snapshots_probs_ket := v;
     snapshots_inprods := snapshots_inprods e;
     snapshots_overlaps := snapshots_overlaps e |}.

Definition set_snapshots_inprods (v : gmap N (list cvector_t)) (e : VectorEngine) : VectorEngine :=
  {| base := base e; qudit_dim := qudit_dim e; epsilon := epsilon e;
     show_snapshots_ket := show_snapshots_ket e;
     show_snapshots_density := show_snapshots_density e;
     show_snapshots_probs := show_snapshots_probs e;
     show_snapshots_probs_ket := show_snapshots_probs_ket e;
     show_snapshots_inner_product := show_snapshots_inner_product e;
     show_snapshots_overlaps := show_snapshots_overlaps e;
     target_states := target_states e; snapshots_ket := snapshots_ket e;
     snapshots_density := snapshots_density e;
     snapshots_probs := snapshots_probs e;
     snapshots_probs_ket := snapshots_probs_ket e;
     snapshots_inprods := v;
     snapshots_overlaps := snapshots_overlaps e |}.

Definition set_snapshots_overlaps (v : gmap N rvector_t) (e : VectorEngine) : VectorEngine :=
  {| base := base e; qudit_dim := qudit_dim e; epsilon := epsilon e;
     show_snapshots_ket := show_snapshots_ket e;
     show_snapshots_density := show_snapshots_density e;
     show_snapshots_probs := show_snapshots_probs e;
     show_snapshots_probs_ket := show_snapshots_probs_ket e;
     show_snapshots_inner_product := show_snapshots_inner_product e;
     show_snapshots_overlaps := show_snapshots_overlaps e;
     target_states := target_states e; snapshots_ket := snapshots_ket e;
     snapshots_density := snapshots_density e;
     snapshots_probs := snapshots_probs e;
     snapshots_probs_ket := snapshots_probs_ket e;
     snapshots_inprods := snapshots_inprods e;
     snapshots_overlaps := v |}.

Definition set_qudit_dim (v : N) (e : VectorEngine) : VectorEngine :=
  {| base := base e; qudit_dim := v; epsilon := epsilon e;
     show_snapshots_ket := show_snapshots_ket e;
     show_snapshots_density := show_snapshots_density e;
     show_snapshots_probs := show_snapshots_probs e;
     show_snapshots_probs_ket := show_snapshots_probs_ket e;
     show_snapshots_inner_product := show_snapshots_inner_product e;
     show_snapshots_overlaps := show_snapshots_overlaps e;
     target_states := target_states e; snapshots_ket := snapshots_ket e;
     snapshots_density := snapshots_density e;
     snapshots_probs := snapshots_probs e;
     snapshots_probs_ket := snapshots_probs_ket e;
     snapshots_inprods := snapshots_inprods e;
     snapshots_overlaps := snapshots_overlaps e |}.

Definition set_epsilon (v : real) (e : VectorEngine) : VectorEngine :=
  {| base := base e; qudit_dim := qudit_dim e; epsilon := v;
     show_snapshots_ket := show_snapshots_ket e;
     show_snapshots_density := show_snapshots_density e;
     show_snapshots_probs := show_snapshots_probs e;
     show_snapshots_probs_ket := show_snapshots_probs_ket e;
     show_snapshots_inner_product := show_snapshots_inner_product e;
     show_snapshots_overlaps := show_snapshots_overlaps e;
     target_states := target_states e; snapshots_ket := snapshots_ket e;
     snapshots_density := snapshots_density e;
     snapshots_probs := snapshots_probs e;
     snapshots_probs_ket := snapshots_probs_ket e;
     snapshots_inprods := snapshots_inprods e;
     snapshots_overlaps := snapshots_overlaps e |}.

Definition set_show_snapshots_ket (v : bool) (e : VectorEngine) : VectorEngine :=
  {| base := base e; qudit_dim := qudit_dim e; epsilon := epsilon e;
     show_snapshots_ket := v;
     show_snapshots_density := show_snapshots_density e;
     show_snapshots_probs := show_snapshots_probs e;
     show_snapshots_probs_ket := show_snapshots_probs_ket e;
     show_snapshots_inner_product := show_snapshots_inner_product e;
     show_snapshots_overlaps := show_snapshots_overlaps e;
     target_states := target_states e; snapshots_ket := snapshots_ket e;
     snapshots_density := snapshots_density e;
     snapshots_probs := snapshots_probs e;
     snapshots_probs_ket := snapshots_probs_ket e;
     snapshots_inprods := snapshots_inprods e;
     snapshots_overlaps := snapshots_overlaps e |}.

Definition set_show_snapshots_density (v : bool) (e : VectorEngine) : VectorEngine :=
  {| base := base e; qudit_dim := qudit_dim e; epsilon := epsilon e;
     show_snapshots_ket := show_snapshots_ket e; show_snapshots_density := v;
     show_snapshots_probs := show_snapshots_probs e;
     show_snapshots_probs_ket := show_snapshots_probs_ket e;
     show_snapshots_inner_product := show_snapshots_inner_product e;
     show_snapshots_overlaps := show_snapshots_overlaps e;
     target_states := target_states e; snapshots_ket := snapshots_ket e;
     snapshots_density := snapshots_density e;
     snapshots_probs := snapshots_probs e;
     snapshots_probs_ket := snapshots_probs_ket e;
     snapshots_inprods := snapshots_inprods e;
     snapshots_overlaps := snapshots_overlaps e |}.

Definition set_show_snapshots_probs (v : bool) (e : VectorEngine) : VectorEngine :=
  {| base := base e; qudit_dim := qudit_dim e; epsilon := epsilon e;
     show_snapshots_ket := show_snapshots_ket e;
     show_snapshots_density := show_snapshots_density e;
     show_snapshots_probs := v;
     show_snapshots_probs_ket := show_snapshots_probs_ket e;
     show_snapshots_inner_product := show_snapshots_inner_product e;
     show_snapshots_overlaps := show_snapshots_overlaps e;
     target_states := target_states e; snapshots_ket := snapshots_ket e;
     snapshots_density := snapshots_density e;
     snapshots_probs := snapshots_probs e;
     snapshots_probs_ket := snapshots_probs_ket e;
     snapshots_inprods := snapshots_inprods e;
     snapshots_overlaps := snapshots_overlaps e |}.

Definition set_show_snapshots_probs_ket (v : bool) (e : VectorEngine) : VectorEngine :=
  {| base := base e; qudit_dim := qudit_dim e; epsilon := epsilon e;
     show_snapshots_ket := show_snapshots_ket e;
     show_snapshots_density := show_snapshots_density e;
     show_snapshots_probs := show_snapshots_probs e;
     show_snapshots_probs_ket := v;
     show_snapshots_inner_product := show_snapshots_inner_product e;
     show_snapshots_overlaps := show_snapshots_overlaps e;
     target_states := target_states e; snapshots_ket := snapshots_ket e;
     snapshots_density := snapshots_density e;
     snapshots_probs := snapshots_probs e;
     snapshots_probs_ket := snapshots_probs_ket e;
     snapshots_inprods := snapshots_inprods e;
     snapshots_overlaps := snapshots_overlaps e |}.

Definition set_show_snapshots_inner_product (v : bool) (e : VectorEngine) : VectorEngine :=
  {| base := base e; qudit_dim := qudit_dim e; epsilon := epsilon e;
     show_snapshots_ket := show_snapshots_ket e;
     show_snapshots_density := show_snapshots_density e;
     show_snapshots_probs := show_snapshots_probs e;
     show_snapshots_probs_ket := show_snapshots_probs_ket e;
     show_snapshots_inner_product := v;
     show_snapshots_overlaps := show_snapshots_overlaps e;
     target_states := target_states e; snapshots_ket := snapshots_ket e;
     snapshots_density := snapshots_density e;
     snapshots_probs := snapshots_probs e;
     snapshots_probs_ket := snapshots_probs_ket e;
     snapshots_inprods := snapshots_inprods e;
     snapshots_overlaps := snapshots_overlaps e |}.

Definition set_show_snapshots_overlaps (v : bool) (e : VectorEngine) : VectorEngine :=
  {| base := base e; qudit_dim := qudit_dim e; epsilon := epsilon e;
     show_snapshots_ket := show_snapshots_ket e;
     show_snapshots_density := show_snapshots_density e;
     show_snapshots_probs := show_snapshots_probs e;
     show_snapshots_probs_ket := show_snapshots_probs_ket e;
     show_snapshots_inner_product := show_snapshots_inner_product e;
     show_snapshots_overlaps := v; target_states := target_states e;
     snapshots_ket := snapshots_ket e;
     snapshots_density := snapshots_density e;
     snapshots_probs := snapshots_probs e;
     snapshots_probs_ket := snapshots_probs_ket e;
     snapshots_inprods := snapshots_inprods e;
     snapshots_overlaps := snapshots_overlaps e |}.

Definition set_target_states (v : list QubitVector) (e : VectorEngine) : VectorEngine :=
  {| base := base e; qudit_dim := qudit_dim e; epsilon := epsilon e;
     show_snapshots_ket := show_snapshots_ket e;
     show_snapshots_density := show_snapshots_density e;
     show_snapshots_probs := show_snapshots_probs e;
     show_snapshots_probs_ket := show_snapshots_probs_ket e;
     show_snapshots_inner_product := show_snapshots_inner_product e;
     show_snapshots_overlaps := show_snapshots_overlaps e;
     target_states := v; snapshots_ket := snapshots_ket e;
     snapshots_density := snapshots_density e;
     snapshots_probs := snapshots_probs e;
     snapshots_probs_ket := snapshots_probs_ket e;
     snapshots_inprods := snapshots_inprods e;
     snapshots_overlaps := snapshots_overlaps e |}.

(** *** [VectorEngine::add] *)

(** The body of the density loop, shared by [add] ([rho += s.second]) and
    [compute_results] ([rho = rho + outer_product(..)]): an entry of size 0
    is assigned, any other is added to. *)
Definition density_accumulate (rho term : cmatrix_t) : cmatrix_t :=
  if decide (matrix_size rho = 0) then term else matrix_add rho term.

(** [this->add(eng)]: the engine [this] after the call. *)
Definition add (this eng : VectorEngine) : VectorEngine :=
  let this := set_base (base_add (base this) (base eng)) this in
  (* copy snapshots ket-maps *)
  let this := set_snapshots_ket (snapshots_ket this ++ snapshots_ket eng) this in
  (* Add snapshots density *)
  let this := set_snapshots_density
    (for_each (snapshots_density eng)
       (λ k s acc, <[k := density_accumulate (at_key [] acc k) s]> acc)
       (snapshots_density this)) this in
  (* Add snapshots probs *)
  let this := set_snapshots_probs
    (for_each (snapshots_probs eng)
       (λ k s acc, <[k := vector_add (at_key [] acc k) s]> acc)
       (snapshots_probs this)) this in
  (* Add snapshots probs ket *)
  let this := set_snapshots_probs_ket
    (for_each (snapshots_probs_ket eng)
       (λ k s acc, <[k := rket_add (at_key ∅ acc k) s]> acc)
       (snapshots_probs_ket this)) this in
  (* Add snapshots overlaps *)
  let this := set_snapshots_overlaps
    (for_each (snapshots_overlaps eng)
       (λ k s acc, <[k := vector_add (at_key [] acc k) s]> acc)
       (snapshots_overlaps this)) this in
  (* copy snapshots inner prods *)
  set_snapshots_inprods
    (for_each (snapshots_inprods eng)
       (λ k s acc, <[k := at_key [] acc k ++ s]> acc)
       (snapshots_inprods this)) this.

(** *** [VectorEngine::compute_results] *)

(** The loop over [target_states] for one snapshot [psi]: it ends with the
    vector [inprods] or with the exception. *)
Fixpoint target_loop (eps : real) (nstates : nat) (psi : QubitVector)
    (targets : list QubitVector) (inprods : cvector_t) : runtime_error + cvector_t :=
  match targets with
  | [] => inr inprods
  | vec :: rest =>
      (* check correct size *)
      if decide (length vec ≠ length psi)
      then inl (TargetStateSize (length vec) nstates)
      else
        let val := inner_product psi vec in
        let val := chop_c eps val in
        target_loop eps nstates psi rest (inprods ++ [val])
  end.

(** The loop over [qreg_snapshots] of the inner-product block, on the entries
    in iteration order; a throw leaves the loop with the engine as it is. *)
Fixpoint inprods_loop (nstates : nat) (l : list (N * QubitVector))
    (this : VectorEngine) : VectorEngine * option runtime_error :=
  match l with
  | [] => (this, None)
  | (k, psi) :: rest =>
      match target_loop (epsilon this) nstates psi (target_states this) [] with
      | inl err => (this, Some err)
      | inr inprods =>
          (* add output inner products *)
          let this :=
            if show_snapshots_inner_product this
            then set_snapshots_inprods
                   (<[k := at_key [] (snapshots_inprods this) k ++ [inprods]]>
                      (snapshots_inprods this)) this
            else this in
          (* Add output overlaps *)
          let this :=
            if show_snapshots_overlaps this
            then set_snapshots_overlaps
                   (<[k := vector_add (at_key [] (snapshots_overlaps this) k)
                                      (get_probs_vec inprods)]>
                      (snapshots_overlaps this)) this
            else this in
          inprods_loop nstates rest this
      end
  end.

(** The ket-form block: [km], then the two outputs that use it.  The inner
    loop that fills [tmp] entry by entry computes [get_probs_ket]. *)
Definition compute_kets (regs : list N) (qreg_snapshots : gmap N QubitVector)
    (this : VectorEngine) : VectorEngine :=
  if show_snapshots_ket this || show_snapshots_probs_ket this then
    let km : gmap N cket_t :=
      for_each qreg_snapshots
        (λ k psi km, <[k := vec2ket psi (qudit_dim this) (epsilon this) regs]> km) ∅ in
    let this :=
      if show_snapshots_ket this
      then set_snapshots_ket (snapshots_ket this ++ [km]) this
      else this in
    if show_snapshots_probs_ket this
    then set_snapshots_probs_ket
           (for_each km
              (λ k s acc, <[k := rket_add (at_key ∅ acc k) (get_probs_ket s)]> acc)
              (snapshots_probs_ket this)) this
    else this
  else this.

Definition compute_density (qreg_snapshots : gmap N QubitVector)
    (this : VectorEngine) : VectorEngine :=
  if show_snapshots_density this
  then set_snapshots_density
         (for_each qreg_snapshots
            (λ k psi acc,
               <[k := density_accumulate (at_key [] acc k) (outer_product psi psi)]> acc)
            (snapshots_density this)) this
  else this.

Definition compute_probs (qreg_snapshots : gmap N QubitVector)
    (this : VectorEngine) : VectorEngine :=
  if show_snapshots_probs this
  then set_snapshots_probs
         (for_each qreg_snapshots
            (λ k psi acc,
               let pr := at_key [] acc k in
               <[k := if decide (pr = []) then get_probs_vec psi
                      else vector_add pr (get_probs_vec psi)]> acc)
            (snapshots_probs this)) this
  else this.

Definition compute_inprods (qreg : QubitVector) (qreg_snapshots : gmap N QubitVector)
    (this : VectorEngine) : VectorEngine * option runtime_error :=
  if bool_decide (target_states this ≠ []) &&
     (show_snapshots_inner_product this || show_snapshots_overlaps this)
  then inprods_loop (length qreg) (items qreg_snapshots) this
  else (this, None).

(** [this->compute_results(qasm, be)]: the engine after the call and the
    exception, if one was thrown. *)
Definition compute_results (this : VectorEngine) (qasm : Circuit) (be : Backend)
    : VectorEngine * option runtime_error :=
  (* Run BaseEngine Counts *)
  let this := set_base (base_compute_results (base this) qasm be) this in
  let qreg := access_qreg be in
  let qreg_snapshots := access_snapshots be in
  (* String labels for ket form *)
  let ket_form := show_snapshots_ket this || show_snapshots_probs_ket this in
  let regs : list N := if ket_form then snd <$> reverse (qubit_sizes qasm) else [] in
  if negb (snapshots_empty (base this)) then
    let this := compute_kets regs qreg_snapshots this in
    let this := compute_density qreg_snapshots this in
    let this := compute_probs qreg_snapshots this in
    compute_inprods qreg qreg_snapshots this
  else (this, None).

(** *** [to_json] *)

(** [to_json(js, eng)]: the document after the call, and the engine after
    the call.  The parameter [eng] is a const reference; the loops that
    rewrite entries work on the local copies [rhos], [ret] and [tmp]. *)
Definition to_json (js : json_t) (eng : VectorEngine) : json_t * VectorEngine :=
  (* Get results from base class *)
  let js := base_to_json js (base eng) in
  (* renormalization constant for average over shots *)
  let renorm := rdiv r1 (of_uint (total_shots (base eng))) in
  (* Snapshot skets *)
  let js :=
    if show_snapshots_ket eng && bool_decide (snapshots_ket eng ≠ [])
    then <["quantum_state_ket" := JKets (snapshots_ket eng)]> js
    else js in
  (* Snapshots density *)
  let js :=
    if show_snapshots_density eng && bool_decide (snapshots_density eng ≠ ∅)
    then
      let rhos : gmap N cmatrix_t :=
        for_each (snapshots_density eng)
          (λ k s rhos,
             let rho := matrix_scale s renorm in
             let rho := chop_matrix (epsilon eng) rho in
             <[k := rho]> rhos) ∅ in
      <["density_matrix" := JMatrices rhos]> js
    else js in
  (* Snapshots probs *)
  let js :=
    if show_snapshots_probs eng && bool_decide (snapshots_probs eng ≠ ∅)
    then
      let ret : gmap N rvector_t :=
        for_each (snapshots_probs eng)
          (λ k val ret,
             let ret := <[k := rvec_scale val renorm]> ret in
             <[k := chop_rvec (epsilon eng) (at_key [] ret k)]> ret) ∅ in
      <["probabilities" := JRVectors ret]> js
    else js in
  (* Snapshots probs ket *)
  let js :=
    if show_snapshots_probs_ket eng && bool_decide (snapshots_probs_ket eng ≠ ∅)
    then
      let ret : gmap N rket_t :=
        for_each (snapshots_probs_ket eng)
          (λ k val ret,
             let ret := <[k := rket_scale val renorm]> ret in
             <[k := chop_rket (epsilon eng) (at_key ∅ ret k)]> ret) ∅ in
      <["probabilities_ket" := JRKets ret]> js
    else js in
  (* Snapshots inner products *)
  let js :=
    if show_snapshots_inner_product eng && bool_decide (snapshots_inprods eng ≠ ∅)
    then
      let tmp := snapshots_inprods eng in
      let tmp :=
        for_each tmp (λ k s tmp, <[k := chop_cvecs (epsilon eng) s]> tmp) tmp in
      <["inner_products" := JCVectorLists (snapshots_inprods eng)]> js
    else js in
  (* Snapshots overlaps *)
  let js :=
    if show_snapshots_overlaps eng && bool_decide (snapshots_overlaps eng ≠ ∅)
    then
      let tmp := snapshots_overlaps eng in
      let tmp :=
        for_each tmp
          (λ k s tmp,
             let s := rvec_scale s renorm in
             <[k := chop_rvec (epsilon eng) s]> tmp) tmp in
      <["overlaps" := JRVectors tmp]> js
    else js in
  (js, eng).

(** *** [from_json] *)

(** Modelled from the spec: [JSON::get_value(var, key, js)] (absent): an
    entry that is present (with a value of the expected type) is read; an
    absent one keeps the default and the call returns [false]. *)
Definition get_strings (key : string) (js : json_t) : option (list string) :=
  match js !! key with Some (JStrings l) => Some l | _ => None end.

Definition get_real (key : string) (js : json_t) : option real :=
  match js !! key with
  | Some (JReal x) => Some x
  | Some (JUint n) => Some (of_uint n)
  | _ => None
  end.

Definition get_uint (key : string) (js : json_t) : option N :=
  match js !! key with Some (JUint n) => Some n | _ => None end.

Definition get_bool (key : string) (js : json_t) : option bool :=
  match js !! key with Some (JBool b) => Some b | _ => None end.

Definition get_states (key : string) (js : json_t) : option (list QubitVector) :=
  match js !! key with Some (JStates l) => Some l | _ => None end.

(** The [if] / [else if] chain on one normalised token. *)
Definition set_option (o : string) (eng : VectorEngine) : VectorEngine :=
  if bool_decide (o = "quantumstateket" ∨ o = "quantumstatesket")
  then set_show_snapshots_ket true eng
  else if bool_decide (o = "densitymatrix")
  then set_show_snapshots_density true eng
  else if bool_decide (o = "probabilities" ∨ o = "probs")
  then set_show_snapshots_probs true eng
  else if bool_decide (o = "probabilitiesket" ∨ o = "probsket")
  then set_show_snapshots_probs_ket true eng
  else if bool_decide (o = "targetstatesinner")
  then set_show_snapshots_inner_product true eng
  else if bool_decide (o = "targetstatesprobs")
  then set_show_snapshots_overlaps true eng
  else eng.

(** [from_json(js, eng)]: the engine after the call. *)
Definition from_json (js : json_t) (eng : VectorEngine) : VectorEngine :=
  let eng := VectorEngine_new 2 in
  let eng := set_base (base_from_json js (base eng)) eng in
  (* Get output options *)
  let eng :=
    match get_strings "data" js with
    | Some opts =>
        foldl (λ eng o,
                 let o := to_lowercase o in
                 let o := string_trim o in
                 set_option o eng) eng opts
    | None => eng
    end in
  (* Get additional settings *)
  let eng := match get_real "chop" js with
             | Some x => set_epsilon x eng
             | None => eng
             end in
  let eng := match get_uint "qudit_dim" js with
             | Some d => set_qudit_dim d eng
             | None => eng
             end in
  (* renormalize state vector *)
  let eng :=
    if initial_state_flag (base eng)
    then set_base (initial_state_renormalize (base eng)) eng
    else eng in
  (* parse target states from JSON *)
  let renorm_target_states := default true (get_bool "renorm_target_states" js) in
  match get_states "target_states" js with
  | Some ts =>
      let eng := set_target_states ts eng in
      if renorm_target_states
      then set_target_states (renormalize <$> target_states eng) eng
      else eng
  | None => eng
  end.

End Engine.

(** ** Definitions used to state the properties *)

(** The accumulating loop of [add] and [compute_results]:
    [acc[k] = op(acc[k], v)] for every entry [(k, v)] of [m]. *)
Definition map_accumulate {K} `{Countable K} {A B} (op : B → A → B) (dflt : B)
    (acc : gmap K B) (m : gmap K A) : gmap K B :=
  merge (λ a b, match b with
                | Some v => Some (op (default dflt a) v)
                | None => a
                end) acc m.

(** A grouping of pairwise merges: [Node l r] merges the result of [r] into
    the result of [l]. *)
Inductive merge_tree (A : Type) :=
| Leaf (a : A)
| Node (l r : merge_tree A).
Arguments Leaf {A} a.
Arguments Node {A} l r.

Fixpoint leaves {A} (t : merge_tree A) : list A :=
  match t with
  | Leaf a => [a]
  | Node l r => leaves l ++ leaves r
  end.

(** Every value of the map satisfies [P]. *)
Definition all_values {K} `{Countable K} {X} (P : X → Prop) (m : gmap K X) : Prop :=
  map_Forall (λ _ x, P x) m.

Section Statements.
Context `{Collaborators}.

(** The accumulated snapshot data of an engine: the six result members. *)
Definition snapshot_data (e : VectorEngine) :=
  (snapshots_ket e, snapshots_density e, snapshots_probs e,
   snapshots_probs_ket e, snapshots_inprods e, snapshots_overlaps e).

(** An accumulator that holds no snapshot data, as after construction. *)
Definition accumulator_empty (e : VectorEngine) : Prop :=
  snapshot_data e = ([], ∅, ∅, ∅, ∅, ∅).

(** The ket snapshots recorded under one label, in list order. *)
Definition kets_of (k : N) (e : VectorEngine) : list cket_t :=
  omap (λ km : gmap N cket_t, km !! k) (snapshots_ket e).

(** The inner-product list recorded under one label. *)
Definition inprods_of (k : N) (e : VectorEngine) : list cvector_t :=
  at_key [] (snapshots_inprods e) k.

Fixpoint merge_all (t : merge_tree VectorEngine) : VectorEngine :=
  match t with
  | Leaf e => e
  | Node l r => add (merge_all l) (merge_all r)
  end.

(** The members that make up the configuration. *)
Definition same_config (a b : VectorEngine) : Prop :=
  epsilon a = epsilon b ∧ qudit_dim a = qudit_dim b ∧
  target_states a = target_states b ∧
  show_snapshots_ket a = show_snapshots_ket b ∧
  show_snapshots_density a = show_snapshots_density b ∧
  show_snapshots_probs a = show_snapshots_probs b ∧
  show_snapshots_probs_ket a = show_snapshots_probs_ket b ∧
  show_snapshots_inner_product a = show_snapshots_inner_product b ∧
  show_snapshots_overlaps a = show_snapshots_overlaps b.

(** The token as [from_json] compares it: case-folded, then trimmed. *)
Definition normalise (o : string) : string := string_trim (to_lowercase o).

(** Some token of the list normalises to one of the given names. *)
Definition names_token (names opts : list string) : Prop :=
  ∃ o, o ∈ opts ∧ normalise o ∈ names.

(** The names of the token table. *)
Definition token_table : list string :=
  ["quantumstateket"; "quantumstatesket"; "densitymatrix"; "probabilities";
   "probs"; "probabilitiesket"; "probsket"; "targetstatesinner";
   "targetstatesprobs"].

(** The guard of [compute_results] fails: after the base class has processed
    the shot, the inherited member [snapshots] is empty. *)
Definition no_snapshots (this : VectorEngine) (qasm : Circuit) (be : Backend) : Prop :=
  snapshots_empty (base_compute_results (base this) qasm be) = true.

(** Processing a sequence of shots on one engine: [compute_results] shot
    after shot; an exception ends the run. *)
Fixpoint run (this : VectorEngine) (qasm : Circuit) (shots : list Backend)
    : VectorEngine * option runtime_error :=
  match shots with
  | [] => (this, None)
  | be :: rest =>
      match compute_results this qasm be with
      | (this, None) => run this qasm rest
      | (this, Some err) => (this, Some err)
      end
  end.

(** Every group of shots is processed on its own copy of [e0]; the
    accumulators are merged as the tree says. *)
Fixpoint merge_groups (e0 : VectorEngine) (qasm : Circuit)
    (t : merge_tree (list Backend)) : VectorEngine :=
  match t with
  | Leaf g => (run e0 qasm g).1
  | Node l r => add (merge_groups e0 qasm l) (merge_groups e0 qasm r)
  end.

(** The renormalisation constant [1. / eng.total_shots]. *)
Definition renorm_of (eng : VectorEngine) : real :=
  rdiv r1 (of_uint (total_shots (base eng))).

(** Reading one field of the rendered document: every block is a
    conditional assignment to its own key. *)
Definition put_if (c : bool) (k : string) (v : json_value) (js : json_t) : json_t :=
  if c then <[k := v]> js else js.

(** The six selectors of an engine. *)
Definition selectors (e : VectorEngine) :=
  (show_snapshots_ket e, show_snapshots_density e, show_snapshots_probs e,
   show_snapshots_probs_ket e, show_snapshots_inner_product e,
   show_snapshots_overlaps e).

(** The loop over the tokens of the [data] list. *)
Definition parse_options (opts : list string) (eng : VectorEngine) : VectorEngine :=
  foldl (λ eng o,
           let o := to_lowercase o in
           let o := string_trim o in
           set_option o eng) eng opts.

(** The vector [inprods] that the loop over the targets builds for one
    snapshot when no size check fails. *)
Definition chopped_inprods (eps : real) (psi : QubitVector)
    (targets : list QubitVector) : cvector_t :=
  (λ vec, chop_c eps (inner_product psi vec)) <$> targets.

(** Every target has the length of the snapshot. *)
Definition sizes_match (targets : list QubitVector) (psi : QubitVector) : Prop :=
  Forall (λ vec : QubitVector, length vec = length psi) targets.

(** The two conditional updates that follow the loop over the targets. *)
Definition commit_inprods (k : N) (inprods : cvector_t) (this : VectorEngine)
    : VectorEngine :=
  let this :=
    if show_snapshots_inner_product this
    then set_snapshots_inprods
           (<[k := at_key [] (snapshots_inprods this) k ++ [inprods]]>
              (snapshots_inprods this)) this
    else this in
  if show_snapshots_overlaps this
  then set_snapshots_overlaps
         (<[k := vector_add (at_key [] (snapshots_overlaps this) k)
                            (get_probs_vec inprods)]>
            (snapshots_overlaps this)) this
  else this.

(** The entries the loop writes when it runs over [l] without a throw. *)
Definition inprods_after (eps : real) (targets : list QubitVector)
    (l : list (N * QubitVector)) (acc : gmap N (list cvector_t))
    : gmap N (list cvector_t) :=
  foldl (λ st kv, <[kv.1 := (λ o, default [] o ++ [chopped_inprods eps kv.2 targets])
                              (st !! kv.1)]> st) acc l.

Definition overlaps_after (eps : real) (targets : list QubitVector)
    (l : list (N * QubitVector)) (acc : gmap N rvector_t) : gmap N rvector_t :=
  foldl (λ st kv, <[kv.1 := (λ o, vector_add (default [] o)
                                    (get_probs <$> chopped_inprods eps kv.2 targets))
                              (st !! kv.1)]> st) acc l.

(** What the claim C7 asserts of one compute call, for a given reading
    [value psi vec] of the number stored for a snapshot and a target: under
    every label captured in the shot, the inner-product list gains the
    sequence of these numbers in target order, and the overlap sum gains
    their squared moduli. *)
Definition accumulates (value : QubitVector → QubitVector → complex_t)
    (this : VectorEngine) (qasm : Circuit) (be : Backend) : Prop :=
  let this' := (compute_results this qasm be).1 in
  ∀ k psi, access_snapshots be !! k = Some psi →
    let seq := value psi <$> target_states this in
    (show_snapshots_inner_product this = true →
     snapshots_inprods this' !! k = Some (inprods_of k this ++ [seq])) ∧
    (show_snapshots_overlaps this = true →
     snapshots_overlaps this' !! k =
       Some (vector_add (at_key [] (snapshots_overlaps this) k) (get_probs <$> seq))).

(** What the claim C2 asserts of one compute call: if some target state has
    a length [k] different from the length [m] of a captured snapshot, the
    call throws an error carrying the two lengths of such a pair, and the
    inner-product and overlap maps are as before the call. *)
Definition fails_cleanly (this : VectorEngine) (qasm : Circuit) (be : Backend)
    : Prop :=
  let this' := (compute_results this qasm be).1 in
  (∃ k psi vec, access_snapshots be !! k = Some psi ∧
                vec ∈ target_states this ∧ length vec ≠ length psi) →
  (∃ k0 psi0 vec0,
     access_snapshots be !! k0 = Some psi0 ∧ vec0 ∈ target_states this ∧
     length vec0 ≠ length psi0 ∧
     (compute_results this qasm be).2 =
       Some (TargetStateSize (length vec0) (length psi0))) ∧
  snapshots_inprods this' = snapshots_inprods this ∧
  snapshots_overlaps this' = snapshots_overlaps this.

(** A matrix none of whose rows is empty; it has size 0 only if it has no
    row.  Outer products and their sums are of this kind. *)
Definition proper (m : cmatrix_t) : Prop := Forall (λ row : cvector_t, row ≠ []) m.

(** The digit groups [regs] that [compute_results] passes to [vec2ket]. *)
Definition ket_regs (e : VectorEngine) (qasm : Circuit) : list N :=
  if show_snapshots_ket e || show_snapshots_probs_ket e
  then snd <$> reverse (qubit_sizes qasm) else [].

(** What one shot adds, per label, to each of the four sums under the
    configuration of [e]. *)
Definition density_term (e : VectorEngine) (be : Backend) : gmap N cmatrix_t :=
  if show_snapshots_density e
  then (λ psi, outer_product psi psi) <$> access_snapshots be else ∅.

Definition probs_term (e : VectorEngine) (be : Backend) : gmap N rvector_t :=
  if show_snapshots_probs e then get_probs_vec <$> access_snapshots be else ∅.

Definition probs_ket_term (e : VectorEngine) (qasm : Circuit) (be : Backend)
    : gmap N rket_t :=
  if show_snapshots_probs_ket e
  then (λ psi, get_probs_ket (vec2ket psi (qudit_dim e) (epsilon e) (ket_regs e qasm)))
         <$> access_snapshots be
  else ∅.

Definition overlaps_term (e : VectorEngine) (be : Backend) : gmap N rvector_t :=
  if bool_decide (target_states e ≠ []) && show_snapshots_overlaps e
  then (λ psi, get_probs <$> chopped_inprods (epsilon e) psi (target_states e))
         <$> access_snapshots be
  else ∅.

(** The base class records the snapshots of a shot that captured some: after
    it has processed such a shot, the inherited member [snapshots] is not
    empty. *)
Definition base_records_snapshots : Prop :=
  ∀ (b : BaseEngine) (qasm : Circuit) (be : Backend),
    access_snapshots be ≠ ∅ →
    snapshots_empty (base_compute_results b qasm be) = false.

End Statements.

(** ** A concrete instance: exact rational arithmetic, a recording base *)

Module Exact.

(** Exact arithmetic on the rationals. *)
#[export] Instance Q_scalar : Scalar := {|
  real := QArith_base.Q;
  r0 := QArith_base.Qmake 0 1;
  r1 := QArith_base.Qmake 1 1;
  radd := QArith_base.Qplus;
  rsub := QArith_base.Qminus;
  rmul := QArith_base.Qmult;
  rdiv := QArith_base.Qdiv;
  ropp := QArith_base.Qopp;
  rabs := Qabs.Qabs;
  rltb := λ x y, negb (QArith_base.Qle_bool y x);
  of_uint := λ n, QArith_base.inject_Z (Z.of_N n);
  r_1e_10 := QArith_base.Qmake 1 10000000000;
|}.

(** A base engine that counts the shots and records the snapshots of every
    shot that captured some; a backend that is its register and its
    snapshots. *)
Record RecBase := {
  rec_total_shots : N;
  rec_snapshots : list (gmap N QubitVector);
}.

Record RecBackend := {
  rec_qreg : QubitVector;
  rec_qreg_snapshots : gmap N QubitVector;
}.

(** A ket that keeps the amplitudes with a component of magnitude at least
    the threshold, labelled by their index. *)
Definition index_ket (vec : cvector_t) (eps : real) : cket_t :=
  list_to_map
    (omap (λ '(i, z),
             if rltb (rabs (re z)) eps && rltb (rabs (im z)) eps
             then None else Some (pretty (N.of_nat i), z))
          (imap (λ i z, (i, z)) vec)).

#[export] Instance recording : Collaborators := {|
  BaseEngine := RecBase;
  Backend := RecBackend;
  access_qreg := rec_qreg;
  access_snapshots := rec_qreg_snapshots;
  base_engine_new := {| rec_total_shots := 0; rec_snapshots := [] |};
  base_add := λ a b,
    {| rec_total_shots := rec_total_shots a + rec_total_shots b;
       rec_snapshots := rec_snapshots a ++ rec_snapshots b |};
  base_compute_results := λ b _ be,
    {| rec_total_shots := rec_total_shots b + 1;
       rec_snapshots :=
         if decide (rec_qreg_snapshots be = ∅) then rec_snapshots b
         else rec_snapshots b ++ [rec_qreg_snapshots be] |};
  snapshots_empty := λ b, bool_decide (rec_snapshots b = []);
  total_shots := rec_total_shots;
  initial_state_flag := λ _, false;
  initial_state_renormalize := λ b, b;
  base_to_json := λ js b, <["shots" := JUint (rec_total_shots b)]> js;
  base_from_json := λ _ b, b;
  vec2ket := λ vec _ eps _, index_ket vec eps;
  renormalize := λ v, v;
|}.

(** A real amplitude [n/d]. *)
Definition amp (n : Z) (d : positive) : complex_t := Cx (QArith_base.Qmake n d) r0.

(** Sample data: a one-register circuit, two states, three shots. *)
Definition circ : Circuit := {| qubit_sizes := [("q", 1%N)] |}.

Definition psi_a : QubitVector := [amp 3 5; amp 4 5].
Definition psi_b : QubitVector := [amp 1 1; amp 0 1].

Definition shot1 : RecBackend :=
  {| rec_qreg := psi_a; rec_qreg_snapshots := {[ 0%N := psi_a ]} |}.
Definition shot2 : RecBackend :=
  {| rec_qreg := psi_b; rec_qreg_snapshots := <[0%N := psi_b]> {[ 1%N := psi_a ]} |}.
Definition shot3 : RecBackend :=
  {| rec_qreg := psi_b; rec_qreg_snapshots := {[ 1%N := psi_b ]} |}.

(** An engine with every selector on and [psi_a] as its target state. *)
Definition eng_all : VectorEngine :=
  set_target_states [psi_a]
    (set_show_snapshots_overlaps true
       (set_show_snapshots_inner_product true
          (set_show_snapshots_probs_ket true
             (set_show_snapshots_probs true
                (set_show_snapshots_density true
                   (set_show_snapshots_ket true (VectorEngine_new 2))))))).

(** A snapshot whose single amplitude, [1e-12], is below the default
    threshold [1e-10], and the one-amplitude target [1]. *)
Definition tiny : complex_t := amp 1 1000000000000.
Definition shot_tiny : RecBackend :=
  {| rec_qreg := [tiny]; rec_qreg_snapshots := {[ 0%N := [tiny] ]} |}.

(** Inner products and overlaps requested against the target [1]. *)
Definition eng_targets : VectorEngine :=
  set_target_states [[amp 1 1]]
    (set_show_snapshots_overlaps true
       (set_show_snapshots_inner_product true (VectorEngine_new 2))).

(** The same target with no selector on. *)
Definition eng_off : VectorEngine :=
  set_target_states [[amp 1 1]] (VectorEngine_new 2).

(** A shot whose snapshot has two amplitudes, and a shot with snapshots of
    one and of two amplitudes. *)
Definition shot_long : RecBackend :=
  {| rec_qreg := psi_a; rec_qreg_snapshots := {[ 0%N := psi_a ]} |}.
Definition shot_mixed : RecBackend :=
  {| rec_qreg := [amp 1 1];
     rec_qreg_snapshots := <[0%N := [amp 1 1]]> {[ 1%N := psi_a ]} |}.

(** Two configuration documents that differ in the threshold: [1e-13] and
    the default. *)
Definition config_fine : json_t :=
  <["data" := JStrings ["targetstatesinner"]]>
    (<["chop" := JReal (QArith_base.Qmake 1 10000000000000)]>
       (<["target_states" := JStates [[amp 1 1]]]>
          (<["renorm_target_states" := JBool false]> ∅))).
Definition config_default : json_t :=
  <["data" := JStrings ["targetstatesinner"]]>
    (<["target_states" := JStates [[amp 1 1]]]>
       (<["renorm_target_states" := JBool false]> ∅)).

(** One shot accumulated under the fine threshold, merged into an engine
    configured with the default threshold. *)
Definition eng_fine : VectorEngine :=
  (compute_results (from_json config_fine (VectorEngine_new 2)) circ shot_tiny).1.
Definition eng_merged : VectorEngine :=
  add (from_json config_default (VectorEngine_new 2)) eng_fine.

(** Reading a rendered field under one label, with the fractions reduced. *)
Definition rendered_rvector (doc : json_t) (key : string) (k : N)
    : option (list QArith_base.Q) :=
  match doc !! key with
  | Some (JRVectors m) => option_map (List.map Qreduction.Qred) (m !! k)
  | _ => None
  end.

Definition rendered_matrix_re (doc : json_t) (key : string) (k : N)
    : option (list (list QArith_base.Q)) :=
  match doc !! key with
  | Some (JMatrices m) =>
      option_map (List.map (List.map (λ z : complex_t, Qreduction.Qred (re z))))
        (m !! k)
  | _ => None
  end.

End Exact.

(** ** Definitions used to state the further properties *)

(** The entries of [new] are those of [old] and, possibly, entries under
    labels of [snaps]: no entry is dropped, and an entry appears only under
    a label of [snaps]. *)
Definition labels_bounded {A C} (old new : gmap N A) (snaps : gmap N C) : Prop :=
  ∀ k, (is_Some (old !! k) → is_Some (new !! k)) ∧
       (is_Some (new !! k) → is_Some (old !! k) ∨ is_Some (snaps !! k)).

Section FurtherStatements.
Context `{Collaborators}.

(** A stored inner-product sequence as the loop over the targets of [e]
    builds it: one value per target, each one a value that [chop] at the
    threshold of [e] leaves as it is. *)
Definition stored_sequence_ok (e : VectorEngine) (s : cvector_t) : Prop :=
  length s = length (target_states e) ∧ chop_cvec (epsilon e) s = s.

(** The inner-product and overlap maps of [e] are well formed: every stored
    sequence is of the kind above, and every overlap sum has one entry per
    target. *)
Definition inprods_wf (e : VectorEngine) : Prop :=
  all_values (Forall (stored_sequence_ok e)) (snapshots_inprods e) ∧
  all_values (λ v : rvector_t, length v = length (target_states e))
    (snapshots_overlaps e).

End FurtherStatements.

(** Every accumulated density matrix is [proper]. *)
Definition density_wf `{Collaborators} (e : VectorEngine) : Prop :=
  all_values proper (snapshots_density e).

Section Diagonal.
Context `{Collaborators}.

(** The entries (i, i+j), j = 0, 1, ... of the rows of [m]; an entry that a
    row does not have reads as zero. *)
Fixpoint diag_from (i : nat) (m : cmatrix_t) : cvector_t :=
  match m with
  | [] => []
  | row :: rest => default c0 (row !! i) :: diag_from (S i) rest
  end.

(** The real parts of the diagonal of a matrix. *)
Definition diag_re (m : cmatrix_t) : rvector_t := re <$> diag_from 0 m.

(** An [n] × [n] matrix. *)
Definition square (n : nat) (m : cmatrix_t) : Prop :=
  length m = n ∧ Forall (λ row : cvector_t, length row = n) m.

(** Under every label the engine holds either no density matrix and no
    probability vector, or a square density matrix and the probability vector
    that is its diagonal. *)
Definition probs_match_density (e : VectorEngine) : Prop :=
  ∀ k, match snapshots_density e !! k, snapshots_probs e !! k with
       | None, None => True
       | Some rho, Some pr => (∃ n, square n rho) ∧ pr = diag_re rho
       | _, _ => False
       end.

End Diagonal.

(** The keys of the six fields that [to_json] writes. *)
Definition output_keys : list string :=
  ["quantum_state_ket"; "density_matrix"; "probabilities"; "probabilities_ket";
   "inner_products"; "overlaps"].

Section OverlapSums.
Context `{Collaborators}.

(** The sum, sequence after sequence, of the squared moduli of stored
    inner-product sequences. *)
Definition sum_overlaps (l : list cvector_t) : rvector_t :=
  foldl (λ acc s, vector_add acc (get_probs <$> s)) [] l.

(** Under every label the overlap sum is the sum of the squared moduli of
    the inner products stored under it. *)
Definition overlaps_match_inprods (e : VectorEngine) : Prop :=
  ∀ k, snapshots_overlaps e !! k = sum_overlaps <$> snapshots_inprods e !! k.

End OverlapSums.

Section Reachable.
Context `{Collaborators}.

(** What the claim C8 asserts of one compute call, with "no snapshots were
    captured for the shot" read on the map of snapshots that the backend
    hands over: each category is left entirely unchanged when its selector is
    off, or the shot captured no snapshot, or (inner products and overlaps)
    there is no target state. *)
Definition sparse_as_claimed (this : VectorEngine) (qasm : Circuit) (be : Backend)
    : Prop :=
  let this' := (compute_results this qasm be).1 in
  (show_snapshots_ket this = false ∨ access_snapshots be = ∅ →
   snapshots_ket this' = snapshots_ket this) ∧
  (show_snapshots_density this = false ∨ access_snapshots be = ∅ →
   snapshots_density this' = snapshots_density this) ∧
  (show_snapshots_probs this = false ∨ access_snapshots be = ∅ →
   snapshots_probs this' = snapshots_probs this) ∧
  (show_snapshots_probs_ket this = false ∨ access_snapshots be = ∅ →
   snapshots_probs_ket this' = snapshots_probs_ket this) ∧
  (show_snapshots_inner_product this = false ∨ access_snapshots be = ∅ ∨
   target_states this = [] →
   snapshots_inprods this' = snapshots_inprods this) ∧
  (show_snapshots_overlaps this = false ∨ access_snapshots be = ∅ ∨
   target_states this = [] →
   snapshots_overlaps this' = snapshots_overlaps this).

(** The engines that arise from one configuration document: the engine that
    [from_json] builds from it, the engine a compute call leaves (whether it
    returns or throws), and the merge of two such engines. *)
Inductive configured_by (cfg : json_t) : VectorEngine → Prop :=
| configured_fresh (eng : VectorEngine) :
    configured_by cfg (from_json cfg eng)
| configured_shot (e : VectorEngine) (qasm : Circuit) (be : Backend) :
    configured_by cfg e → configured_by cfg (compute_results e qasm be).1
| configured_merge (a b : VectorEngine) :
    configured_by cfg a → configured_by cfg b → configured_by cfg (add a b).

End Reachable.

(** Sample data for the further properties: the accumulator of each sample
    shot, and two configuration documents that name the same tokens in
    different order, case and spacing. *)
Module ExactData.
Import Exact.

Definition after_shot1 : VectorEngine := (compute_results eng_all circ shot1).1.
Definition after_shot2 : VectorEngine := (compute_results eng_all circ shot2).1.
Definition after_shot3 : VectorEngine := (compute_results eng_all circ shot3).1.

(** The amplitude [3/5 + (4/5) i]. *)
Definition amp_c : complex_t :=
  Cx (QArith_base.Qmake 3 5) (QArith_base.Qmake 4 5).

(** A shot that captured no snapshot. *)
Definition shot_none : RecBackend :=
  {| rec_qreg := psi_a; rec_qreg_snapshots := ∅ |}.

(** The accumulator of the sample run: twice the first shot. *)
Definition two_shots : VectorEngine := (run eng_all circ [shot1; shot1]).1.

(** One shot with the snapshot [1e-12] on the engine configured with the
    default threshold and the target [1]. *)
Definition eng_tiny : VectorEngine :=
  (compute_results (from_json config_default (VectorEngine_new 2)) circ shot_tiny).1.

Definition config_tokens_a : json_t :=
  <["data" := JStrings ["probs"; " DensityMatrix"]]> ∅.
Definition config_tokens_b : json_t :=
  <["data" := JStrings ["densitymatrix"; "PROBS"; "probs "]]> ∅.

End ExactData.

(** ** Loops over maps *)

Section Loops.
Context {A B : Type}.

Lemma items_Permutation (m : gmap N A) : items m ≡ₚ map_to_list m.
Proof. apply merge_sort_Permutation. Qed.

Lemma items_NoDup (m : gmap N A) : NoDup (items m).*1.
Proof. rewrite items_Permutation. apply NoDup_fst_map_to_list. Qed.

Lemma items_to_map (m : gmap N A) : list_to_map (items m) = m.
Proof.
  rewrite (list_to_map_proper _ (map_to_list m)).
  - apply list_to_map_to_list.
  - apply items_NoDup.
  - apply items_Permutation.
Qed.

Lemma elem_of_items (m : gmap N A) k v : (k, v) ∈ items m ↔ m !! k = Some v.
Proof. rewrite items_Permutation. apply elem_of_map_to_list. Qed.

Lemma items_empty : items (∅ : gmap N A) = [].
Proof.
  apply Permutation_nil_r. rewrite items_Permutation.
  by rewrite map_to_list_empty.
Qed.

(** A loop whose body assigns the entry of the visited key from the visited
    value and the entry's previous content: every key is visited once, so the
    result is known entry by entry. *)
Lemma foldl_assign_lookup (g : N → A → option B → B) (l : list (N * A))
    (acc : gmap N B) (k : N) :
  NoDup l.*1 →
  foldl (λ st kv, <[kv.1 := g kv.1 kv.2 (st !! kv.1)]> st) acc l !! k =
    match (list_to_map l : gmap N A) !! k with
    | Some v => Some (g k v (acc !! k))
    | None => acc !! k
    end.
Proof.
  revert acc. induction l as [|[k0 v0] l IH]; intros acc Hnd.
  - cbn. by rewrite lookup_empty.
  - apply NoDup_cons in Hnd as [Hk0 Hnd]. cbn [foldl fst snd].
    rewrite IH by done. rewrite list_to_map_cons.
    destruct (decide (k0 = k)) as [->|Hne].
    + rewrite !lookup_insert_eq.
      by rewrite (not_elem_of_list_to_map_1 l k).
    + by rewrite !lookup_insert_ne.
Qed.

Lemma for_each_assign_lookup (g : N → A → option B → B) (m : gmap N A)
    (acc : gmap N B) (k : N) :
  for_each m (λ k v st, <[k := g k v (st !! k)]> st) acc !! k =
    match m !! k with
    | Some v => Some (g k v (acc !! k))
    | None => acc !! k
    end.
Proof.
  unfold for_each.
  rewrite (foldl_assign_lookup g) by apply items_NoDup.
  by rewrite items_to_map.
Qed.

Lemma for_each_ext (m : gmap N A) (f g : N → A → B → B) (st : B) :
  (∀ k v s, f k v s = g k v s) → for_each m f st = for_each m g st.
Proof.
  intros Hfg. unfold for_each. generalize (items m). intros l.
  revert st. induction l as [|kv l IH]; intros st; [done|].
  cbn [foldl]. by rewrite Hfg, IH.
Qed.

Lemma for_each_empty (f : N → A → B → B) (st : B) : for_each ∅ f st = st.
Proof. unfold for_each. by rewrite items_empty. Qed.

End Loops.

(** A loop that rewrites every entry of [m] in [m] itself. *)
Lemma for_each_rewrite {A} (f : A → A) (m : gmap N A) :
  for_each m (λ k v st, <[k := f v]> st) m = f <$> m.
Proof.
  apply map_eq. intros k.
  rewrite (for_each_assign_lookup (λ _ v _, f v)).
  rewrite lookup_fmap. by destruct (m !! k).
Qed.

Lemma lookup_map_accumulate {K} `{Countable K} {A B} (op : B → A → B) (dflt : B)
    (acc : gmap K B) (m : gmap K A) (k : K) :
  map_accumulate op dflt acc m !! k =
    match m !! k with
    | Some v => Some (op (default dflt (acc !! k)) v)
    | None => acc !! k
    end.
Proof.
  unfold map_accumulate. rewrite lookup_merge.
  destruct (acc !! k), (m !! k); done.
Qed.

Lemma for_each_accumulate {A B} (op : B → A → B) (dflt : B)
    (m : gmap N A) (acc : gmap N B) :
  for_each m (λ k v st, <[k := op (at_key dflt st k) v]> st) acc =
    map_accumulate op dflt acc m.
Proof.
  apply map_eq. intros k. unfold at_key.
  rewrite (for_each_assign_lookup (λ _ v o, op (default dflt o) v)).
  by rewrite lookup_map_accumulate.
Qed.

Lemma map_accumulate_empty_r {K} `{Countable K} {A B} (op : B → A → B) (dflt : B)
    (acc : gmap K B) :
  map_accumulate op dflt acc (∅ : gmap K A) = acc.
Proof.
  apply map_eq. intros k. by rewrite lookup_map_accumulate, lookup_empty.
Qed.

(** ** [add]: the merged members *)

Section Merge.
Context `{Collaborators}.

Lemma add_snapshots_ket (this eng : VectorEngine) :
  snapshots_ket (add this eng) = snapshots_ket this ++ snapshots_ket eng.
Proof. done. Qed.

Lemma add_snapshots_density (this eng : VectorEngine) :
  snapshots_density (add this eng) =
    map_accumulate density_accumulate [] (snapshots_density this) (snapshots_density eng).
Proof. unfold add. cbn. apply for_each_accumulate. Qed.

Lemma add_snapshots_probs (this eng : VectorEngine) :
  snapshots_probs (add this eng) =
    map_accumulate vector_add [] (snapshots_probs this) (snapshots_probs eng).
Proof. unfold add. cbn. apply for_each_accumulate. Qed.

Lemma add_snapshots_probs_ket (this eng : VectorEngine) :
  snapshots_probs_ket (add this eng) =
    map_accumulate rket_add ∅ (snapshots_probs_ket this) (snapshots_probs_ket eng).
Proof. unfold add. cbn. apply for_each_accumulate. Qed.

Lemma add_snapshots_overlaps (this eng : VectorEngine) :
  snapshots_overlaps (add this eng) =
    map_accumulate vector_add [] (snapshots_overlaps this) (snapshots_overlaps eng).
Proof. unfold add. cbn. apply for_each_accumulate. Qed.

Lemma add_snapshots_inprods (this eng : VectorEngine) :
  snapshots_inprods (add this eng) =
    map_accumulate app [] (snapshots_inprods this) (snapshots_inprods eng).
Proof. unfold add. cbn. apply (for_each_accumulate app). Qed.

(** The configuration of [this] is not touched by [add]. *)
Lemma add_config (this eng : VectorEngine) :
  epsilon (add this eng) = epsilon this ∧
  qudit_dim (add this eng) = qudit_dim this ∧
  target_states (add this eng) = target_states this ∧
  show_snapshots_ket (add this eng) = show_snapshots_ket this ∧
  show_snapshots_density (add this eng) = show_snapshots_density this ∧
  show_snapshots_probs (add this eng) = show_snapshots_probs this ∧
  show_snapshots_probs_ket (add this eng) = show_snapshots_probs_ket this ∧
  show_snapshots_inner_product (add this eng) = show_snapshots_inner_product this ∧
  show_snapshots_overlaps (add this eng) = show_snapshots_overlaps this.
Proof. done. Qed.

Lemma map_accumulate_empty_l {K} `{Countable K} {B} (op : B → B → B) (dflt : B)
    (m : gmap K B) :
  (∀ v, op dflt v = v) → map_accumulate op dflt ∅ m = m.
Proof.
  intros Hop. apply map_eq. intros k.
  rewrite lookup_map_accumulate, lookup_empty. cbn.
  destruct (m !! k); by rewrite ?Hop.
Qed.

Lemma rket_add_empty_l (v : rket_t) :
  (∀ x, radd r0 x = x) → rket_add ∅ v = v.
Proof. intros Hr. by apply map_accumulate_empty_l. Qed.

(** C10 (merge identity).  Merging an accumulator that holds no snapshot data
    into any engine leaves the six snapshot members of that engine as they
    are; merging any engine into an accumulator that holds none gives the six
    members of the merged engine.  The second part adds every probability-ket
    value to the zero default of a fresh entry, hence the hypothesis that
    zero is a left identity of the scalar addition. *)
Theorem merge_identity (e fresh : VectorEngine) :
  (∀ x : real, radd r0 x = x) →
  accumulator_empty fresh →
  snapshot_data (add e fresh) = snapshot_data e ∧
  snapshot_data (add fresh e) = snapshot_data e.
Proof.
  intros Hr Hfresh. unfold accumulator_empty, snapshot_data in Hfresh.
  injection Hfresh as Hk Hd Hp Hpk Hi Ho.
  unfold snapshot_data.
  rewrite !add_snapshots_ket, !add_snapshots_density, !add_snapshots_probs,
    !add_snapshots_probs_ket, !add_snapshots_inprods, !add_snapshots_overlaps.
  rewrite Hk, Hd, Hp, Hpk, Hi, Ho. split.
  - by rewrite app_nil_r, !map_accumulate_empty_r.
  - rewrite app_nil_l.
    rewrite (map_accumulate_empty_l density_accumulate) by done.
    rewrite !(map_accumulate_empty_l vector_add) by done.
    rewrite (map_accumulate_empty_l rket_add) by (intros; by apply rket_add_empty_l).
    by rewrite (map_accumulate_empty_l app) by done.
Qed.

(** *** Order of the concatenated members *)

Lemma kets_of_add (k : N) (a b : VectorEngine) :
  kets_of k (add a b) = kets_of k a ++ kets_of k b.
Proof. unfold kets_of. by rewrite add_snapshots_ket, omap_app. Qed.

Lemma inprods_of_add (k : N) (a b : VectorEngine) :
  inprods_of k (add a b) = inprods_of k a ++ inprods_of k b.
Proof.
  unfold inprods_of, at_key.
  rewrite add_snapshots_inprods, lookup_map_accumulate.
  destruct (snapshots_inprods b !! k); [done|]. cbn. by rewrite app_nil_r.
Qed.

Lemma inprods_dom_add (k : N) (a b : VectorEngine) :
  is_Some (snapshots_inprods (add a b) !! k) ↔
  is_Some (snapshots_inprods a !! k) ∨ is_Some (snapshots_inprods b !! k).
Proof.
  rewrite add_snapshots_inprods, lookup_map_accumulate.
  destruct (snapshots_inprods b !! k); split; eauto.
  intros [?|[? ?]]; done.
Qed.

(** C5 (order preservation under merge).  However the pairwise merges are
    grouped, the merged accumulator holds the ket snapshots of the merged
    accumulators concatenated in their left-to-right order, as a whole list
    and label by label, and under every label the concatenation of their
    inner-product lists in the same order; a label has an inner-product list
    exactly when one of the merged accumulators has one. *)
Theorem merge_preserves_order (t : merge_tree VectorEngine) :
  snapshots_ket (merge_all t) = concat (snapshots_ket <$> leaves t) ∧
  ∀ k : N,
    kets_of k (merge_all t) = concat (kets_of k <$> leaves t) ∧
    inprods_of k (merge_all t) = concat (inprods_of k <$> leaves t) ∧
    (is_Some (snapshots_inprods (merge_all t) !! k) ↔
     ∃ e, e ∈ leaves t ∧ is_Some (snapshots_inprods e !! k)).
Proof.
  induction t as [e|l [IHl1 IHl2] r [IHr1 IHr2]]; cbn [merge_all leaves].
  - split; [by cbn; rewrite app_nil_r|]. intros k. cbn.
    rewrite !app_nil_r. split_and!; [done..|].
    split; [eauto using list_elem_of_here|].
    by intros (e' & ->%list_elem_of_singleton & ?).
  - split.
    + by rewrite add_snapshots_ket, fmap_app, concat_app, IHl1, IHr1.
    + intros k. destruct (IHl2 k) as (Hl1 & Hl2 & Hl3).
      destruct (IHr2 k) as (Hr1 & Hr2 & Hr3).
      rewrite kets_of_add, inprods_of_add, !fmap_app, !concat_app.
      rewrite Hl1, Hl2, Hr1, Hr2. split_and!; [done..|].
      rewrite inprods_dom_add, Hl3, Hr3. setoid_rewrite elem_of_app. split.
      * intros [(e & ? & ?)|(e & ? & ?)]; eauto.
      * intros (e & [?|?] & ?); eauto.
Qed.

End Merge.

(** ** [compute_results]: what each block leaves alone *)

Section Compute.
Context `{Collaborators}.

Lemma same_config_refl (a : VectorEngine) : same_config a a.
Proof. by repeat split. Qed.

Lemma same_config_trans (a b c : VectorEngine) :
  same_config a b → same_config b c → same_config a c.
Proof.
  unfold same_config. intros (?&?&?&?&?&?&?&?&?) (?&?&?&?&?&?&?&?&?).
  split_and!; congruence.
Qed.

Lemma compute_kets_frame regs snaps (e : VectorEngine) :
  same_config (compute_kets regs snaps e) e ∧
  base (compute_kets regs snaps e) = base e ∧
  snapshots_density (compute_kets regs snaps e) = snapshots_density e ∧
  snapshots_probs (compute_kets regs snaps e) = snapshots_probs e ∧
  snapshots_inprods (compute_kets regs snaps e) = snapshots_inprods e ∧
  snapshots_overlaps (compute_kets regs snaps e) = snapshots_overlaps e.
Proof.
  unfold compute_kets, same_config.
  destruct (show_snapshots_ket e) eqn:?, (show_snapshots_probs_ket e) eqn:?;
    cbn; rewrite ?Heqb, ?Heqb0; cbn; done.
Qed.

Lemma compute_density_frame snaps (e : VectorEngine) :
  same_config (compute_density snaps e) e ∧
  base (compute_density snaps e) = base e ∧
  snapshots_ket (compute_density snaps e) = snapshots_ket e ∧
  snapshots_probs (compute_density snaps e) = snapshots_probs e ∧
  snapshots_probs_ket (compute_density snaps e) = snapshots_probs_ket e ∧
  snapshots_inprods (compute_density snaps e) = snapshots_inprods e ∧
  snapshots_overlaps (compute_density snaps e) = snapshots_overlaps e.
Proof.
  unfold compute_density, same_config.
  destruct (show_snapshots_density e) eqn:?; cbn; done.
Qed.

Lemma compute_probs_frame snaps (e : VectorEngine) :
  same_config (compute_probs snaps e) e ∧
  base (compute_probs snaps e) = base e ∧
  snapshots_ket (compute_probs snaps e) = snapshots_ket e ∧
  snapshots_density (compute_probs snaps e) = snapshots_density e ∧
  snapshots_probs_ket (compute_probs snaps e) = snapshots_probs_ket e ∧
  snapshots_inprods (compute_probs snaps e) = snapshots_inprods e ∧
  snapshots_overlaps (compute_probs snaps e) = snapshots_overlaps e.
Proof.
  unfold compute_probs, same_config.
  destruct (show_snapshots_probs e) eqn:?; cbn; done.
Qed.

Lemma inprods_loop_frame nstates l (e : VectorEngine) :
  let r := (inprods_loop nstates l e).1 in
  same_config r e ∧ base r = base e ∧
  snapshots_ket r = snapshots_ket e ∧
  snapshots_density r = snapshots_density e ∧
  snapshots_probs r = snapshots_probs e ∧
  snapshots_probs_ket r = snapshots_probs_ket e ∧
  (show_snapshots_inner_product e = false →
   snapshots_inprods r = snapshots_inprods e) ∧
  (show_snapshots_overlaps e = false →
   snapshots_overlaps r = snapshots_overlaps e).
Proof.
  revert e. induction l as [|[k psi] l IH]; intros e; cbn [inprods_loop].
  - cbn. split_and!; auto using same_config_refl.
  - destruct (target_loop _ _ _ _ _) as [err|inprods]; cbn zeta.
    + cbn. split_and!; auto using same_config_refl.
    + match goal with |- context [inprods_loop nstates l ?e1] =>
        specialize (IH e1); cbn zeta in IH;
        destruct IH as (Hc & Hb & Hk & Hd & Hp & Hpk & Hi & Ho);
        assert (same_config e1 e ∧ base e1 = base e ∧
                snapshots_ket e1 = snapshots_ket e ∧
                snapshots_density e1 = snapshots_density e ∧
                snapshots_probs e1 = snapshots_probs e ∧
                snapshots_probs_ket e1 = snapshots_probs_ket e ∧
                (show_snapshots_inner_product e = false →
                 snapshots_inprods e1 = snapshots_inprods e) ∧
                (show_snapshots_overlaps e = false →
                 snapshots_overlaps e1 = snapshots_overlaps e))
          as (Hc1 & Hb1 & Hk1 & Hd1 & Hp1 & Hpk1 & Hi1 & Ho1)
      end.
      { unfold same_config.
        destruct (show_snapshots_inner_product e) eqn:Ei,
          (show_snapshots_overlaps e) eqn:Eo; cbn; rewrite ?Eo; cbn;
          split_and!; done. }
      split_and!; try congruence.
      * eauto using same_config_trans.
      * intros Hoff. rewrite Hi, Hi1; [done..|].
        destruct Hc1 as (_&_&_&_&_&_&_&->&_). done.
      * intros Hoff. rewrite Ho, Ho1; [done..|].
        destruct Hc1 as (_&_&_&_&_&_&_&_&->). done.
Qed.

Lemma compute_inprods_frame qreg snaps (e : VectorEngine) :
  let r := (compute_inprods qreg snaps e).1 in
  same_config r e ∧ base r = base e ∧
  snapshots_ket r = snapshots_ket e ∧
  snapshots_density r = snapshots_density e ∧
  snapshots_probs r = snapshots_probs e ∧
  snapshots_probs_ket r = snapshots_probs_ket e ∧
  (show_snapshots_inner_product e = false ∨ target_states e = [] ∨ snaps = ∅ →
   snapshots_inprods r = snapshots_inprods e) ∧
  (show_snapshots_overlaps e = false ∨ target_states e = [] ∨ snaps = ∅ →
   snapshots_overlaps r = snapshots_overlaps e).
Proof.
  assert (∀ e' : VectorEngine, e' = e →
    same_config e' e ∧ base e' = base e ∧
    snapshots_ket e' = snapshots_ket e ∧
    snapshots_density e' = snapshots_density e ∧
    snapshots_probs e' = snapshots_probs e ∧
    snapshots_probs_ket e' = snapshots_probs_ket e ∧
    (show_snapshots_inner_product e = false ∨ target_states e = [] ∨ snaps = ∅ →
     snapshots_inprods e' = snapshots_inprods e) ∧
    (show_snapshots_overlaps e = false ∨ target_states e = [] ∨ snaps = ∅ →
     snapshots_overlaps e' = snapshots_overlaps e)) as Hsame.
  { intros e' ->. pose proof (same_config_refl e). by repeat split. }
  unfold compute_inprods.
  destruct (bool_decide (target_states e ≠ [])) eqn:Et; cbn [andb];
    [|by apply Hsame].
  destruct (show_snapshots_inner_product e || show_snapshots_overlaps e) eqn:Ef;
    [|by apply Hsame].
  apply bool_decide_eq_true in Et.
  destruct (inprods_loop_frame (length qreg) (items snaps) e)
    as (Hc & Hb & Hk & Hd & Hp & Hpk & Hi & Ho).
  refine (conj Hc (conj Hb (conj Hk (conj Hd (conj Hp (conj Hpk (conj _ _))))))).
  - intros [?|[?| ->]]; [auto|done|]. by rewrite items_empty.
  - intros [?|[?| ->]]; [auto|done|]. by rewrite items_empty.
Qed.

Lemma compute_kets_off regs snaps (e : VectorEngine) :
  (show_snapshots_ket e = false →
   snapshots_ket (compute_kets regs snaps e) = snapshots_ket e) ∧
  (show_snapshots_probs_ket e = false ∨ snaps = ∅ →
   snapshots_probs_ket (compute_kets regs snaps e) = snapshots_probs_ket e).
Proof.
  unfold compute_kets.
  destruct (show_snapshots_ket e) eqn:Ek, (show_snapshots_probs_ket e) eqn:Ep;
    cbn; rewrite ?Ep; cbn; split; try done.
  - intros [?| ->]; [done|]. by rewrite !for_each_empty.
  - intros [?| ->]; [done|]. by rewrite !for_each_empty.
Qed.

Lemma compute_density_off snaps (e : VectorEngine) :
  show_snapshots_density e = false ∨ snaps = ∅ →
  snapshots_density (compute_density snaps e) = snapshots_density e.
Proof.
  unfold compute_density. destruct (show_snapshots_density e); cbn; [|done].
  intros [?| ->]; [done|]. by rewrite for_each_empty.
Qed.

Lemma compute_probs_off snaps (e : VectorEngine) :
  show_snapshots_probs e = false ∨ snaps = ∅ →
  snapshots_probs (compute_probs snaps e) = snapshots_probs e.
Proof.
  unfold compute_probs. destruct (show_snapshots_probs e); cbn; [|done].
  intros [?| ->]; [done|]. by rewrite for_each_empty.
Qed.

(** [compute_results] as the composition of its blocks. *)
Lemma compute_results_unfold (this : VectorEngine) qasm be :
  compute_results this qasm be =
    let this1 := set_base (base_compute_results (base this) qasm be) this in
    let regs := if show_snapshots_ket this || show_snapshots_probs_ket this
                then snd <$> reverse (qubit_sizes qasm) else [] in
    if snapshots_empty (base_compute_results (base this) qasm be)
    then (this1, None)
    else compute_inprods (access_qreg be) (access_snapshots be)
           (compute_probs (access_snapshots be)
              (compute_density (access_snapshots be)
                 (compute_kets regs (access_snapshots be) this1))).
Proof.
  unfold compute_results. cbn.
  by destruct (snapshots_empty (base_compute_results (base this) qasm be)).
Qed.

(** What a compute call leaves as it was.  The accumulated structure of a
    category is unchanged when the category's selector is off, or when no
    snapshots are on record once the base class has processed the shot (the
    guard of the call), or, for the inner-product and overlap categories,
    when the target-state list is empty.  The five per-label maps are also
    unchanged whenever the backend holds no snapshot for the shot. *)
Lemma unchanged_categories (this : VectorEngine) (qasm : Circuit) (be : Backend) :
  let this' := (compute_results this qasm be).1 in
  (show_snapshots_ket this = false ∨ no_snapshots this qasm be →
   snapshots_ket this' = snapshots_ket this) ∧
  (show_snapshots_density this = false ∨ no_snapshots this qasm be ∨
   access_snapshots be = ∅ →
   snapshots_density this' = snapshots_density this) ∧
  (show_snapshots_probs this = false ∨ no_snapshots this qasm be ∨
   access_snapshots be = ∅ →
   snapshots_probs this' = snapshots_probs this) ∧
  (show_snapshots_probs_ket this = false ∨ no_snapshots this qasm be ∨
   access_snapshots be = ∅ →
   snapshots_probs_ket this' = snapshots_probs_ket this) ∧
  (show_snapshots_inner_product this = false ∨ no_snapshots this qasm be ∨
   access_snapshots be = ∅ ∨ target_states this = [] →
   snapshots_inprods this' = snapshots_inprods this) ∧
  (show_snapshots_overlaps this = false ∨ no_snapshots this qasm be ∨
   access_snapshots be = ∅ ∨ target_states this = [] →
   snapshots_overlaps this' = snapshots_overlaps this).
Proof.
  cbn zeta. rewrite compute_results_unfold. cbn zeta. unfold no_snapshots.
  destruct (snapshots_empty (base_compute_results (base this) qasm be)) eqn:Eg.
  { cbn. by split_and!. }
  set (this1 := set_base _ this).
  match goal with |- context [compute_kets ?r _ _] => set (regs := r) end.
  set (snaps := access_snapshots be).
  pose proof (compute_kets_frame regs snaps this1) as F1.
  pose proof (compute_kets_off regs snaps this1) as G1.
  pose proof (compute_density_off snaps (compute_kets regs snaps this1)) as G2.
  pose proof (compute_density_frame snaps (compute_kets regs snaps this1)) as F2.
  set (e1 := compute_kets regs snaps this1) in *.
  pose proof (compute_probs_frame snaps (compute_density snaps e1)) as F3.
  pose proof (compute_probs_off snaps (compute_density snaps e1)) as G3.
  set (e2 := compute_density snaps e1) in *.
  pose proof (compute_inprods_frame (access_qreg be) snaps (compute_probs snaps e2))
    as F4.
  set (e3 := compute_probs snaps e2) in *. cbn zeta in F4.
  destruct F1 as (Hc1 & _ & Hd1 & Hp1 & Hi1 & Ho1).
  destruct G1 as (Hk1 & Hpk1).
  destruct F2 as (Hc2 & _ & Hk2 & Hp2 & Hpk2 & Hi2 & Ho2).
  destruct F3 as (Hc3 & _ & Hk3 & Hd3 & Hpk3 & Hi3 & Ho3).
  destruct F4 as (Hc4 & _ & Hk4 & Hd4 & Hp4 & Hpk4 & Hi4 & Ho4).
  assert (same_config e3 this) as (_ & _ & Ht & _ & _ & _ & _ & Hfi & Hfo).
  { eapply same_config_trans; [exact Hc3|].
    eapply same_config_trans; [exact Hc2|].
    eapply same_config_trans; [exact Hc1|]. by repeat split. }
  destruct Hc1 as (_ & _ & _ & _ & Hfd1 & Hfp1 & _).
  destruct Hc2 as (_ & _ & _ & _ & _ & Hfp2 & _).
  split_and!.
  - intros [Hoff|?]; [|done].
    rewrite Hk4, Hk3, Hk2. by apply Hk1.
  - intros [Hoff|[?|Hs]]; [| done |];
      rewrite Hd4, Hd3, G2, Hd1; auto.
    left. by rewrite Hfd1.
  - intros [Hoff|[?|Hs]]; [| done |];
      rewrite Hp4, G3, Hp2, Hp1; auto.
    left. by rewrite Hfp2, Hfp1.
  - intros [Hoff|[?|Hs]]; [| done |];
      rewrite Hpk4, Hpk3, Hpk2; apply Hpk1; auto.
  - intros Hcase. rewrite Hi4, Hi3, Hi2, Hi1; [done|].
    rewrite Hfi, Ht. destruct Hcase as [?|[?|[?|?]]]; auto. done.
  - intros Hcase. rewrite Ho4, Ho3, Ho2, Ho1; [done|].
    rewrite Hfo, Ht. destruct Hcase as [?|[?|[?|?]]]; auto. done.
Qed.

End Compute.

(** ** [to_json] *)

Lemma for_each_build_fmap {A B} (f : A → B) (m : gmap N A) :
  for_each m (λ k v st, <[k := f v]> st) ∅ = f <$> m.
Proof.
  apply map_eq. intros k.
  rewrite (for_each_assign_lookup (λ _ v _, f v)).
  rewrite lookup_fmap, lookup_empty. by destruct (m !! k).
Qed.

Section Render.
Context `{Collaborators}.

Lemma to_json_engine (js : json_t) (eng : VectorEngine) : (to_json js eng).2 = eng.
Proof. done. Qed.

(** The loops of [to_json] as images of the accumulated maps. *)
Lemma render_density_loop (eng : VectorEngine) (x : real) :
  for_each (snapshots_density eng)
    (λ k s rhos,
       let rho := matrix_scale s x in
       let rho := chop_matrix (epsilon eng) rho in
       <[k := rho]> rhos) ∅ =
  (λ s, chop_matrix (epsilon eng) (matrix_scale s x)) <$> snapshots_density eng.
Proof. apply (for_each_build_fmap (λ s, chop_matrix (epsilon eng) (matrix_scale s x))). Qed.

Lemma render_probs_loop (eng : VectorEngine) (x : real) :
  for_each (snapshots_probs eng)
    (λ k val ret,
       let ret := <[k := rvec_scale val x]> ret in
       <[k := chop_rvec (epsilon eng) (at_key [] ret k)]> ret) ∅ =
  (λ s, chop_rvec (epsilon eng) (rvec_scale s x)) <$> snapshots_probs eng.
Proof.
  rewrite <- (for_each_build_fmap (λ s, chop_rvec (epsilon eng) (rvec_scale s x))).
  apply for_each_ext. intros k v s. cbn zeta. unfold at_key.
  by rewrite lookup_insert_eq, insert_insert_eq.
Qed.

Lemma render_probs_ket_loop (eng : VectorEngine) (x : real) :
  for_each (snapshots_probs_ket eng)
    (λ k val ret,
       let ret := <[k := rket_scale val x]> ret in
       <[k := chop_rket (epsilon eng) (at_key ∅ ret k)]> ret) ∅ =
  (λ s, chop_rket (epsilon eng) (rket_scale s x)) <$> snapshots_probs_ket eng.
Proof.
  rewrite <- (for_each_build_fmap (λ s, chop_rket (epsilon eng) (rket_scale s x))).
  apply for_each_ext. intros k v s. cbn zeta. unfold at_key.
  by rewrite lookup_insert_eq, insert_insert_eq.
Qed.

Lemma render_overlaps_loop (eng : VectorEngine) (x : real) :
  for_each (snapshots_overlaps eng)
    (λ k s tmp,
       let s := rvec_scale s x in
       <[k := chop_rvec (epsilon eng) s]> tmp) (snapshots_overlaps eng) =
  (λ s, chop_rvec (epsilon eng) (rvec_scale s x)) <$> snapshots_overlaps eng.
Proof.
  apply (for_each_rewrite (λ s, chop_rvec (epsilon eng) (rvec_scale s x))).
Qed.

Lemma lookup_put_if_eq c k v (js : json_t) :
  put_if c k v js !! k = if c then Some v else js !! k.
Proof. destruct c; cbn; by rewrite ?lookup_insert_eq. Qed.

Lemma lookup_put_if_ne c k k' v (js : json_t) :
  k ≠ k' → put_if c k v js !! k' = js !! k'.
Proof. intros ?. destruct c; cbn; by rewrite ?lookup_insert_ne. Qed.

Lemma to_json_blocks (js : json_t) (eng : VectorEngine) :
  (to_json js eng).1 =
    put_if (show_snapshots_overlaps eng && bool_decide (snapshots_overlaps eng ≠ ∅))
      "overlaps"
      (JRVectors ((λ s, chop_rvec (epsilon eng) (rvec_scale s (renorm_of eng)))
                    <$> snapshots_overlaps eng))
    (put_if (show_snapshots_inner_product eng &&
             bool_decide (snapshots_inprods eng ≠ ∅))
      "inner_products" (JCVectorLists (snapshots_inprods eng))
    (put_if (show_snapshots_probs_ket eng &&
             bool_decide (snapshots_probs_ket eng ≠ ∅))
      "probabilities_ket"
      (JRKets ((λ s, chop_rket (epsilon eng) (rket_scale s (renorm_of eng)))
                 <$> snapshots_probs_ket eng))
    (put_if (show_snapshots_probs eng && bool_decide (snapshots_probs eng ≠ ∅))
      "probabilities"
      (JRVectors ((λ s, chop_rvec (epsilon eng) (rvec_scale s (renorm_of eng)))
                    <$> snapshots_probs eng))
    (put_if (show_snapshots_density eng && bool_decide (snapshots_density eng ≠ ∅))
      "density_matrix"
      (JMatrices ((λ s, chop_matrix (epsilon eng) (matrix_scale s (renorm_of eng)))
                    <$> snapshots_density eng))
    (put_if (show_snapshots_ket eng && bool_decide (snapshots_ket eng ≠ []))
      "quantum_state_ket" (JKets (snapshots_ket eng))
      (base_to_json js (base eng))))))).
Proof.
  rewrite <- render_density_loop, <- render_probs_loop,
    <- render_probs_ket_loop, <- render_overlaps_loop.
  reflexivity.
Qed.

Ltac doc_lookup :=
  rewrite to_json_blocks;
  repeat first [ rewrite lookup_put_if_eq | rewrite lookup_put_if_ne by done ];
  try done.

Lemma to_json_ket (js : json_t) (eng : VectorEngine) :
  (to_json js eng).1 !! "quantum_state_ket" =
    if show_snapshots_ket eng && bool_decide (snapshots_ket eng ≠ [])
    then Some (JKets (snapshots_ket eng))
    else base_to_json js (base eng) !! "quantum_state_ket".
Proof. doc_lookup. Qed.

Lemma to_json_inner_products (js : json_t) (eng : VectorEngine) :
  (to_json js eng).1 !! "inner_products" =
    if show_snapshots_inner_product eng && bool_decide (snapshots_inprods eng ≠ ∅)
    then Some (JCVectorLists (snapshots_inprods eng))
    else base_to_json js (base eng) !! "inner_products".
Proof. doc_lookup. Qed.

Lemma to_json_density (js : json_t) (eng : VectorEngine) :
  (to_json js eng).1 !! "density_matrix" =
    if show_snapshots_density eng && bool_decide (snapshots_density eng ≠ ∅)
    then Some (JMatrices
                 ((λ s, chop_matrix (epsilon eng) (matrix_scale s (renorm_of eng)))
                    <$> snapshots_density eng))
    else base_to_json js (base eng) !! "density_matrix".
Proof. doc_lookup. Qed.

Lemma to_json_probs (js : json_t) (eng : VectorEngine) :
  (to_json js eng).1 !! "probabilities" =
    if show_snapshots_probs eng && bool_decide (snapshots_probs eng ≠ ∅)
    then Some (JRVectors
                 ((λ s, chop_rvec (epsilon eng) (rvec_scale s (renorm_of eng)))
                    <$> snapshots_probs eng))
    else base_to_json js (base eng) !! "probabilities".
Proof. doc_lookup. Qed.

Lemma to_json_probs_ket (js : json_t) (eng : VectorEngine) :
  (to_json js eng).1 !! "probabilities_ket" =
    if show_snapshots_probs_ket eng && bool_decide (snapshots_probs_ket eng ≠ ∅)
    then Some (JRKets
                 ((λ s, chop_rket (epsilon eng) (rket_scale s (renorm_of eng)))
                    <$> snapshots_probs_ket eng))
    else base_to_json js (base eng) !! "probabilities_ket".
Proof. doc_lookup. Qed.

Lemma to_json_overlaps (js : json_t) (eng : VectorEngine) :
  (to_json js eng).1 !! "overlaps" =
    if show_snapshots_overlaps eng && bool_decide (snapshots_overlaps eng ≠ ∅)
    then Some (JRVectors
                 ((λ s, chop_rvec (epsilon eng) (rvec_scale s (renorm_of eng)))
                    <$> snapshots_overlaps eng))
    else base_to_json js (base eng) !! "overlaps".
Proof. doc_lookup. Qed.

(** [chop] after the multiplication by [x], entry by entry. *)
Lemma chop_scale_rvec (eps x : real) (v : rvector_t) :
  chop_rvec eps (rvec_scale v x) =
    (λ a, if rltb (rabs (rmul a x)) eps then r0 else rmul a x) <$> v.
Proof. unfold chop_rvec, rvec_scale. by rewrite <- list_fmap_compose. Qed.

Lemma chop_scale_rket (eps x : real) (k : rket_t) :
  chop_rket eps (rket_scale k x) =
    (λ a, if rltb (rabs (rmul a x)) eps then r0 else rmul a x) <$> k.
Proof. unfold chop_rket, rket_scale. by rewrite <- map_fmap_compose. Qed.

Lemma chop_scale_matrix (eps x : real) (m : cmatrix_t) :
  chop_matrix eps (matrix_scale m x) =
    (λ row : cvector_t,
       (λ z, Cx (if rltb (rabs (rmul (re z) x)) eps then r0 else rmul (re z) x)
                (if rltb (rabs (rmul (im z) x)) eps then r0 else rmul (im z) x))
         <$> row) <$> m.
Proof.
  unfold chop_matrix, matrix_scale, chop_cvec. rewrite <- list_fmap_compose.
  apply list_fmap_ext. intros _ row _. cbn. by rewrite <- list_fmap_compose.
Qed.

(** C3 (renormalisation scope).  In the rendered document every entry [x] of
    an accumulated density, probability, probability-ket or overlap sum
    appears as the product [x * (1 / total_shots)] (set to zero when its
    magnitude is below the threshold; for a density entry, component by
    component), while the ket-snapshot field and the inner-product field
    hold the accumulated lists as they are, with no factor applied.  Each
    field is written when its selector is on and its accumulated structure is
    not empty. *)
Theorem renormalization_scope (js : json_t) (eng : VectorEngine) :
  let doc := (to_json js eng).1 in
  let renorm := rdiv r1 (of_uint (total_shots (base eng))) in
  let out (x : real) : real :=
    if rltb (rabs (rmul x renorm)) (epsilon eng) then r0 else rmul x renorm in
  let out_c (z : complex_t) : complex_t := Cx (out (re z)) (out (im z)) in
  (show_snapshots_density eng = true → snapshots_density eng ≠ ∅ →
   doc !! "density_matrix" =
     Some (JMatrices ((λ rho : cmatrix_t,
                         (λ row : cvector_t, out_c <$> row) <$> rho)
                        <$> snapshots_density eng))) ∧
  (show_snapshots_probs eng = true → snapshots_probs eng ≠ ∅ →
   doc !! "probabilities" =
     Some (JRVectors ((λ v : rvector_t, out <$> v) <$> snapshots_probs eng))) ∧
  (show_snapshots_probs_ket eng = true → snapshots_probs_ket eng ≠ ∅ →
   doc !! "probabilities_ket" =
     Some (JRKets ((λ s : rket_t, out <$> s) <$> snapshots_probs_ket eng))) ∧
  (show_snapshots_overlaps eng = true → snapshots_overlaps eng ≠ ∅ →
   doc !! "overlaps" =
     Some (JRVectors ((λ v : rvector_t, out <$> v) <$> snapshots_overlaps eng))) ∧
  (show_snapshots_ket eng = true → snapshots_ket eng ≠ [] →
   doc !! "quantum_state_ket" = Some (JKets (snapshots_ket eng))) ∧
  (show_snapshots_inner_product eng = true → snapshots_inprods eng ≠ ∅ →
   doc !! "inner_products" = Some (JCVectorLists (snapshots_inprods eng))).
Proof.
  cbn zeta. fold (renorm_of eng).
  rewrite to_json_density, to_json_probs, to_json_probs_ket, to_json_overlaps,
    to_json_ket, to_json_inner_products.
  split_and!; intros -> Hne; rewrite bool_decide_eq_true_2 by done;
    cbn [andb]; try done; do 2 f_equal; apply map_fmap_ext; intros k v _.
  - apply chop_scale_matrix.
  - apply chop_scale_rvec.
  - apply chop_scale_rket.
  - apply chop_scale_rvec.
Qed.

(** C6 (render purity and repeatability).  Rendering returns the engine it was
    given, so every accumulated member is unchanged, and rendering again
    (the engine as the first rendering left it, the same incoming document,
    hence the same shot count and threshold) produces the same document. *)
Theorem render_pure (js : json_t) (eng : VectorEngine) :
  let first := to_json js eng in
  let second := to_json js first.2 in
  first.2 = eng ∧
  snapshot_data first.2 = snapshot_data eng ∧
  second.2 = eng ∧
  second.1 = first.1.
Proof. cbn zeta. by rewrite !to_json_engine. Qed.

End Render.

(** ** [from_json] *)

Section Configure.
Context `{Collaborators}.

Lemma set_option_selectors (o : string) (e : VectorEngine) :
  selectors (set_option o e) =
    (show_snapshots_ket e ||
       bool_decide (o = "quantumstateket" ∨ o = "quantumstatesket"),
     show_snapshots_density e || bool_decide (o = "densitymatrix"),
     show_snapshots_probs e || bool_decide (o = "probabilities" ∨ o = "probs"),
     show_snapshots_probs_ket e ||
       bool_decide (o = "probabilitiesket" ∨ o = "probsket"),
     show_snapshots_inner_product e || bool_decide (o = "targetstatesinner"),
     show_snapshots_overlaps e || bool_decide (o = "targetstatesprobs")).
Proof.
  unfold set_option, selectors.
  repeat case_bool_decide;
    try (exfalso;
         repeat match goal with H : _ ∨ _ |- _ => destruct H end;
         congruence);
    cbn [show_snapshots_ket show_snapshots_density show_snapshots_probs
         show_snapshots_probs_ket show_snapshots_inner_product
         show_snapshots_overlaps set_show_snapshots_ket
         set_show_snapshots_density set_show_snapshots_probs
         set_show_snapshots_probs_ket set_show_snapshots_inner_product
         set_show_snapshots_overlaps];
    by rewrite ?orb_true_r, ?orb_false_r.
Qed.

Lemma set_option_unknown (o : string) (e : VectorEngine) :
  o ∉ token_table → set_option o e = e.
Proof.
  unfold token_table. rewrite !elem_of_cons, elem_of_nil. intros Ho.
  unfold set_option.
  by rewrite !bool_decide_eq_false_2 by (intros ?; apply Ho; intuition).
Qed.

Lemma names_token_cons (names : list string) (o : string) (opts : list string) :
  names_token names (o :: opts) ↔ normalise o ∈ names ∨ names_token names opts.
Proof.
  unfold names_token. setoid_rewrite elem_of_cons. split.
  - intros (o' & [->|?] & ?); eauto.
  - intros [?|(o' & ? & ?)]; eauto.
Qed.

Lemma names_token_nil (names : list string) : ¬ names_token names [].
Proof. intros (o & Ho & _). by apply elem_of_nil in Ho. Qed.

Lemma parse_options_selectors (opts : list string) (e : VectorEngine) :
  let e' := parse_options opts e in
  (show_snapshots_ket e' = true ↔
   show_snapshots_ket e = true ∨
   names_token ["quantumstateket"; "quantumstatesket"] opts) ∧
  (show_snapshots_density e' = true ↔
   show_snapshots_density e = true ∨ names_token ["densitymatrix"] opts) ∧
  (show_snapshots_probs e' = true ↔
   show_snapshots_probs e = true ∨ names_token ["probabilities"; "probs"] opts) ∧
  (show_snapshots_probs_ket e' = true ↔
   show_snapshots_probs_ket e = true ∨
   names_token ["probabilitiesket"; "probsket"] opts) ∧
  (show_snapshots_inner_product e' = true ↔
   show_snapshots_inner_product e = true ∨
   names_token ["targetstatesinner"] opts) ∧
  (show_snapshots_overlaps e' = true ↔
   show_snapshots_overlaps e = true ∨ names_token ["targetstatesprobs"] opts).
Proof.
  revert e. induction opts as [|o opts IH]; intros e.
  - cbn. split_and!; (split; [auto | intros [?|?%names_token_nil]; done]).
  - cbn zeta. unfold parse_options. cbn [foldl]. cbn zeta.
    fold (normalise o).
    fold (parse_options opts (set_option (normalise o) e)).
    specialize (IH (set_option (normalise o) e)). cbn zeta in IH.
    pose proof (set_option_selectors (normalise o) e) as Hsel.
    unfold selectors in Hsel. injection Hsel as H1 H2 H3 H4 H5 H6.
    rewrite H1, H2, H3, H4, H5, H6 in IH. clear H1 H2 H3 H4 H5 H6.
    rewrite !names_token_cons.
    rewrite !orb_true_iff, !bool_decide_eq_true in IH.
    rewrite !elem_of_cons, !elem_of_nil.
    destruct IH as (I1 & I2 & I3 & I4 & I5 & I6).
    rewrite I1, I2, I3, I4, I5, I6. clear. split_and!; tauto.
Qed.

Lemma from_json_selectors (js : json_t) (eng : VectorEngine) :
  selectors (from_json js eng) =
    selectors (parse_options (default [] (get_strings "data" js))
                 (VectorEngine_new 2)).
Proof.
  unfold from_json. cbn zeta.
  set (e0 := set_base _ (VectorEngine_new 2)).
  assert (He0 : ∀ opts, selectors (parse_options opts e0) =
                        selectors (parse_options opts (VectorEngine_new 2))).
  { intros opts. unfold e0. generalize (VectorEngine_new 2).
    generalize (base_from_json js (base (VectorEngine_new 2))).
    induction opts as [|o opts IH]; intros b e; [done|].
    unfold parse_options. cbn [foldl]. cbn zeta.
    fold (parse_options opts (set_option (string_trim (to_lowercase o)) (set_base b e))).
    fold (parse_options opts (set_option (string_trim (to_lowercase o)) e)).
    rewrite <- (IH b).
    f_equal. f_equal. unfold set_option. by repeat case_bool_decide. }
  rewrite <- He0.
  destruct (get_strings "data" js) as [opts|]; cbn [default];
    [fold (parse_options opts e0)|];
    repeat match goal with
           | |- context [match ?x with _ => _ end] => destruct x
           end; done.
Qed.

(** C9 (permissive token parsing).  After [from_json], each selector is on
    exactly when some token of the [data] list, case-folded and trimmed, is
    one of the names the token table gives for it; a token whose normal form
    is not in the table changes nothing.  [from_json] is a total function: no
    token makes it fail. *)
Theorem token_parsing (js : json_t) (eng : VectorEngine) :
  let opts := default [] (get_strings "data" js) in
  let e := from_json js eng in
  (show_snapshots_ket e = true ↔
   names_token ["quantumstateket"; "quantumstatesket"] opts) ∧
  (show_snapshots_density e = true ↔ names_token ["densitymatrix"] opts) ∧
  (show_snapshots_probs e = true ↔ names_token ["probabilities"; "probs"] opts) ∧
  (show_snapshots_probs_ket e = true ↔
   names_token ["probabilitiesket"; "probsket"] opts) ∧
  (show_snapshots_inner_product e = true ↔
   names_token ["targetstatesinner"] opts) ∧
  (show_snapshots_overlaps e = true ↔ names_token ["targetstatesprobs"] opts) ∧
  (∀ o e', normalise o ∉ token_table → set_option (normalise o) e' = e').
Proof.
  cbn zeta. pose proof (from_json_selectors js eng) as Hsel.
  unfold selectors in Hsel. injection Hsel as -> -> -> -> -> ->.
  destruct (parse_options_selectors (default [] (get_strings "data" js))
              (VectorEngine_new 2)) as (I1 & I2 & I3 & I4 & I5 & I6).
  cbn zeta in *. rewrite I1, I2, I3, I4, I5, I6. cbn.
  split_and!; try (clear; split; [intros [?|?]; [done|assumption] | auto]).
  intros o e'. apply set_option_unknown.
Qed.

End Configure.

(** ** The inner-product block of [compute_results] *)

Section InnerProducts.
Context `{Collaborators}.

Lemma get_probs_vec_fmap (vec : QubitVector) : get_probs_vec vec = get_probs <$> vec.
Proof.
  unfold get_probs_vec.
  assert (∀ acc : rvector_t,
    foldl (λ ret elt, ret ++ [get_probs elt]) acc vec = acc ++ (get_probs <$> vec))
    as Hgen; [|by rewrite Hgen].
  induction vec as [|z vec IH]; intros acc; cbn.
  - by rewrite app_nil_r.
  - by rewrite IH, <- app_assoc.
Qed.

Lemma target_loop_ok eps n psi targets acc :
  sizes_match targets psi →
  target_loop eps n psi targets acc = inr (acc ++ chopped_inprods eps psi targets).
Proof.
  revert acc. induction targets as [|vec targets IH]; intros acc Hall; cbn.
  - by rewrite app_nil_r.
  - apply Forall_cons in Hall as [Hvec Hall].
    rewrite decide_False by (by intros []).
    rewrite IH by done. by rewrite <- app_assoc.
Qed.

Lemma target_loop_fail eps n psi targets acc :
  ¬ sizes_match targets psi →
  ∃ vec, vec ∈ targets ∧ length vec ≠ length psi ∧
         target_loop eps n psi targets acc = inl (TargetStateSize (length vec) n).
Proof.
  revert acc. induction targets as [|vec targets IH]; intros acc Hall; cbn.
  - destruct Hall. constructor.
  - destruct (decide (length vec ≠ length psi)) as [Hne|Heq].
    + exists vec. split_and!; [left|done..].
    + apply dec_stable in Heq.
      destruct (IH (acc ++ [chop_c eps (inner_product psi vec)]))
        as (vec' & Hin & Hne & Hrun).
      { intros Hrest. apply Hall. by constructor. }
      exists vec'. split_and!; [by right|done..].
Qed.

(** Chopping a chopped value changes nothing: what [compute_results] stores
    under a threshold is already in chopped form for that threshold. *)
Lemma chop_idempotent (eps x : real) : chop eps (chop eps x) = chop eps x.
Proof.
  unfold chop. destruct (rltb (rabs x) eps) eqn:E; [|by rewrite E].
  by destruct (rltb (rabs r0) eps).
Qed.

Lemma chopped_inprods_stable eps psi targets :
  chop_cvec eps (chopped_inprods eps psi targets) = chopped_inprods eps psi targets.
Proof.
  unfold chop_cvec, chopped_inprods. rewrite <- list_fmap_compose.
  apply list_fmap_ext. intros _ vec _. unfold chop_c. cbn.
  by rewrite !chop_idempotent.
Qed.

#[local] Instance sizes_match_dec targets psi : Decision (sizes_match targets psi).
Proof. unfold sizes_match. apply _. Defined.

Lemma inprods_loop_cons n k psi rest (e : VectorEngine) :
  inprods_loop n ((k, psi) :: rest) e =
    match target_loop (epsilon e) n psi (target_states e) [] with
    | inl err => (e, Some err)
    | inr inprods => inprods_loop n rest (commit_inprods k inprods e)
    end.
Proof. done. Qed.

Lemma commit_inprods_config k ip (e : VectorEngine) :
  same_config (commit_inprods k ip e) e.
Proof.
  unfold commit_inprods, same_config.
  destruct (show_snapshots_inner_product e) eqn:Ei,
    (show_snapshots_overlaps e) eqn:Eo; cbn; rewrite ?Eo; cbn; split_and!; done.
Qed.

Lemma commit_inprods_inprods k ip (e : VectorEngine) :
  snapshots_inprods (commit_inprods k ip e) =
    if show_snapshots_inner_product e
    then <[k := default [] (snapshots_inprods e !! k) ++ [ip]]> (snapshots_inprods e)
    else snapshots_inprods e.
Proof.
  unfold commit_inprods.
  destruct (show_snapshots_inner_product e) eqn:Ei,
    (show_snapshots_overlaps e) eqn:Eo; cbn; rewrite ?Eo; cbn; done.
Qed.

Lemma commit_inprods_overlaps k ip (e : VectorEngine) :
  snapshots_overlaps (commit_inprods k ip e) =
    if show_snapshots_overlaps e
    then <[k := vector_add (default [] (snapshots_overlaps e !! k)) (get_probs <$> ip)]>
           (snapshots_overlaps e)
    else snapshots_overlaps e.
Proof.
  unfold commit_inprods. rewrite get_probs_vec_fmap.
  destruct (show_snapshots_inner_product e) eqn:Ei,
    (show_snapshots_overlaps e) eqn:Eo; cbn; rewrite ?Eo; cbn; done.
Qed.

Lemma inprods_loop_ok n l (e : VectorEngine) :
  Forall (λ kv, sizes_match (target_states e) kv.2) l →
  (inprods_loop n l e).2 = None ∧
  snapshots_inprods (inprods_loop n l e).1 =
    (if show_snapshots_inner_product e
     then inprods_after (epsilon e) (target_states e) l (snapshots_inprods e)
     else snapshots_inprods e) ∧
  snapshots_overlaps (inprods_loop n l e).1 =
    (if show_snapshots_overlaps e
     then overlaps_after (epsilon e) (target_states e) l (snapshots_overlaps e)
     else snapshots_overlaps e).
Proof.
  revert e. induction l as [|[k psi] l IH]; intros e Hall.
  - cbn. by destruct (show_snapshots_inner_product e), (show_snapshots_overlaps e).
  - apply Forall_cons in Hall as [Hhd Hall]. cbn [snd] in Hhd.
    rewrite inprods_loop_cons, (target_loop_ok _ _ _ _ _ Hhd), app_nil_l.
    set (ip := chopped_inprods (epsilon e) psi (target_states e)).
    destruct (commit_inprods_config k ip e) as (He & _ & Ht & _ & _ & _ & _ & Hi & Ho).
    destruct (IH (commit_inprods k ip e)) as (Hr & Hri & Hro).
    { by rewrite Ht. }
    rewrite Hr, Hri, Hro, He, Ht, Hi, Ho.
    rewrite commit_inprods_inprods, commit_inprods_overlaps.
    split_and!; [done| |].
    + by destruct (show_snapshots_inner_product e).
    + by destruct (show_snapshots_overlaps e).
Qed.

Lemma inprods_loop_fail n l (e : VectorEngine) :
  ¬ Forall (λ kv, sizes_match (target_states e) kv.2) l →
  ∃ l1 k0 psi0 l2 vec0,
    l = l1 ++ (k0, psi0) :: l2 ∧
    Forall (λ kv, sizes_match (target_states e) kv.2) l1 ∧
    vec0 ∈ target_states e ∧ length vec0 ≠ length psi0 ∧
    inprods_loop n l e =
      ((inprods_loop n l1 e).1, Some (TargetStateSize (length vec0) n)).
Proof.
  revert e. induction l as [|[k psi] l IH]; intros e Hall.
  - destruct Hall. constructor.
  - rewrite inprods_loop_cons.
    destruct (decide (sizes_match (target_states e) psi)) as [Hok|Hbad].
    + rewrite (target_loop_ok _ _ _ _ _ Hok), app_nil_l.
      set (ip := chopped_inprods (epsilon e) psi (target_states e)).
      destruct (commit_inprods_config k ip e) as (He & _ & Ht & _).
      destruct (IH (commit_inprods k ip e))
        as (l1 & k0 & psi0 & l2 & vec0 & -> & Hl1 & Hin & Hne & Hrun).
      { rewrite Ht. intros Hrest. apply Hall. by constructor. }
      exists ((k, psi) :: l1), k0, psi0, l2, vec0.
      rewrite Ht in Hl1, Hin. split_and!; [done| by constructor |done..|].
      rewrite Hrun, inprods_loop_cons, (target_loop_ok _ _ _ _ _ Hok), app_nil_l.
      done.
    + destruct (target_loop_fail (epsilon e) n psi (target_states e) [] Hbad)
        as (vec0 & Hin & Hne & ->).
      exists [], k, psi, l, vec0. split_and!; [done|constructor|done..].
Qed.

End InnerProducts.

#[local] Instance key_le_trans {A} : Transitive (@key_le A).
Proof. intros x y z. unfold key_le. lia. Qed.

#[local] Instance key_le_total {A} : Total (@key_le A).
Proof. intros x y. unfold key_le. lia. Qed.

Lemma items_sorted {A} (m : gmap N A) : StronglySorted key_le (items m).
Proof. apply StronglySorted_merge_sort; apply _. Qed.

(** In iteration order, the entries before a given one have smaller keys. *)
Lemma items_before {A} (m : gmap N A) l1 k0 v0 l2 :
  items m = l1 ++ (k0, v0) :: l2 → ∀ k, k ∈ l1.*1 → (k < k0)%N.
Proof.
  intros Hitems k Hk.
  pose proof (items_sorted m) as Hsort. pose proof (items_NoDup m) as Hnd.
  rewrite Hitems in Hsort, Hnd.
  apply list_elem_of_fmap in Hk as ([k' v] & -> & Hin). cbn.
  assert (key_le (k', v) (k0, v0)) as Hle.
  { eapply StronglySorted_app_1_elem_of; [exact Hsort|done|left]. }
  unfold key_le in Hle. cbn in Hle.
  assert (k' ≠ k0); [|lia].
  intros ->. rewrite fmap_app in Hnd. apply NoDup_app in Hnd as (_ & Hdisj & _).
  apply (Hdisj k0).
  - apply list_elem_of_fmap. by exists (k0, v).
  - cbn. left.
Qed.

Lemma foldl_assign_untouched {A B} (g : N → A → option B → B) (l : list (N * A))
    (acc : gmap N B) (k : N) :
  k ∉ l.*1 →
  foldl (λ st kv, <[kv.1 := g kv.1 kv.2 (st !! kv.1)]> st) acc l !! k = acc !! k.
Proof.
  revert acc. induction l as [|[k0 v0] l IH]; intros acc Hk; [done|].
  cbn in Hk. apply not_elem_of_cons in Hk as [Hne Hk].
  cbn [foldl fst snd]. rewrite IH by done. by rewrite lookup_insert_ne.
Qed.

Section InnerProductClaims.
Context `{Collaborators}.

(** Past the guard, the call ends with the inner-product block, entered with
    the configuration and the two maps of the engine the call started with. *)
Lemma compute_results_guarded (this : VectorEngine) qasm be :
  snapshots_empty (base_compute_results (base this) qasm be) = false →
  ∃ e3 : VectorEngine,
    same_config e3 this ∧
    snapshots_inprods e3 = snapshots_inprods this ∧
    snapshots_overlaps e3 = snapshots_overlaps this ∧
    compute_results this qasm be =
      compute_inprods (access_qreg be) (access_snapshots be) e3.
Proof.
  intros Hg. rewrite compute_results_unfold. cbn zeta. rewrite Hg.
  match goal with |- context [compute_inprods _ _ ?e] => exists e end.
  match goal with |- context [compute_kets ?r ?s ?e] =>
    pose proof (compute_kets_frame r s e) as (Hc1 & _ & _ & _ & Hi1 & Ho1);
    pose proof (compute_density_frame s (compute_kets r s e))
      as (Hc2 & _ & _ & _ & _ & Hi2 & Ho2);
    pose proof (compute_probs_frame s (compute_density s (compute_kets r s e)))
      as (Hc3 & _ & _ & _ & _ & Hi3 & Ho3)
  end.
  split_and!; [|by rewrite Hi3, Hi2, Hi1|by rewrite Ho3, Ho2, Ho1|done].
  eapply same_config_trans; [exact Hc3|].
  eapply same_config_trans; [exact Hc2|].
  eapply same_config_trans; [exact Hc1|]. by repeat split.
Qed.

Lemma inprods_after_items eps targets (snaps : gmap N QubitVector)
    (acc : gmap N (list cvector_t)) (k : N) :
  inprods_after eps targets (items snaps) acc !! k =
    match snaps !! k with
    | Some psi => Some (default [] (acc !! k) ++ [chopped_inprods eps psi targets])
    | None => acc !! k
    end.
Proof.
  unfold inprods_after.
  rewrite (foldl_assign_lookup
             (λ _ v o, default [] o ++ [chopped_inprods eps v targets]))
    by apply items_NoDup.
  by rewrite items_to_map.
Qed.

Lemma overlaps_after_items eps targets (snaps : gmap N QubitVector)
    (acc : gmap N rvector_t) (k : N) :
  overlaps_after eps targets (items snaps) acc !! k =
    match snaps !! k with
    | Some psi =>
        Some (vector_add (default [] (acc !! k))
                (get_probs <$> chopped_inprods eps psi targets))
    | None => acc !! k
    end.
Proof.
  unfold overlaps_after.
  rewrite (foldl_assign_lookup
             (λ _ v o, vector_add (default [] o)
                         (get_probs <$> chopped_inprods eps v targets)))
    by apply items_NoDup.
  by rewrite items_to_map.
Qed.

(** C7 (inner-product and overlap accumulation), as amended.  In a compute
    call that passes the guard, with a non-empty target list whose states all
    have the length of every captured snapshot, no exception is thrown and,
    for each captured snapshot, the engine appends to that label's
    inner-product list (selector on) the sequence of the chopped inner
    products [chop(psi . target*, epsilon)] in target-list order, and adds
    (selector on) the squared moduli of these chopped values to that label's
    overlap sum, index by index. *)
Theorem inner_product_accumulation (this : VectorEngine) (qasm : Circuit)
    (be : Backend) :
  snapshots_empty (base_compute_results (base this) qasm be) = false →
  target_states this ≠ [] →
  (∀ k psi, access_snapshots be !! k = Some psi →
            sizes_match (target_states this) psi) →
  (compute_results this qasm be).2 = None ∧
  accumulates (λ psi vec, chop_c (epsilon this) (inner_product psi vec))
    this qasm be.
Proof.
  intros Hg Ht Hsizes. unfold accumulates. cbn zeta.
  destruct (compute_results_guarded this qasm be Hg)
    as (e3 & (He & _ & Hts & _ & _ & _ & _ & Hfi & Hfo) & Hi & Ho & ->).
  unfold compute_inprods. rewrite Hts, bool_decide_eq_true_2 by done.
  rewrite Hfi, Hfo. cbn [andb].
  destruct (show_snapshots_inner_product this || show_snapshots_overlaps this)
    eqn:Eflags.
  2:{ apply orb_false_iff in Eflags as [-> ->]. cbn. split; [done|].
      intros k psi _; split; intros [=]. }
  destruct (inprods_loop_ok (length (access_qreg be))
              (items (access_snapshots be)) e3) as (Hr & Hri & Hro).
  { apply Forall_forall. intros [k psi] Hin%elem_of_items. cbn.
    rewrite Hts. eauto. }
  split; [done|]. intros k psi Hk.
  rewrite Hri, Hro, Hfi, Hfo, He, Hts, Hi, Ho. split; intros ->.
  - by rewrite inprods_after_items, Hk.
  - by rewrite overlaps_after_items, Hk.
Qed.

(** A size check that fails.  In a compute call that passes the guard with
    the inner-product or the overlap selector on, if a target state has a
    length different from that of a captured snapshot, the call throws; the
    error carries the length of the first target that does not fit the first
    snapshot (by increasing label) with such a target, and [qreg.size()].
    Nothing is committed to the inner-product and overlap maps under the
    label of that snapshot or a later one; when all captured snapshots have
    one length, both maps are exactly as before the call. *)
Lemma size_mismatch_throw (this : VectorEngine) (qasm : Circuit)
    (be : Backend) (k : N) (psi vec : QubitVector) :
  show_snapshots_inner_product this || show_snapshots_overlaps this = true →
  snapshots_empty (base_compute_results (base this) qasm be) = false →
  access_snapshots be !! k = Some psi →
  vec ∈ target_states this →
  length vec ≠ length psi →
  let this' := (compute_results this qasm be).1 in
  ∃ k0 psi0 vec0,
    access_snapshots be !! k0 = Some psi0 ∧ vec0 ∈ target_states this ∧
    length vec0 ≠ length psi0 ∧
    (compute_results this qasm be).2 =
      Some (TargetStateSize (length vec0) (length (access_qreg be))) ∧
    (∀ k', (k0 ≤ k')%N →
       snapshots_inprods this' !! k' = snapshots_inprods this !! k' ∧
       snapshots_overlaps this' !! k' = snapshots_overlaps this !! k') ∧
    ((∀ k' psi', access_snapshots be !! k' = Some psi' →
                 length psi' = length psi) →
     snapshots_inprods this' = snapshots_inprods this ∧
     snapshots_overlaps this' = snapshots_overlaps this).
Proof.
  intros Hflags Hg Hk Hvec Hne. cbn zeta.
  destruct (compute_results_guarded this qasm be Hg)
    as (e3 & (He & _ & Hts & _ & _ & _ & _ & Hfi & Hfo) & Hi & Ho & ->).
  unfold compute_inprods.
  rewrite Hts, bool_decide_eq_true_2
    by (intros E; rewrite E in Hvec; by apply elem_of_nil in Hvec).
  rewrite Hfi, Hfo, Hflags. cbn [andb].
  destruct (inprods_loop_fail (length (access_qreg be))
              (items (access_snapshots be)) e3)
    as (l1 & k0 & psi0 & l2 & vec0 & Hitems & Hl1 & Hin0 & Hne0 & ->).
  { rewrite Forall_forall. intros Hall.
    specialize (Hall (k, psi)). cbn in Hall. rewrite Hts in Hall.
    unfold sizes_match in Hall. rewrite Forall_forall in Hall.
    apply Hne, Hall; [by apply elem_of_items|done]. }
  rewrite Hts in Hin0.
  assert (access_snapshots be !! k0 = Some psi0) as Hk0.
  { apply elem_of_items. rewrite Hitems, elem_of_app. right. left. }
  exists k0, psi0, vec0. cbn [fst snd].
  destruct (inprods_loop_ok (length (access_qreg be)) l1 e3 Hl1)
    as (_ & Hri & Hro).
  split_and!; [done..| |].
  - intros k' Hle. rewrite Hri, Hro, Hi, Ho.
    assert (k' ∉ l1.*1) as Hk'.
    { intros Hin'. pose proof (items_before _ _ _ _ _ Hitems k' Hin'). lia. }
    split.
    + destruct (show_snapshots_inner_product e3); [|done].
      unfold inprods_after.
      by rewrite (foldl_assign_untouched
                    (λ _ v o, default [] o ++
                                [chopped_inprods (epsilon e3) v (target_states e3)])).
    + destruct (show_snapshots_overlaps e3); [|done].
      unfold overlaps_after.
      by rewrite (foldl_assign_untouched
                    (λ _ v o, vector_add (default [] o)
                       (get_probs <$>
                          chopped_inprods (epsilon e3) v (target_states e3)))).
  - intros Hsame.
    assert (l1 = []) as ->.
    { destruct l1 as [|[k1 psi1] l1]; [done|]. exfalso.
      apply Forall_cons in Hl1 as [Hhd _]. cbn in Hhd.
      unfold sizes_match in Hhd. rewrite Forall_forall, Hts in Hhd.
      apply Hne0. rewrite (Hhd vec0 Hin0).
      assert (access_snapshots be !! k1 = Some psi1) as Hk1.
      { apply elem_of_items. rewrite Hitems. left. }
      by rewrite (Hsame _ _ Hk1), (Hsame _ _ Hk0). }
    cbn. by rewrite Hi, Ho.
Qed.

(** C2 (size-mismatch failure).  In a compute call that reaches the
    inner-product block (the guard passes, the inner-product or the overlap
    selector is on) on a shot whose snapshots have the length of the working
    register: if a target state has a length [k] different from the length
    [m] of a captured snapshot, the call throws an error that carries the two
    lengths [k] and [m] of such a pair, and the inner-product and overlap
    maps are exactly as before the call: nothing of the shot is committed. *)
Theorem size_mismatch_failure (this : VectorEngine) (qasm : Circuit)
    (be : Backend) :
  snapshots_empty (base_compute_results (base this) qasm be) = false →
  show_snapshots_inner_product this || show_snapshots_overlaps this = true →
  (∀ k psi, access_snapshots be !! k = Some psi →
            length psi = length (access_qreg be)) →
  fails_cleanly this qasm be.
Proof.
  intros Hg Hflags Hreg. unfold fails_cleanly. cbn zeta.
  intros (k & psi & vec & Hk & Hvec & Hne).
  destruct (size_mismatch_throw this qasm be k psi vec Hflags Hg Hk Hvec Hne)
    as (k0 & psi0 & vec0 & Hk0 & Hin0 & Hne0 & Herr & _ & Hsame).
  split.
  - exists k0, psi0, vec0. split_and!; [done..|].
    by rewrite (Hreg _ _ Hk0).
  - apply Hsame. intros k' psi' Hk'.
    by rewrite (Hreg _ _ Hk'), (Hreg _ _ Hk).
Qed.

End InnerProductClaims.

(** ** Sums that do not depend on grouping or order *)

(** An operation that is associative and commutative on the values that
    satisfy [P], with a left unit [e]. *)
Section Sums.
Context {X : Type} (op : X → X → X) (e : X) (P : X → Prop).
Hypothesis P_unit : P e.
Hypothesis P_op : ∀ a b, P a → P b → P (op a b).
Hypothesis op_assoc : ∀ a b c, P a → P b → P c → op (op a b) c = op a (op b c).
Hypothesis op_comm : ∀ a b, P a → P b → op a b = op b a.
Hypothesis op_unit_l : ∀ a, P a → op e a = a.

Lemma foldl_sum_P (l : list X) (b : X) : P b → Forall P l → P (foldl op b l).
Proof.
  revert b. induction l as [|x l IH]; intros b Hb Hl; [done|].
  apply Forall_cons in Hl as [Hx Hl]. cbn. apply IH; auto.
Qed.

Lemma foldl_sum_from (l : list X) (b : X) :
  P b → Forall P l → foldl op b l = op b (foldl op e l).
Proof.
  revert b. induction l as [|x l IH]; intros b Hb Hl.
  - cbn. by rewrite op_comm, op_unit_l.
  - apply Forall_cons in Hl as [Hx Hl]. cbn.
    rewrite (IH (op b x)), (IH (op e x)) by auto.
    rewrite op_unit_l by done.
    apply op_assoc; auto using foldl_sum_P.
Qed.

Lemma foldl_sum_app (l1 l2 : list X) :
  Forall P l1 → Forall P l2 →
  foldl op e (l1 ++ l2) = op (foldl op e l1) (foldl op e l2).
Proof.
  intros H1 H2. rewrite foldl_app. apply foldl_sum_from; auto using foldl_sum_P.
Qed.

Lemma foldl_sum_perm (l1 l2 : list X) (b : X) :
  l1 ≡ₚ l2 → P b → Forall P l1 → foldl op b l1 = foldl op b l2.
Proof.
  intros Hperm. revert b.
  induction Hperm as [|x l1 l2 Hperm IH|x y l|l1 l2 l3 H12 IH12 H23 IH23];
    intros b Hb Hl.
  - done.
  - apply Forall_cons in Hl as [Hx Hl]. cbn. apply IH; auto.
  - apply Forall_cons in Hl as [Hy Hl]. apply Forall_cons in Hl as [Hx Hl]. cbn.
    f_equal. rewrite !op_assoc by done. f_equal. by apply op_comm.
  - rewrite IH12 by done. apply IH23; [done|]. by rewrite <- H12.
Qed.

End Sums.

(** The operation [map_accumulate op e] on maps inherits these laws. *)
Section MapSums.
Context {K : Type} `{Countable K} {X : Type} (op : X → X → X) (e : X) (P : X → Prop).
Hypothesis P_unit : P e.
Hypothesis P_op : ∀ a b, P a → P b → P (op a b).
Hypothesis op_assoc : ∀ a b c, P a → P b → P c → op (op a b) c = op a (op b c).
Hypothesis op_comm : ∀ a b, P a → P b → op a b = op b a.
Hypothesis op_unit_l : ∀ a, P a → op e a = a.

Lemma all_values_default (m : gmap K X) (k : K) :
  all_values P m → P (default e (m !! k)).
Proof. intros Hm. destruct (m !! k) eqn:E; cbn; eauto. Qed.

Lemma all_values_empty : all_values P (∅ : gmap K X).
Proof. apply map_Forall_empty. Qed.

Lemma all_values_accumulate (a b : gmap K X) :
  all_values P a → all_values P b → all_values P (map_accumulate op e a b).
Proof.
  intros Ha Hb k x. rewrite lookup_map_accumulate.
  destruct (b !! k) eqn:Eb.
  - intros [= <-]. apply P_op; [by apply all_values_default|eauto].
  - eauto.
Qed.

Lemma map_accumulate_assoc (a b c : gmap K X) :
  all_values P a → all_values P b → all_values P c →
  map_accumulate op e (map_accumulate op e a b) c =
    map_accumulate op e a (map_accumulate op e b c).
Proof.
  intros Ha Hb Hc. apply map_eq. intros k.
  rewrite !lookup_map_accumulate.
  pose proof (all_values_default a k Ha) as Pa.
  destruct (c !! k) as [z|] eqn:Ec; [|done].
  assert (P z) by eauto.
  destruct (b !! k) as [y|] eqn:Eb; cbn.
  - assert (P y) by eauto. by rewrite op_assoc.
  - by rewrite op_unit_l.
Qed.

Lemma map_accumulate_comm (a b : gmap K X) :
  all_values P a → all_values P b →
  map_accumulate op e a b = map_accumulate op e b a.
Proof.
  intros Ha Hb. apply map_eq. intros k.
  rewrite !lookup_map_accumulate.
  destruct (a !! k) as [x|] eqn:Ea, (b !! k) as [y|] eqn:Eb; cbn; try done.
  - f_equal. apply op_comm; eauto.
  - f_equal. symmetry. apply op_unit_l; eauto.
  - f_equal. apply op_unit_l; eauto.
Qed.

Lemma map_accumulate_unit_l (a : gmap K X) :
  all_values P a → map_accumulate op e ∅ a = a.
Proof.
  intros Ha. apply map_eq. intros k.
  rewrite lookup_map_accumulate, lookup_empty. cbn.
  destruct (a !! k) eqn:E; [|done]. f_equal. apply op_unit_l; eauto.
Qed.

End MapSums.

(** *** The elementwise sums *)

Lemma vec_add_nil_r {A} (f : A → A → A) (l : list A) : vec_add f l [] = l.
Proof. by destruct l. Qed.

Lemma vec_add_assoc {A} (f : A → A → A) :
  (∀ a b c, f (f a b) c = f a (f b c)) →
  ∀ l1 l2 l3, vec_add f (vec_add f l1 l2) l3 = vec_add f l1 (vec_add f l2 l3).
Proof.
  intros Hf l1. induction l1 as [|a l1 IH]; intros l2 l3; [done|].
  destruct l2 as [|b l2]; [done|]. destruct l3 as [|c l3]; [done|].
  cbn. by rewrite Hf, IH.
Qed.

Lemma vec_add_comm {A} (f : A → A → A) :
  (∀ a b, f a b = f b a) → ∀ l1 l2, vec_add f l1 l2 = vec_add f l2 l1.
Proof.
  intros Hf l1. induction l1 as [|a l1 IH]; intros l2.
  - by rewrite vec_add_nil_r.
  - destruct l2 as [|b l2]; [done|]. cbn. by rewrite Hf, IH.
Qed.

Section ScalarLaws.
Context `{Scalar}.
Hypothesis radd_assoc : ∀ x y z : real, radd (radd x y) z = radd x (radd y z).
Hypothesis radd_comm : ∀ x y : real, radd x y = radd y x.

Lemma cadd_assoc (a b c : complex_t) : cadd (cadd a b) c = cadd a (cadd b c).
Proof. unfold cadd. cbn. by rewrite !radd_assoc. Qed.

Lemma cadd_comm (a b : complex_t) : cadd a b = cadd b a.
Proof. unfold cadd. by rewrite (radd_comm (re a)), (radd_comm (im a)). Qed.

Lemma vector_add_assoc (a b c : rvector_t) :
  vector_add (vector_add a b) c = vector_add a (vector_add b c).
Proof. by apply vec_add_assoc. Qed.

Lemma vector_add_comm (a b : rvector_t) : vector_add a b = vector_add b a.
Proof. by apply vec_add_comm. Qed.

Lemma matrix_add_assoc (a b c : cmatrix_t) :
  matrix_add (matrix_add a b) c = matrix_add a (matrix_add b c).
Proof. apply vec_add_assoc, vec_add_assoc, cadd_assoc. Qed.

Lemma matrix_add_comm (a b : cmatrix_t) : matrix_add a b = matrix_add b a.
Proof. apply vec_add_comm, vec_add_comm, cadd_comm. Qed.

End ScalarLaws.

(** *** Density matrices: no empty row *)

Section Density.
Context `{Scalar}.

Lemma proper_size_0 (m : cmatrix_t) : proper m → matrix_size m = 0 → m = [].
Proof.
  intros Hm. destruct m as [|row m]; [done|].
  apply Forall_cons in Hm as [Hrow _]. unfold matrix_size. cbn.
  destruct row; [done|]. cbn. lia.
Qed.

Lemma density_accumulate_proper (a b : cmatrix_t) :
  proper a → density_accumulate a b = matrix_add a b.
Proof.
  intros Ha. unfold density_accumulate. case_decide as Hs; [|done].
  by rewrite (proper_size_0 a Ha Hs).
Qed.

Lemma proper_nil : proper [].
Proof. constructor. Qed.

Lemma proper_matrix_add (a b : cmatrix_t) :
  proper a → proper b → proper (matrix_add a b).
Proof.
  unfold matrix_add. revert b. induction a as [|ra a IH]; intros b Ha Hb; [done|].
  destruct b as [|rb b]; [done|].
  apply Forall_cons in Ha as [Hra Ha]. apply Forall_cons in Hb as [Hrb Hb].
  cbn. constructor; [|by apply IH].
  destruct ra, rb; done.
Qed.

Lemma proper_density_accumulate (a b : cmatrix_t) :
  proper a → proper b → proper (density_accumulate a b).
Proof.
  intros Ha Hb. rewrite density_accumulate_proper by done.
  by apply proper_matrix_add.
Qed.

Lemma proper_outer_product (psi : cvector_t) : proper (outer_product psi psi).
Proof.
  unfold proper, outer_product. apply Forall_fmap, Forall_forall.
  intros a Ha. cbn. destruct psi; [by apply elem_of_nil in Ha|done].
Qed.

End Density.

(** *** What one shot and one merge add to the four sums *)

Lemma for_each_accumulate_fmap {A B C} (op : B → C → B) (dflt : B) (f : A → C)
    (m : gmap N A) (acc : gmap N B) :
  for_each m (λ k v st, <[k := op (at_key dflt st k) (f v)]> st) acc =
    map_accumulate op dflt acc (f <$> m).
Proof.
  apply map_eq. intros k. unfold at_key.
  rewrite (for_each_assign_lookup (λ _ v o, op (default dflt o) (f v))).
  rewrite lookup_map_accumulate, lookup_fmap. by destruct (m !! k).
Qed.

Section Contributions.
Context `{Collaborators}.

(** Throughout this section the base class records the snapshots of every
    shot that captured some. *)
Hypothesis Hrec : base_records_snapshots.

Lemma guard_fails_no_snapshots (this : VectorEngine) qasm be :
  snapshots_empty (base_compute_results (base this) qasm be) = true →
  access_snapshots be = ∅.
Proof.
  intros Hg. destruct (decide (access_snapshots be = ∅)) as [|Hne]; [done|].
  by rewrite (Hrec _ qasm _ Hne) in Hg.
Qed.

Lemma step_density (this : VectorEngine) qasm be :
  snapshots_density (compute_results this qasm be).1 =
    map_accumulate density_accumulate [] (snapshots_density this)
      (density_term this be).
Proof.
  rewrite compute_results_unfold. cbn zeta. unfold density_term.
  destruct (snapshots_empty _) eqn:Eg.
  - rewrite (guard_fails_no_snapshots _ _ _ Eg), fmap_empty. cbn.
    destruct (show_snapshots_density this); by rewrite map_accumulate_empty_r.
  - match goal with |- context [compute_kets ?r ?s ?e] =>
      pose proof (compute_kets_frame r s e) as (Hc1 & _ & Hd1 & _);
      pose proof (compute_probs_frame s (compute_density s (compute_kets r s e)))
        as (_ & _ & _ & Hd3 & _);
      pose proof (compute_inprods_frame (access_qreg be) s
                    (compute_probs s (compute_density s (compute_kets r s e))))
        as (_ & _ & _ & Hd4 & _)
    end.
    cbn zeta in Hd4. rewrite Hd4, Hd3. unfold compute_density.
    destruct Hc1 as (_ & _ & _ & _ & -> & _). cbn.
    destruct (show_snapshots_density this); cbn.
    + rewrite Hd1. cbn. apply for_each_accumulate_fmap.
    + rewrite Hd1. cbn. by rewrite map_accumulate_empty_r.
Qed.

Lemma step_probs (this : VectorEngine) qasm be :
  snapshots_probs (compute_results this qasm be).1 =
    map_accumulate vector_add [] (snapshots_probs this) (probs_term this be).
Proof.
  rewrite compute_results_unfold. cbn zeta. unfold probs_term.
  destruct (snapshots_empty _) eqn:Eg.
  - rewrite (guard_fails_no_snapshots _ _ _ Eg), fmap_empty. cbn.
    destruct (show_snapshots_probs this); by rewrite map_accumulate_empty_r.
  - match goal with |- context [compute_kets ?r ?s ?e] =>
      pose proof (compute_kets_frame r s e) as (Hc1 & _ & _ & Hp1 & _);
      pose proof (compute_density_frame s (compute_kets r s e))
        as (Hc2 & _ & _ & Hp2 & _);
      pose proof (compute_inprods_frame (access_qreg be) s
                    (compute_probs s (compute_density s (compute_kets r s e))))
        as (_ & _ & _ & _ & Hp4 & _)
    end.
    cbn zeta in Hp4. rewrite Hp4. unfold compute_probs.
    destruct Hc2 as (_ & _ & _ & _ & _ & -> & _).
    destruct Hc1 as (_ & _ & _ & _ & _ & -> & _). cbn.
    destruct (show_snapshots_probs this); cbn.
    + rewrite Hp2, Hp1. cbn.
      rewrite <- (for_each_accumulate_fmap vector_add [] get_probs_vec).
      apply for_each_ext. intros k psi st. cbn zeta.
      case_decide as Hnil; [|done]. by rewrite Hnil.
    + rewrite Hp2, Hp1. cbn. by rewrite map_accumulate_empty_r.
Qed.

Lemma step_probs_ket (this : VectorEngine) qasm be :
  snapshots_probs_ket (compute_results this qasm be).1 =
    map_accumulate rket_add ∅ (snapshots_probs_ket this)
      (probs_ket_term this qasm be).
Proof.
  rewrite compute_results_unfold. cbn zeta. unfold probs_ket_term.
  fold (ket_regs this qasm).
  destruct (snapshots_empty _) eqn:Eg.
  - rewrite (guard_fails_no_snapshots _ _ _ Eg), fmap_empty. cbn.
    destruct (show_snapshots_probs_ket this); by rewrite map_accumulate_empty_r.
  - match goal with |- context [compute_kets ?r ?s ?e] =>
      pose proof (compute_density_frame s (compute_kets r s e))
        as (_ & _ & _ & _ & Hpk2 & _);
      pose proof (compute_probs_frame s (compute_density s (compute_kets r s e)))
        as (_ & _ & _ & _ & Hpk3 & _);
      pose proof (compute_inprods_frame (access_qreg be) s
                    (compute_probs s (compute_density s (compute_kets r s e))))
        as (_ & _ & _ & _ & _ & Hpk4 & _)
    end.
    cbn zeta in Hpk4. rewrite Hpk4, Hpk3, Hpk2. unfold compute_kets. cbn.
    destruct (show_snapshots_ket this) eqn:Ek,
      (show_snapshots_probs_ket this) eqn:Epk; cbn; rewrite ?Epk; cbn;
      rewrite ?map_accumulate_empty_r; try done.
    all: rewrite (for_each_build_fmap
                    (λ psi, vec2ket psi (qudit_dim this) (epsilon this)
                              (ket_regs this qasm))).
    all: rewrite (for_each_accumulate_fmap rket_add ∅ get_probs_ket).
    all: by rewrite <- map_fmap_compose.
Qed.

Lemma overlaps_after_accumulate eps targets (snaps : gmap N QubitVector)
    (acc : gmap N rvector_t) :
  overlaps_after eps targets (items snaps) acc =
    map_accumulate vector_add [] acc
      ((λ psi, get_probs <$> chopped_inprods eps psi targets) <$> snaps).
Proof.
  apply map_eq. intros k.
  rewrite overlaps_after_items, lookup_map_accumulate, lookup_fmap.
  by destruct (snaps !! k).
Qed.

Lemma step_overlaps (this : VectorEngine) qasm be :
  (compute_results this qasm be).2 = None →
  snapshots_overlaps (compute_results this qasm be).1 =
    map_accumulate vector_add [] (snapshots_overlaps this) (overlaps_term this be).
Proof.
  unfold overlaps_term.
  destruct (snapshots_empty (base_compute_results (base this) qasm be)) eqn:Eg.
  - intros _. rewrite compute_results_unfold. cbn zeta. rewrite Eg.
    rewrite (guard_fails_no_snapshots _ _ _ Eg), fmap_empty. cbn.
    destruct (_ && _); by rewrite map_accumulate_empty_r.
  - destruct (compute_results_guarded this qasm be Eg)
      as (e3 & (He & _ & Hts & _ & _ & _ & _ & Hfi & Hfo) & Hi & Ho & ->).
    unfold compute_inprods. rewrite Hts, Hfi, Hfo.
    destruct (bool_decide (target_states this ≠ [])) eqn:Et; cbn [andb].
    2:{ intros _. cbn. by rewrite Ho, map_accumulate_empty_r. }
    destruct (show_snapshots_inner_product this || show_snapshots_overlaps this)
      eqn:Ef.
    2:{ intros _. apply orb_false_iff in Ef as [_ ->]. cbn.
        by rewrite Ho, map_accumulate_empty_r. }
    destruct (decide (Forall (λ kv : N * QubitVector,
                                sizes_match (target_states e3) kv.2)
                        (items (access_snapshots be)))) as [Hok|Hbad].
    + intros _.
      destruct (inprods_loop_ok (length (access_qreg be)) _ e3 Hok)
        as (_ & _ & ->).
      rewrite Hfo, He, Hts, Ho.
      destruct (show_snapshots_overlaps this).
      * apply overlaps_after_accumulate.
      * by rewrite map_accumulate_empty_r.
    + destruct (inprods_loop_fail (length (access_qreg be)) _ e3 Hbad)
        as (? & ? & ? & ? & ? & _ & _ & _ & _ & ->).
      intros [=].
Qed.

Lemma same_config_sym (a b : VectorEngine) : same_config a b → same_config b a.
Proof. unfold same_config. intros (?&?&?&?&?&?&?&?&?). by split_and!. Qed.

Lemma compute_results_config (this : VectorEngine) qasm be :
  same_config (compute_results this qasm be).1 this.
Proof.
  rewrite compute_results_unfold. cbn zeta.
  destruct (snapshots_empty _); [by repeat split|].
  match goal with |- context [compute_kets ?r ?s ?e] =>
    pose proof (compute_kets_frame r s e) as (Hc1 & _);
    pose proof (compute_density_frame s (compute_kets r s e)) as (Hc2 & _);
    pose proof (compute_probs_frame s (compute_density s (compute_kets r s e)))
      as (Hc3 & _);
    pose proof (compute_inprods_frame (access_qreg be) s
                  (compute_probs s (compute_density s (compute_kets r s e))))
      as (Hc4 & _)
  end.
  cbn zeta in Hc4.
  eapply same_config_trans; [exact Hc4|].
  eapply same_config_trans; [exact Hc3|].
  eapply same_config_trans; [exact Hc2|].
  eapply same_config_trans; [exact Hc1|]. by repeat split.
Qed.

Lemma inprods_loop_error_indep n l (e1 e2 : VectorEngine) :
  same_config e1 e2 → (inprods_loop n l e1).2 = (inprods_loop n l e2).2.
Proof.
  revert e1 e2. induction l as [|[k psi] l IH]; intros e1 e2 Hc; [done|].
  rewrite !inprods_loop_cons.
  pose proof Hc as (He & Hq & Ht & Hrest). rewrite He, Ht.
  destruct (target_loop _ _ _ _ _) as [err|ip]; [done|].
  apply IH.
  eapply same_config_trans; [apply commit_inprods_config|].
  eapply same_config_trans; [|apply same_config_sym, commit_inprods_config].
  exact Hc.
Qed.

Lemma compute_results_error_indep (e1 e2 : VectorEngine) qasm be :
  same_config e1 e2 →
  (compute_results e1 qasm be).2 = (compute_results e2 qasm be).2.
Proof.
  intros Hc.
  assert (∀ e : VectorEngine, access_snapshots be = ∅ →
                              (compute_results e qasm be).2 = None) as Hnone.
  { intros e Hs. rewrite compute_results_unfold. cbn zeta.
    destruct (snapshots_empty _); [done|].
    unfold compute_inprods. rewrite Hs, items_empty.
    by destruct (_ && _). }
  destruct (decide (access_snapshots be = ∅)) as [Hs|Hs].
  { by rewrite !Hnone. }
  destruct (compute_results_guarded e1 qasm be (Hrec _ _ _ Hs))
    as (a & Ha & _ & _ & ->).
  destruct (compute_results_guarded e2 qasm be (Hrec _ _ _ Hs))
    as (b & Hb & _ & _ & ->).
  assert (same_config a b) as Hab.
  { eapply same_config_trans; [exact Ha|].
    eapply same_config_trans; [exact Hc|]. by apply same_config_sym. }
  unfold compute_inprods.
  pose proof Hab as (? & ? & Ht & ? & ? & ? & ? & Hi & Ho).
  rewrite Ht, Hi, Ho. destruct (_ && _); [|done].
  by apply inprods_loop_error_indep.
Qed.

Lemma run_cons (e : VectorEngine) qasm be rest :
  run e qasm (be :: rest) =
    match (compute_results e qasm be).2 with
    | None => run (compute_results e qasm be).1 qasm rest
    | Some err => ((compute_results e qasm be).1, Some err)
    end.
Proof. cbn. by destruct (compute_results e qasm be) as [e1 [err|]]. Qed.

(** Whether a run throws depends on the configuration and on the shots, not
    on what has been accumulated. *)
Lemma run_ok_iff (e e0 : VectorEngine) qasm shots :
  same_config e e0 →
  (run e qasm shots).2 = None ↔
  Forall (λ be, (compute_results e0 qasm be).2 = None) shots.
Proof.
  revert e. induction shots as [|be rest IH]; intros e Hc.
  - split; [constructor|done].
  - rewrite run_cons, Forall_cons.
    rewrite <- (compute_results_error_indep e e0 qasm be Hc).
    destruct (compute_results e qasm be).2 as [err|] eqn:E.
    + split; [done|]. by intros [? _].
    + rewrite IH; [tauto|].
      eapply same_config_trans; [apply compute_results_config|done].
Qed.

(** One accumulated sum, seen through its accessor [field]: every shot adds
    its term, every merge adds the two sums. *)
Section FieldFold.
Context {X : Type} (op : X → X → X) (dflt : X) (P : X → Prop).
Hypothesis P_unit : P dflt.
Hypothesis P_op : ∀ a b, P a → P b → P (op a b).
Hypothesis op_assoc : ∀ a b c, P a → P b → P c → op (op a b) c = op a (op b c).
Hypothesis op_comm : ∀ a b, P a → P b → op a b = op b a.
Hypothesis op_unit_l : ∀ a, P a → op dflt a = a.
Variable field : VectorEngine → gmap N X.
Variable term : VectorEngine → Backend → gmap N X.
Variable qasm : Circuit.
Hypothesis term_config : ∀ e1 e2 be, same_config e1 e2 → term e1 be = term e2 be.
Hypothesis term_P : ∀ e be, all_values P (term e be).
Hypothesis field_step : ∀ e be,
  (compute_results e qasm be).2 = None →
  field (compute_results e qasm be).1 = map_accumulate op dflt (field e) (term e be).
Hypothesis field_add : ∀ a b,
  field (add a b) = map_accumulate op dflt (field a) (field b).

Lemma run_field (e e0 : VectorEngine) shots :
  same_config e e0 →
  (run e qasm shots).2 = None →
  field (run e qasm shots).1 =
    foldl (map_accumulate op dflt) (field e) (term e0 <$> shots).
Proof.
  revert e. induction shots as [|be rest IH]; intros e Hc; [done|].
  rewrite run_cons. destruct (compute_results e qasm be).2 eqn:E; [done|].
  intros Hrun. cbn [fmap list_fmap foldl].
  rewrite IH; [|eapply same_config_trans; [apply compute_results_config|done]|done].
  by rewrite field_step, (term_config e e0).
Qed.

Lemma terms_P (e0 : VectorEngine) (shots : list Backend) :
  Forall (all_values P) (term e0 <$> shots).
Proof. apply Forall_fmap, Forall_forall. intros be _. apply term_P. Qed.

Lemma merge_groups_field (e0 : VectorEngine) (t : merge_tree (list Backend)) :
  field e0 = ∅ →
  Forall (λ be, (compute_results e0 qasm be).2 = None) (concat (leaves t)) →
  field (merge_groups e0 qasm t) =
    foldl (map_accumulate op dflt) ∅ (term e0 <$> concat (leaves t)).
Proof.
  intros Hempty. induction t as [g|l IHl r IHr]; cbn [merge_groups leaves].
  - cbn. rewrite app_nil_r. intros Hok.
    rewrite (run_field e0 e0), Hempty; [done|apply same_config_refl|].
    by apply (run_ok_iff e0 e0); [apply same_config_refl|].
  - rewrite concat_app, Forall_app. intros [Hl Hr].
    rewrite field_add, IHl, IHr by done.
    rewrite fmap_app.
    rewrite (foldl_sum_app (map_accumulate op dflt) ∅ (all_values P));
      auto using terms_P.
    + apply all_values_empty.
    + by apply all_values_accumulate.
    + by apply map_accumulate_assoc.
    + by apply map_accumulate_comm.
    + by apply map_accumulate_unit_l.
Qed.

Lemma field_partition_invariant (e0 : VectorEngine)
    (t : merge_tree (list Backend)) (shots : list Backend) :
  field e0 = ∅ →
  shots ≡ₚ concat (leaves t) →
  (run e0 qasm shots).2 = None →
  field (merge_groups e0 qasm t) = field (run e0 qasm shots).1.
Proof.
  intros Hempty Hperm Hrun.
  pose proof Hrun as Hok.
  apply (run_ok_iff e0 e0) in Hok; [|apply same_config_refl].
  rewrite merge_groups_field by (by rewrite <- ?Hperm).
  rewrite (run_field e0 e0), Hempty by (done || apply same_config_refl).
  symmetry.
  apply (foldl_sum_perm (map_accumulate op dflt) (all_values P)).
  - by apply all_values_accumulate.
  - by apply map_accumulate_assoc.
  - by apply map_accumulate_comm.
  - by rewrite Hperm.
  - apply all_values_empty.
  - apply terms_P.
Qed.

End FieldFold.

End Contributions.

(** *** The four sums *)

Section PartitionInvariance.
Context `{Collaborators}.

Lemma term_config_density (e1 e2 : VectorEngine) be :
  same_config e1 e2 → density_term e1 be = density_term e2 be.
Proof. intros (_&_&_&_&Hd&_). unfold density_term. by rewrite Hd. Qed.

Lemma term_config_probs (e1 e2 : VectorEngine) be :
  same_config e1 e2 → probs_term e1 be = probs_term e2 be.
Proof. intros (_&_&_&_&_&Hp&_). unfold probs_term. by rewrite Hp. Qed.

Lemma term_config_probs_ket qasm (e1 e2 : VectorEngine) be :
  same_config e1 e2 → probs_ket_term e1 qasm be = probs_ket_term e2 qasm be.
Proof.
  intros (He&Hq&_&Hk&_&_&Hpk&_). unfold probs_ket_term, ket_regs.
  by rewrite He, Hq, Hk, Hpk.
Qed.

Lemma term_config_overlaps (e1 e2 : VectorEngine) be :
  same_config e1 e2 → overlaps_term e1 be = overlaps_term e2 be.
Proof.
  intros (He&_&Ht&_&_&_&_&_&Ho). unfold overlaps_term. by rewrite He, Ht, Ho.
Qed.

Lemma density_term_proper (e : VectorEngine) be :
  all_values proper (density_term e be).
Proof.
  unfold density_term. destruct (show_snapshots_density e).
  - intros k m. rewrite lookup_fmap.
    destruct (access_snapshots be !! k); intros [= <-].
    apply proper_outer_product.
  - apply map_Forall_empty.
Qed.

Lemma all_values_True {K} `{Countable K} {X} (m : gmap K X) :
  all_values (λ _, True) m.
Proof. by intros k x _. Qed.

End PartitionInvariance.

(** C1 (merge partition-invariance).  Take any sequence of shots that is
    processed without an exception by one accumulator starting empty, and any
    way of splitting the shots into groups and of merging the per-group
    accumulators pairwise (any grouping, the groups taken in any order):
    the merged accumulator holds the same density sums, probability sums,
    probability-ket sums and overlap sums as the single accumulator.
    The scalar addition is taken associative and commutative with zero as a
    left unit (exact arithmetic; on [double] the sums agree up to rounding),
    and the base class is taken to record the snapshots of every shot that
    captured some, so that the guard of [compute_results] passes for such a
    shot. *)
Theorem merge_partition_invariance `{Collaborators} (e0 : VectorEngine)
    (qasm : Circuit) (t : merge_tree (list Backend)) (shots : list Backend) :
  (∀ x y z : real, radd (radd x y) z = radd x (radd y z)) →
  (∀ x y : real, radd x y = radd y x) →
  (∀ x : real, radd r0 x = x) →
  base_records_snapshots →
  accumulator_empty e0 →
  shots ≡ₚ concat (leaves t) →
  (run e0 qasm shots).2 = None →
  let merged := merge_groups e0 qasm t in
  let direct := (run e0 qasm shots).1 in
  snapshots_density merged = snapshots_density direct ∧
  snapshots_probs merged = snapshots_probs direct ∧
  snapshots_probs_ket merged = snapshots_probs_ket direct ∧
  snapshots_overlaps merged = snapshots_overlaps direct.
Proof.
  intros Hassoc Hcomm Hunit Hrec Hempty Hperm Hrun. cbn zeta.
  unfold accumulator_empty, snapshot_data in Hempty.
  injection Hempty as _ Hd Hp Hpk _ Ho.
  split_and!.
  - apply (field_partition_invariant Hrec density_accumulate [] proper)
      with (term := density_term); try done.
    + apply proper_nil.
    + apply proper_density_accumulate.
    + intros a b c Pa Pb Pc.
      rewrite !density_accumulate_proper
        by auto using proper_density_accumulate.
      by apply matrix_add_assoc.
    + intros a b Pa Pb. rewrite !density_accumulate_proper by done.
      by apply matrix_add_comm.
    + intros. by apply term_config_density.
    + apply density_term_proper.
    + intros. apply (step_density Hrec).
    + apply add_snapshots_density.
  - apply (field_partition_invariant Hrec vector_add [] (λ _, True))
      with (term := probs_term); try done;
      first [ by (intros; apply vector_add_assoc)
            | by (intros; apply vector_add_comm)
            | by (intros; apply term_config_probs)
            | by (intros; apply all_values_True)
            | by (intros; apply (step_probs Hrec))
            | apply add_snapshots_probs ].
  - apply (field_partition_invariant Hrec rket_add ∅ (all_values (λ _, True)))
      with (term := λ e be, probs_ket_term e qasm be); try done;
      first [ by (intros; apply all_values_True)
            | by (intros; apply (map_accumulate_assoc radd r0 (λ _, True)); auto)
            | by (intros; apply (map_accumulate_comm radd r0 (λ _, True)); auto)
            | by (intros; apply (map_accumulate_unit_l radd r0 (λ _, True)); auto)
            | by (intros; apply term_config_probs_ket)
            | by (intros e be k m _; apply all_values_True)
            | by (intros; apply (step_probs_ket Hrec))
            | apply add_snapshots_probs_ket ].
  - apply (field_partition_invariant Hrec vector_add [] (λ _, True))
      with (term := overlaps_term); try done;
      first [ by (intros; apply vector_add_assoc)
            | by (intros; apply vector_add_comm)
            | by (intros; apply term_config_overlaps)
            | by (intros; apply all_values_True)
            | by (intros; apply (step_overlaps Hrec))
            | apply add_snapshots_overlaps ].
Qed.

(** ** Further properties of the engine *)

Section ComputeOutcome.
Context `{Collaborators}.

Lemma items_sizes_match (targets : list QubitVector) (snaps : gmap N QubitVector) :
  Forall (λ kv : N * QubitVector, sizes_match targets kv.2) (items snaps) ↔
  ∀ k psi, snaps !! k = Some psi → sizes_match targets psi.
Proof.
  rewrite Forall_forall. split.
  - intros Hall k psi Hk. apply (Hall (k, psi)). by apply elem_of_items.
  - intros Hall [k psi] Hin. apply (Hall k). by apply elem_of_items.
Qed.

Lemma items_sizes_match_dec (targets : list QubitVector)
    (l : list (N * QubitVector)) :
  Decision (Forall (λ kv : N * QubitVector, sizes_match targets kv.2) l).
Proof. unfold sizes_match. apply _. Qed.

(** X1 (when a compute call throws).  [compute_results] ends without an
    exception exactly when the guard fails, or the target list is empty, or
    neither the inner-product nor the overlap selector is on, or every target
    state has the length of every captured snapshot. *)
Theorem compute_results_succeeds_iff (this : VectorEngine) (qasm : Circuit)
    (be : Backend) :
  (compute_results this qasm be).2 = None ↔
    snapshots_empty (base_compute_results (base this) qasm be) = true ∨
    target_states this = [] ∨
    (show_snapshots_inner_product this = false ∧
     show_snapshots_overlaps this = false) ∨
    (∀ k psi, access_snapshots be !! k = Some psi →
              sizes_match (target_states this) psi).
Proof.
  destruct (snapshots_empty (base_compute_results (base this) qasm be)) eqn:Eg.
  { rewrite compute_results_unfold. cbn zeta. rewrite Eg. cbn. split; auto. }
  destruct (compute_results_guarded this qasm be Eg)
    as (e3 & (He & _ & Hts & _ & _ & _ & _ & Hfi & Hfo) & _ & _ & ->).
  unfold compute_inprods. rewrite Hts, Hfi, Hfo.
  destruct (decide (target_states this = [])) as [Ht|Ht].
  { rewrite bool_decide_eq_false_2 by (by intros []). cbn. split; auto. }
  rewrite bool_decide_eq_true_2 by done. cbn [andb].
  destruct (show_snapshots_inner_product this || show_snapshots_overlaps this)
    eqn:Ef.
  2:{ apply orb_false_iff in Ef. cbn. split; auto. }
  assert (¬ (show_snapshots_inner_product this = false ∧
             show_snapshots_overlaps this = false)) as Hon.
  { intros [E1 E2]. by rewrite E1, E2 in Ef. }
  rewrite <- items_sizes_match, <- Hts.
  destruct (items_sizes_match_dec (target_states e3)
              (items (access_snapshots be))) as [Hok|Hbad].
  - destruct (inprods_loop_ok (length (access_qreg be)) _ e3 Hok) as (-> & _).
    split; auto.
  - destruct (inprods_loop_fail (length (access_qreg be)) _ e3 Hbad)
      as (? & ? & ? & ? & ? & _ & _ & _ & _ & ->).
    cbn. split; [done|]. rewrite <- Hts in Ht. intros [?|[?|[?|?]]]; done.
Qed.

End ComputeOutcome.

Section ComputeBlocks.
Context `{Collaborators}.

Lemma compute_kets_set_base regs snaps b (e : VectorEngine) :
  compute_kets regs snaps (set_base b e) = set_base b (compute_kets regs snaps e).
Proof.
  unfold compute_kets.
  change (show_snapshots_ket (set_base b e)) with (show_snapshots_ket e).
  change (show_snapshots_probs_ket (set_base b e)) with (show_snapshots_probs_ket e).
  destruct (show_snapshots_ket e) eqn:Ek, (show_snapshots_probs_ket e) eqn:Epk;
    cbn; rewrite ?Epk; done.
Qed.

(** What the density and the probability block write depends on the
    selector and on the member only. *)
Lemma compute_density_same snaps (e e' : VectorEngine) :
  show_snapshots_density e = show_snapshots_density e' →
  snapshots_density e = snapshots_density e' →
  snapshots_density (compute_density snaps e) =
    snapshots_density (compute_density snaps e').
Proof.
  intros Hf Hd. unfold compute_density. rewrite Hf.
  destruct (show_snapshots_density e'); cbn; by rewrite Hd.
Qed.

Lemma compute_probs_same snaps (e e' : VectorEngine) :
  show_snapshots_probs e = show_snapshots_probs e' →
  snapshots_probs e = snapshots_probs e' →
  snapshots_probs (compute_probs snaps e) = snapshots_probs (compute_probs snaps e').
Proof.
  intros Hf Hd. unfold compute_probs. rewrite Hf.
  destruct (show_snapshots_probs e'); cbn; by rewrite Hd.
Qed.

(** Past the guard, the members written by the ket, density and probability
    blocks are those of the blocks applied to the engine the call started
    with; the inner-product block and a throw in it leave them alone. *)
Lemma compute_results_blocks (this : VectorEngine) qasm be :
  snapshots_empty (base_compute_results (base this) qasm be) = false →
  let this' := (compute_results this qasm be).1 in
  let snaps := access_snapshots be in
  snapshots_ket this' = snapshots_ket (compute_kets (ket_regs this qasm) snaps this) ∧
  snapshots_probs_ket this' =
    snapshots_probs_ket (compute_kets (ket_regs this qasm) snaps this) ∧
  snapshots_density this' = snapshots_density (compute_density snaps this) ∧
  snapshots_probs this' = snapshots_probs (compute_probs snaps this).
Proof.
  intros Hg. cbn zeta. rewrite compute_results_unfold. cbn zeta. rewrite Hg.
  fold (ket_regs this qasm).
  set (this1 := set_base (base_compute_results (base this) qasm be) this).
  set (e1 := compute_kets (ket_regs this qasm) (access_snapshots be) this1).
  assert (e1 = set_base (base_compute_results (base this) qasm be)
                 (compute_kets (ket_regs this qasm) (access_snapshots be) this))
    as He1 by apply compute_kets_set_base.
  pose proof (compute_kets_frame (ket_regs this qasm) (access_snapshots be) this1)
    as (Hc1 & _ & Hd1 & Hp1 & _).
  fold e1 in Hc1, Hd1, Hp1.
  pose proof (compute_density_frame (access_snapshots be) e1)
    as (Hc2 & _ & Hk2 & Hp2 & Hpk2 & _).
  pose proof (compute_probs_frame (access_snapshots be)
                (compute_density (access_snapshots be) e1))
    as (_ & _ & Hk3 & Hd3 & Hpk3 & _).
  pose proof (compute_inprods_frame (access_qreg be) (access_snapshots be)
                (compute_probs (access_snapshots be)
                   (compute_density (access_snapshots be) e1)))
    as (_ & _ & Hk4 & Hd4 & Hp4 & Hpk4 & _).
  cbn zeta in Hk4, Hd4, Hp4, Hpk4.
  rewrite Hk4, Hk3, Hk2, Hpk4, Hpk3, Hpk2, Hd4, Hd3, Hp4.
  destruct Hc1 as (_ & _ & _ & _ & Hfd1 & Hfp1 & _).
  destruct Hc2 as (_ & _ & _ & _ & _ & Hfp2 & _).
  split_and!.
  - by rewrite He1.
  - by rewrite He1.
  - apply compute_density_same; [by rewrite Hfd1|by rewrite Hd1].
  - apply compute_probs_same; [by rewrite Hfp2, Hfp1| by rewrite Hp2, Hp1].
Qed.

(** X2 (density and probability accumulation).  In a compute call that passes
    the guard, whether or not it later throws: with the density selector on,
    under every captured label the outer product of the snapshot with itself
    is assigned to an entry of size 0 and added to any other entry; with the
    probability selector on, the squared moduli of the amplitudes are
    assigned to an empty entry and added to any other; entries of labels the
    shot did not capture are as before. *)
Theorem density_and_probability_accumulation (this : VectorEngine)
    (qasm : Circuit) (be : Backend) :
  snapshots_empty (base_compute_results (base this) qasm be) = false →
  let this' := (compute_results this qasm be).1 in
  (show_snapshots_density this = true →
   ∀ k, snapshots_density this' !! k =
     match access_snapshots be !! k with
     | Some psi =>
         let rho := at_key [] (snapshots_density this) k in
         Some (if decide (matrix_size rho = 0) then outer_product psi psi
               else matrix_add rho (outer_product psi psi))
     | None => snapshots_density this !! k
     end) ∧
  (show_snapshots_probs this = true →
   ∀ k, snapshots_probs this' !! k =
     match access_snapshots be !! k with
     | Some psi =>
         let pr := at_key [] (snapshots_probs this) k in
         Some (if decide (pr = []) then get_probs <$> psi
               else vector_add pr (get_probs <$> psi))
     | None => snapshots_probs this !! k
     end).
Proof.
  intros Hg. cbn zeta.
  destruct (compute_results_blocks this qasm be Hg) as (_ & _ & -> & ->).
  split; intros Hon k.
  - unfold compute_density. rewrite Hon. cbn. unfold at_key.
    rewrite (for_each_assign_lookup
               (λ _ psi o, density_accumulate (default [] o) (outer_product psi psi))).
    by destruct (access_snapshots be !! k).
  - unfold compute_probs. rewrite Hon. cbn [snapshots_probs set_snapshots_probs].
    refine (eq_trans
              (for_each_assign_lookup
                 (λ _ psi o, if decide (default [] o = []) then get_probs_vec psi
                             else vector_add (default [] o) (get_probs_vec psi))
                 _ _ k) _).
    unfold at_key.
    destruct (access_snapshots be !! k); [|done].
    by rewrite !get_probs_vec_fmap.
Qed.

(** X3 (ket form).  In a compute call that passes the guard: with the ket
    selector on, the ket list gains exactly one entry, which holds under each
    captured label the ket of its snapshot and nothing under any other label;
    with the probability-ket selector on, what is added under a captured
    label is [get_probs] of that same ket, value by value; entries of labels
    the shot did not capture are as before. *)
Theorem ket_form_accumulation (this : VectorEngine) (qasm : Circuit)
    (be : Backend) :
  snapshots_empty (base_compute_results (base this) qasm be) = false →
  let this' := (compute_results this qasm be).1 in
  let ket_of psi := vec2ket psi (qudit_dim this) (epsilon this) (ket_regs this qasm) in
  (show_snapshots_ket this = true →
   ∃ km : gmap N cket_t,
     snapshots_ket this' = snapshots_ket this ++ [km] ∧
     ∀ k, km !! k = ket_of <$> access_snapshots be !! k) ∧
  (show_snapshots_probs_ket this = true →
   ∀ k, snapshots_probs_ket this' !! k =
     match access_snapshots be !! k with
     | Some psi =>
         Some (rket_add (at_key ∅ (snapshots_probs_ket this) k)
                 (get_probs <$> ket_of psi))
     | None => snapshots_probs_ket this !! k
     end).
Proof.
  intros Hg. cbn zeta.
  destruct (compute_results_blocks this qasm be Hg) as (-> & -> & _ & _).
  unfold compute_kets.
  rewrite (for_each_build_fmap
             (λ psi, vec2ket psi (qudit_dim this) (epsilon this) (ket_regs this qasm))).
  split; intros Hon.
  - rewrite Hon. cbn.
    eexists. split.
    + by destruct (show_snapshots_probs_ket this).
    + intros k. by rewrite lookup_fmap.
  - intros k. rewrite Hon, orb_true_r.
    assert (∀ e : VectorEngine,
      show_snapshots_probs_ket e = true →
      snapshots_probs_ket e = snapshots_probs_ket this →
      snapshots_probs_ket
        (if show_snapshots_probs_ket e
         then set_snapshots_probs_ket
                (for_each
                   ((λ psi, vec2ket psi (qudit_dim this) (epsilon this)
                              (ket_regs this qasm)) <$> access_snapshots be)
                   (λ k s acc, <[k := rket_add (at_key ∅ acc k) (get_probs_ket s)]> acc)
                   (snapshots_probs_ket e)) e
         else e) !! k =
      match access_snapshots be !! k with
      | Some psi =>
          Some (rket_add (at_key ∅ (snapshots_probs_ket this) k)
                  (get_probs <$> vec2ket psi (qudit_dim this) (epsilon this)
                                   (ket_regs this qasm)))
      | None => snapshots_probs_ket this !! k
      end) as Hgen.
    { intros e -> ->. cbn. unfold at_key.
      rewrite (for_each_assign_lookup
                 (λ _ s o, rket_add (default ∅ o) (get_probs_ket s))).
      rewrite lookup_fmap. by destruct (access_snapshots be !! k). }
    destruct (show_snapshots_ket this); apply Hgen; done.
Qed.

End ComputeBlocks.

(** *** Sparsity *)

Section Sparsity.
Context `{Collaborators}.

(** Past the guard, with the ket selector on, a shot that captured no
    snapshot appends the empty map to the ket list. *)
Lemma ket_list_empty_shot (this : VectorEngine) qasm be :
  snapshots_empty (base_compute_results (base this) qasm be) = false →
  show_snapshots_ket this = true →
  access_snapshots be = ∅ →
  snapshots_ket (compute_results this qasm be).1 = snapshots_ket this ++ [∅].
Proof.
  intros Hg Hon Hs.
  destruct (compute_results_blocks this qasm be Hg) as (-> & _).
  unfold compute_kets. rewrite Hon, Hs, for_each_empty. cbn.
  by destruct (show_snapshots_probs_ket this).
Qed.

(** C8 (sparsity of accumulation), as amended.  A compute call creates no
    label entry in a category, and leaves its accumulated structure exactly
    as it was, when the category's selector is off, or when no snapshots are
    on record once the base class has processed the shot (the guard of the
    call), or, for the inner-product and overlap categories, when the
    target-state list is empty.  When the shot captured no snapshot, the five
    per-label maps are unchanged and no label gains a ket snapshot; the ket
    list itself, past the guard and with its selector on, gains one map that
    has no entry. *)
Theorem sparsity (this : VectorEngine) (qasm : Circuit) (be : Backend) :
  let this' := (compute_results this qasm be).1 in
  (show_snapshots_ket this = false ∨ no_snapshots this qasm be →
   snapshots_ket this' = snapshots_ket this) ∧
  (access_snapshots be = ∅ → ∀ k, kets_of k this' = kets_of k this) ∧
  (access_snapshots be = ∅ → show_snapshots_ket this = true →
   ¬ no_snapshots this qasm be →
   snapshots_ket this' = snapshots_ket this ++ [∅]) ∧
  (show_snapshots_density this = false ∨ no_snapshots this qasm be ∨
   access_snapshots be = ∅ →
   snapshots_density this' = snapshots_density this) ∧
  (show_snapshots_probs this = false ∨ no_snapshots this qasm be ∨
   access_snapshots be = ∅ →
   snapshots_probs this' = snapshots_probs this) ∧
  (show_snapshots_probs_ket this = false ∨ no_snapshots this qasm be ∨
   access_snapshots be = ∅ →
   snapshots_probs_ket this' = snapshots_probs_ket this) ∧
  (show_snapshots_inner_product this = false ∨ no_snapshots this qasm be ∨
   access_snapshots be = ∅ ∨ target_states this = [] →
   snapshots_inprods this' = snapshots_inprods this) ∧
  (show_snapshots_overlaps this = false ∨ no_snapshots this qasm be ∨
   access_snapshots be = ∅ ∨ target_states this = [] →
   snapshots_overlaps this' = snapshots_overlaps this).
Proof.
  cbn zeta.
  destruct (unchanged_categories this qasm be) as (Hk & Hd & Hp & Hpk & Hi & Ho).
  cbn zeta in *.
  assert (access_snapshots be = ∅ → show_snapshots_ket this = true →
          ¬ no_snapshots this qasm be →
          snapshots_ket (compute_results this qasm be).1 =
            snapshots_ket this ++ [∅]) as Hpush.
  { unfold no_snapshots. intros Hs Hon Hg. apply ket_list_empty_shot; [|done..].
    by destruct (snapshots_empty _). }
  split_and!; try done.
  intros Hs k.
  unfold kets_of.
  destruct (show_snapshots_ket this) eqn:Hon; [|by rewrite Hk by auto].
  assert (no_snapshots this qasm be ∨ ¬ no_snapshots this qasm be) as [Hg|Hg].
  { unfold no_snapshots. destruct (snapshots_empty _); auto. }
  { by rewrite Hk by auto. }
  rewrite (Hpush Hs eq_refl Hg).
  rewrite omap_app. cbn. rewrite lookup_empty. cbn. by rewrite app_nil_r.
Qed.

End Sparsity.

(** *** Labels *)

Lemma foldl_assign_is_Some {A B} (g : N → A → option B → B) (l : list (N * A))
    (acc : gmap N B) (k : N) :
  is_Some (foldl (λ st kv, <[kv.1 := g kv.1 kv.2 (st !! kv.1)]> st) acc l !! k) ↔
  is_Some (acc !! k) ∨ k ∈ l.*1.
Proof.
  revert acc. induction l as [|[k0 v0] l IH]; intros acc.
  - cbn. rewrite elem_of_nil. tauto.
  - cbn [foldl fst snd]. rewrite IH. cbn. rewrite elem_of_cons.
    destruct (decide (k0 = k)) as [->|Hne].
    + rewrite lookup_insert_eq. split; [auto|]. intros _. left. eauto.
    + rewrite lookup_insert_ne by done. split; [tauto|].
      intros [?|[?|?]]; [tauto|congruence|tauto].
Qed.

Lemma labels_bounded_refl {A C} (m : gmap N A) (snaps : gmap N C) :
  labels_bounded m m snaps.
Proof. intros k. tauto. Qed.

Lemma labels_bounded_assign {A B} (g : N → A → option B → B) (snaps : gmap N A)
    (l : list (N * A)) (acc : gmap N B) :
  (∀ k, k ∈ l.*1 → is_Some (snaps !! k)) →
  labels_bounded acc
    (foldl (λ st kv, <[kv.1 := g kv.1 kv.2 (st !! kv.1)]> st) acc l) snaps.
Proof.
  intros Hl k. rewrite foldl_assign_is_Some. split; [auto|].
  intros [?|?]; auto.
Qed.

Lemma items_keys {A} (m : gmap N A) (k : N) : k ∈ (items m).*1 ↔ is_Some (m !! k).
Proof.
  rewrite list_elem_of_fmap. split.
  - intros ([k' v] & -> & Hin). apply elem_of_items in Hin. eauto.
  - intros [v Hv]. exists (k, v). split; [done|]. by apply elem_of_items.
Qed.

Lemma labels_bounded_for_each {A B} (g : N → A → option B → B)
    (snaps : gmap N A) (acc : gmap N B) :
  labels_bounded acc (for_each snaps (λ k v st, <[k := g k v (st !! k)]> st) acc)
    snaps.
Proof.
  apply (labels_bounded_assign g). intros k. by rewrite items_keys.
Qed.

Section Labels.
Context `{Collaborators}.

(** Whether or not the loop throws, it has processed a prefix of the entries
    without a throw. *)
Lemma inprods_loop_prefix n l (e : VectorEngine) :
  ∃ l1 l2, l = l1 ++ l2 ∧
    snapshots_inprods (inprods_loop n l e).1 =
      (if show_snapshots_inner_product e
       then inprods_after (epsilon e) (target_states e) l1 (snapshots_inprods e)
       else snapshots_inprods e) ∧
    snapshots_overlaps (inprods_loop n l e).1 =
      (if show_snapshots_overlaps e
       then overlaps_after (epsilon e) (target_states e) l1 (snapshots_overlaps e)
       else snapshots_overlaps e).
Proof.
  destruct (items_sizes_match_dec (target_states e) l) as [Hok|Hbad].
  - exists l, []. rewrite app_nil_r.
    destruct (inprods_loop_ok n l e Hok) as (_ & -> & ->). done.
  - destruct (inprods_loop_fail n l e Hbad)
      as (l1 & k0 & psi0 & l2 & vec0 & -> & Hl1 & _ & _ & ->).
    exists l1, ((k0, psi0) :: l2). cbn [fst].
    destruct (inprods_loop_ok n l1 e Hl1) as (_ & -> & ->). done.
Qed.

Lemma compute_inprods_labels qreg snaps (e : VectorEngine) :
  labels_bounded (snapshots_inprods e)
    (snapshots_inprods (compute_inprods qreg snaps e).1) snaps ∧
  labels_bounded (snapshots_overlaps e)
    (snapshots_overlaps (compute_inprods qreg snaps e).1) snaps.
Proof.
  unfold compute_inprods. destruct (_ && _); [|split; apply labels_bounded_refl].
  destruct (inprods_loop_prefix (length qreg) (items snaps) e)
    as (l1 & l2 & Hl & -> & ->).
  assert (∀ k, k ∈ l1.*1 → is_Some (snaps !! k)) as Hkeys.
  { intros k Hk. apply items_keys. rewrite Hl, fmap_app, elem_of_app. auto. }
  split.
  - destruct (show_snapshots_inner_product e); [|apply labels_bounded_refl].
    by apply (labels_bounded_assign
                (λ _ v o, default [] o ++
                            [chopped_inprods (epsilon e) v (target_states e)])).
  - destruct (show_snapshots_overlaps e); [|apply labels_bounded_refl].
    by apply (labels_bounded_assign
                (λ _ v o, vector_add (default [] o)
                            (get_probs <$>
                               chopped_inprods (epsilon e) v (target_states e)))).
Qed.

(** X4 (labels).  A compute call, whether it returns or throws, drops no
    entry of the five per-label maps and creates entries only under labels
    captured in the shot; the ket list keeps its entries and gains at most
    one. *)
Theorem compute_results_labels (this : VectorEngine) (qasm : Circuit)
    (be : Backend) :
  let this' := (compute_results this qasm be).1 in
  let snaps := access_snapshots be in
  labels_bounded (snapshots_density this) (snapshots_density this') snaps ∧
  labels_bounded (snapshots_probs this) (snapshots_probs this') snaps ∧
  labels_bounded (snapshots_probs_ket this) (snapshots_probs_ket this') snaps ∧
  labels_bounded (snapshots_inprods this) (snapshots_inprods this') snaps ∧
  labels_bounded (snapshots_overlaps this) (snapshots_overlaps this') snaps ∧
  (snapshots_ket this' = snapshots_ket this ∨
   ∃ km, snapshots_ket this' = snapshots_ket this ++ [km]).
Proof.
  cbn zeta.
  destruct (snapshots_empty (base_compute_results (base this) qasm be)) eqn:Eg.
  { rewrite compute_results_unfold. cbn zeta. rewrite Eg. cbn.
    split_and!; auto using labels_bounded_refl. }
  destruct (compute_results_blocks this qasm be Eg) as (-> & -> & -> & ->).
  destruct (compute_results_guarded this qasm be Eg)
    as (e3 & _ & Hi & Ho & ->).
  destruct (compute_inprods_labels (access_qreg be) (access_snapshots be) e3)
    as (Hli & Hlo).
  rewrite Hi in Hli. rewrite Ho in Hlo.
  split_and!; try done.
  - unfold compute_density. destruct (show_snapshots_density this);
      [|apply labels_bounded_refl]. cbn. unfold at_key.
    apply (labels_bounded_for_each
             (λ _ psi o, density_accumulate (default [] o) (outer_product psi psi))).
  - unfold compute_probs. destruct (show_snapshots_probs this);
      [|apply labels_bounded_refl]. cbn [snapshots_probs set_snapshots_probs].
    apply (labels_bounded_for_each
             (λ _ psi o, if list_eq_nil_dec (default [] o) then get_probs_vec psi
                         else vector_add (default [] o) (get_probs_vec psi))).
  - unfold compute_kets.
    rewrite (for_each_build_fmap
               (λ psi, vec2ket psi (qudit_dim this) (epsilon this)
                         (ket_regs this qasm))).
    assert (labels_bounded (snapshots_probs_ket this)
      (for_each
         ((λ psi, vec2ket psi (qudit_dim this) (epsilon this) (ket_regs this qasm))
            <$> access_snapshots be)
         (λ k s acc, <[k := rket_add (at_key ∅ acc k) (get_probs_ket s)]> acc)
         (snapshots_probs_ket this)) (access_snapshots be)) as Hpk.
    { intros k.
      destruct (labels_bounded_for_each
                  (λ _ s o, rket_add (default ∅ o) (get_probs_ket s))
                  ((λ psi, vec2ket psi (qudit_dim this) (epsilon this)
                             (ket_regs this qasm)) <$> access_snapshots be)
                  (snapshots_probs_ket this) k) as [H1 H2].
      split; [exact H1|]. intros Hn. destruct (H2 Hn) as [?|Hs]; [auto|].
      right. rewrite lookup_fmap in Hs. by apply fmap_is_Some in Hs. }
    destruct (show_snapshots_ket this) eqn:Ek,
      (show_snapshots_probs_ket this) eqn:Epk; cbn; rewrite ?Epk; cbn;
      first [exact Hpk | apply labels_bounded_refl].
  - unfold compute_kets.
    destruct (show_snapshots_ket this) eqn:Ek,
      (show_snapshots_probs_ket this) eqn:Epk; cbn; rewrite ?Epk; cbn; eauto.
Qed.

End Labels.

(** *** The shape of the stored inner products *)

Lemma vec_add_length {A} (f : A → A → A) (l r : list A) :
  length (vec_add f l r) = length l `max` length r.
Proof.
  revert r. induction l as [|a l IH]; intros [|b r]; cbn; [done..|].
  by rewrite IH.
Qed.

Lemma foldl_assign_all_values {A B} (P : B → Prop) (g : N → A → option B → B)
    (l : list (N * A)) (acc : gmap N B) :
  (∀ k v o, (∀ b, o = Some b → P b) → P (g k v o)) →
  all_values P acc →
  all_values P (foldl (λ st kv, <[kv.1 := g kv.1 kv.2 (st !! kv.1)]> st) acc l).
Proof.
  intros Hg. revert acc. induction l as [|[k0 v0] l IH]; intros acc Hacc; [done|].
  cbn [foldl fst snd]. apply IH. apply map_Forall_insert_2; [|done].
  apply Hg. intros b Hb. exact (Hacc _ _ Hb).
Qed.

Section Shape.
Context `{Collaborators}.

Lemma chopped_inprods_ok (e : VectorEngine) (psi : QubitVector) :
  stored_sequence_ok e (chopped_inprods (epsilon e) psi (target_states e)).
Proof.
  split; [|apply chopped_inprods_stable].
  unfold chopped_inprods. by rewrite length_fmap.
Qed.

Lemma inprods_wf_config (a b : VectorEngine) :
  epsilon a = epsilon b → target_states a = target_states b →
  snapshots_inprods a = snapshots_inprods b →
  snapshots_overlaps a = snapshots_overlaps b →
  inprods_wf b → inprods_wf a.
Proof.
  unfold inprods_wf, stored_sequence_ok. by intros -> -> -> ->.
Qed.

Lemma compute_inprods_wf qreg snaps (e : VectorEngine) :
  inprods_wf e → inprods_wf (compute_inprods qreg snaps e).1.
Proof.
  intros [Hi Ho].
  destruct (compute_inprods_frame qreg snaps e) as ((Heps & _ & Hts & _) & _).
  unfold inprods_wf, stored_sequence_ok. rewrite Heps, Hts.
  unfold compute_inprods. destruct (_ && _); [|done].
  destruct (inprods_loop_prefix (length qreg) (items snaps) e)
    as (l1 & l2 & _ & -> & ->).
  split.
  - destruct (show_snapshots_inner_product e); [|done].
    apply (foldl_assign_all_values _
             (λ _ v o, default [] o ++
                         [chopped_inprods (epsilon e) v (target_states e)]));
      [|done].
    intros k v o Hold. apply Forall_app. split.
    + destruct o as [b|]; [by apply Hold|constructor].
    + apply Forall_singleton, chopped_inprods_ok.
  - destruct (show_snapshots_overlaps e); [|done].
    apply (foldl_assign_all_values _
             (λ _ v o, vector_add (default [] o)
                         (get_probs <$>
                            chopped_inprods (epsilon e) v (target_states e))));
      [|done].
    intros k v o Hold. unfold vector_add. rewrite vec_add_length.
    unfold chopped_inprods. rewrite !length_fmap.
    destruct o as [b|]; cbn; [|done]. rewrite (Hold b eq_refl). lia.
Qed.

Lemma inprods_wf_compute_results (this : VectorEngine) qasm be :
  inprods_wf this → inprods_wf (compute_results this qasm be).1.
Proof.
  intros Hwf.
  destruct (snapshots_empty (base_compute_results (base this) qasm be)) eqn:Eg.
  - rewrite compute_results_unfold. cbn zeta. rewrite Eg. exact Hwf.
  - destruct (compute_results_guarded this qasm be Eg)
      as (e3 & (Heps & _ & Hts & _) & Hi & Ho & ->).
    apply compute_inprods_wf.
    by apply (inprods_wf_config e3 this).
Qed.

Lemma inprods_wf_add (this eng : VectorEngine) :
  epsilon eng = epsilon this →
  length (target_states eng) = length (target_states this) →
  inprods_wf this → inprods_wf eng → inprods_wf (add this eng).
Proof.
  intros Heps Hlen [Hi Ho] [Hi' Ho'].
  unfold inprods_wf, stored_sequence_ok in *.
  destruct (add_config this eng) as (-> & _ & -> & _).
  rewrite Heps, Hlen in Hi'. rewrite Hlen in Ho'.
  rewrite add_snapshots_inprods, add_snapshots_overlaps. split.
  - intros k x. rewrite lookup_map_accumulate.
    destruct (snapshots_inprods eng !! k) as [s|] eqn:Es; [|by apply Hi].
    intros [= <-]. apply Forall_app. split; [|exact (Hi' _ _ Es)].
    destruct (snapshots_inprods this !! k) as [b|] eqn:Eb; cbn;
      [exact (Hi _ _ Eb)|constructor].
  - intros k x. rewrite lookup_map_accumulate.
    destruct (snapshots_overlaps eng !! k) as [s|] eqn:Es; [|by apply Ho].
    intros [= <-]. unfold vector_add. rewrite vec_add_length.
    rewrite (Ho' _ _ Es).
    destruct (snapshots_overlaps this !! k) as [b|] eqn:Eb; cbn; [|done].
    rewrite (Ho _ _ Eb). lia.
Qed.

(** X5 (shape of the stored inner products and overlaps).  If every stored
    inner-product sequence has one value per target state, each of them a
    fixed point of the truncation at the engine's threshold, and every
    overlap sum has one entry per target state, then the same holds after a
    compute call, whether it returns or throws, and after merging an engine
    of this kind that has the same threshold and the same number of target
    states. *)
Theorem inprods_wf_invariant (this eng : VectorEngine) (qasm : Circuit)
    (be : Backend) :
  inprods_wf this →
  inprods_wf (compute_results this qasm be).1 ∧
  (epsilon eng = epsilon this →
   length (target_states eng) = length (target_states this) →
   inprods_wf eng → inprods_wf (add this eng)).
Proof.
  intros Hwf. split.
  - by apply inprods_wf_compute_results.
  - intros Heps Hlen Heng. by apply inprods_wf_add.
Qed.

(** X6 (the inner products written are the chopped ones for a well-formed
    engine).  [to_json] chops a copy of the inner-product map and writes the
    map itself; on an engine whose stored sequences are fixed points of the
    truncation at its threshold the two are the same map, so the field
    written holds the chopped values. *)
Theorem to_json_inner_products_chopped (js : json_t) (eng : VectorEngine) :
  inprods_wf eng →
  (to_json js eng).1 !! "inner_products" =
    if show_snapshots_inner_product eng && bool_decide (snapshots_inprods eng ≠ ∅)
    then Some (JCVectorLists (chop_cvecs (epsilon eng) <$> snapshots_inprods eng))
    else base_to_json js (base eng) !! "inner_products".
Proof.
  intros [Hi _]. rewrite to_json_inner_products.
  assert (chop_cvecs (epsilon eng) <$> snapshots_inprods eng =
          snapshots_inprods eng) as ->; [|done].
  apply map_eq. intros k. rewrite lookup_fmap.
  destruct (snapshots_inprods eng !! k) as [l|] eqn:El; [|done]. cbn. f_equal.
  specialize (Hi _ _ El). cbn in Hi. clear El. unfold chop_cvecs.
  induction Hi as [|s l [_ Hs] _ IH]; [done|]. cbn. by rewrite Hs, IH.
Qed.

End Shape.

(** *** Configuration *)

Section Reset.
Context `{Collaborators}.

(** A token sets selectors only. *)
Lemma set_option_frame (o : string) (e : VectorEngine) :
  base (set_option o e) = base e ∧
  epsilon (set_option o e) = epsilon e ∧
  qudit_dim (set_option o e) = qudit_dim e ∧
  target_states (set_option o e) = target_states e ∧
  snapshot_data (set_option o e) = snapshot_data e.
Proof. unfold set_option. by repeat case_bool_decide. Qed.

Lemma parse_options_frame (opts : list string) (e : VectorEngine) :
  base (parse_options opts e) = base e ∧
  epsilon (parse_options opts e) = epsilon e ∧
  qudit_dim (parse_options opts e) = qudit_dim e ∧
  target_states (parse_options opts e) = target_states e ∧
  snapshot_data (parse_options opts e) = snapshot_data e.
Proof.
  revert e. induction opts as [|o opts IH]; intros e; [done|].
  unfold parse_options. cbn [foldl]. cbn zeta.
  fold (parse_options opts (set_option (string_trim (to_lowercase o)) e)).
  destruct (IH (set_option (string_trim (to_lowercase o)) e))
    as (-> & -> & -> & -> & ->).
  apply set_option_frame.
Qed.

(** The members of the engine that [from_json] produces. *)
Lemma from_json_members (js : json_t) (eng : VectorEngine) :
  let e := from_json js eng in
  let b := base_from_json js base_engine_new in
  accumulator_empty e ∧
  epsilon e = default r_1e_10 (get_real "chop" js) ∧
  qudit_dim e = default 2%N (get_uint "qudit_dim" js) ∧
  target_states e =
    match get_states "target_states" js with
    | Some ts => if default true (get_bool "renorm_target_states" js)
                 then renormalize <$> ts else ts
    | None => []
    end ∧
  base e = if initial_state_flag b then initial_state_renormalize b else b.
Proof.
  cbn zeta.
  unfold from_json, accumulator_empty. cbn zeta.
  change (base (VectorEngine_new 2)) with base_engine_new.
  set (e0 := set_base (base_from_json js base_engine_new) (VectorEngine_new 2)).
  set (e1 := match get_strings "data" js with
             | Some opts => foldl _ e0 opts
             | None => e0
             end).
  assert (base e1 = base e0 ∧ epsilon e1 = epsilon e0 ∧
          qudit_dim e1 = qudit_dim e0 ∧ target_states e1 = target_states e0 ∧
          snapshot_data e1 = snapshot_data e0) as (Hb & He & Hq & Ht & Hd).
  { unfold e1. destruct (get_strings "data" js) as [opts|]; [|done].
    apply (parse_options_frame opts e0). }
  clearbody e1. change (base e0) with (base_from_json js base_engine_new) in Hb.
  change (epsilon e0) with r_1e_10 in He. change (qudit_dim e0) with 2%N in Hq.
  change (target_states e0) with (@nil QubitVector) in Ht.
  change (snapshot_data e0) with
    (@nil (gmap N cket_t), (∅ : gmap N cmatrix_t), (∅ : gmap N rvector_t),
     (∅ : gmap N rket_t), (∅ : gmap N (list cvector_t)), (∅ : gmap N rvector_t))
    in Hd.
  clear e0.
  destruct (get_real "chop" js) as [x|], (get_uint "qudit_dim" js) as [d|],
    (get_states "target_states" js) as [ts|],
    (default true (get_bool "renorm_target_states" js));
    cbn; rewrite ?Hb;
    destruct (initial_state_flag (base_from_json js base_engine_new));
    cbn; rewrite ?Hb, ?He, ?Hq, ?Ht; unfold snapshot_data in *; cbn; done.
Qed.

(** X7 (what a configuration call leaves behind).  [from_json] starts from a
    newly constructed engine: the engine passed in has no influence on the
    result, which holds no snapshot data.  A setting that the document does
    not give keeps the value of the constructor: threshold [1e-10], qudit
    dimension 2, no target states; target states that are given are
    renormalised unless [renorm_target_states] is given as false.  The base
    sub-object is the one the base class reads from the document, with its
    initial state renormalised when its flag is set. *)
Theorem from_json_fresh (js : json_t) (eng eng' : VectorEngine) :
  let e := from_json js eng in
  let b := base_from_json js base_engine_new in
  from_json js eng = from_json js eng' ∧
  accumulator_empty e ∧
  epsilon e = default r_1e_10 (get_real "chop" js) ∧
  qudit_dim e = default 2%N (get_uint "qudit_dim" js) ∧
  target_states e =
    match get_states "target_states" js with
    | Some ts => if default true (get_bool "renorm_target_states" js)
                 then renormalize <$> ts else ts
    | None => []
    end ∧
  base e = if initial_state_flag b then initial_state_renormalize b else b.
Proof. cbn zeta. split; [done|]. apply from_json_members. Qed.

(** X8 (the selectors depend on the set of normalised tokens).  Two
    documents whose [data] lists give the same case-folded and trimmed tokens,
    in whatever order and however often, configure the same selectors. *)
Theorem selectors_of_token_set (js1 js2 : json_t) (eng1 eng2 : VectorEngine) :
  (∀ t, t ∈ normalise <$> default [] (get_strings "data" js1) ↔
        t ∈ normalise <$> default [] (get_strings "data" js2)) →
  selectors (from_json js1 eng1) = selectors (from_json js2 eng2).
Proof.
  intros Hset. rewrite !from_json_selectors.
  set (o1 := default [] (get_strings "data" js1)) in *.
  set (o2 := default [] (get_strings "data" js2)) in *.
  assert (∀ names, names_token names o1 ↔ names_token names o2) as Hn.
  { intros names. unfold names_token. split.
    - intros (o & Ho & Hin).
      assert (normalise o ∈ normalise <$> o1) as Hm
        by (apply list_elem_of_fmap; eauto).
      apply Hset, list_elem_of_fmap in Hm as (o' & Heq & Ho').
      exists o'. split; [done|]. by rewrite <- Heq.
    - intros (o & Ho & Hin).
      assert (normalise o ∈ normalise <$> o2) as Hm
        by (apply list_elem_of_fmap; eauto).
      apply Hset, list_elem_of_fmap in Hm as (o' & Heq & Ho').
      exists o'. split; [done|]. by rewrite <- Heq. }
  destruct (parse_options_selectors o1 (VectorEngine_new 2))
    as (A1 & A2 & A3 & A4 & A5 & A6).
  destruct (parse_options_selectors o2 (VectorEngine_new 2))
    as (B1 & B2 & B3 & B4 & B5 & B6).
  cbn zeta in *. unfold selectors.
  rewrite <- Hn in B1, B2, B3, B4, B5, B6.
  rewrite <- B1 in A1. rewrite <- B2 in A2. rewrite <- B3 in A3.
  rewrite <- B4 in A4. rewrite <- B5 in A5. rewrite <- B6 in A6.
  by rewrite (eq_true_iff_eq _ _ A1), (eq_true_iff_eq _ _ A2),
    (eq_true_iff_eq _ _ A3), (eq_true_iff_eq _ _ A4), (eq_true_iff_eq _ _ A5),
    (eq_true_iff_eq _ _ A6).
Qed.

End Reset.

(** *** Algebra of the merge *)

Section MergeAlgebra.
Context `{Collaborators}.

Lemma density_wf_compute_results (this : VectorEngine) qasm be :
  density_wf this → density_wf (compute_results this qasm be).1.
Proof.
  intros Hwf. unfold density_wf in *.
  destruct (snapshots_empty (base_compute_results (base this) qasm be)) eqn:Eg.
  { rewrite compute_results_unfold. cbn zeta. by rewrite Eg. }
  destruct (compute_results_blocks this qasm be Eg) as (_ & _ & -> & _).
  unfold compute_density. destruct (show_snapshots_density this); [|done].
  cbn. unfold at_key.
  apply (foldl_assign_all_values proper
           (λ _ psi o, density_accumulate (default [] o) (outer_product psi psi)));
    [|done].
  intros k psi o Hold. apply proper_density_accumulate.
  - destruct o as [b|]; [by apply Hold|apply proper_nil].
  - apply proper_outer_product.
Qed.

Lemma density_wf_add (this eng : VectorEngine) :
  density_wf this → density_wf eng → density_wf (add this eng).
Proof.
  unfold density_wf. intros Hwf Heng. rewrite add_snapshots_density.
  apply (all_values_accumulate density_accumulate [] proper);
    auto using proper_nil, proper_density_accumulate.
Qed.

(** X9 (accumulated density matrices have no empty row).  A compute call
    and a merge keep every accumulated density matrix free of empty rows, so
    the test [rho.size() == 0] of the two density loops finds size 0 only at
    an entry that has no row at all. *)
Theorem density_wf_invariant (this eng : VectorEngine) (qasm : Circuit)
    (be : Backend) :
  density_wf this →
  density_wf (compute_results this qasm be).1 ∧
  (density_wf eng → density_wf (add this eng)) ∧
  ∀ k rho, snapshots_density this !! k = Some rho → matrix_size rho = 0 → rho = [].
Proof.
  intros Hwf. split_and!.
  - by apply density_wf_compute_results.
  - intros Heng. by apply density_wf_add.
  - intros k rho Hk. apply proper_size_0. exact (Hwf _ _ Hk).
Qed.

(** X10 (the merge is associative).  With an associative scalar addition
    that has zero as a left unit, and density matrices without empty rows,
    merging three accumulators as (a + b) + c or as a + (b + c) gives the same
    six snapshot members. *)
Theorem merge_associative (a b c : VectorEngine) :
  (∀ x y z : real, radd (radd x y) z = radd x (radd y z)) →
  (∀ x : real, radd r0 x = x) →
  density_wf a → density_wf b → density_wf c →
  snapshot_data (add (add a b) c) = snapshot_data (add a (add b c)).
Proof.
  intros Hassoc Hunit Ha Hb Hc. unfold snapshot_data, density_wf in *.
  rewrite !add_snapshots_ket, !add_snapshots_density, !add_snapshots_probs,
    !add_snapshots_probs_ket, !add_snapshots_inprods, !add_snapshots_overlaps.
  rewrite <- app_assoc.
  rewrite (map_accumulate_assoc density_accumulate [] proper)
    by first [ done | apply proper_nil | apply proper_density_accumulate
             | (intros x y z Px Py Pz;
                rewrite !density_accumulate_proper
                  by auto using proper_density_accumulate;
                by apply matrix_add_assoc) ].
  rewrite !(map_accumulate_assoc vector_add [] (λ _, True))
    by first [ done | apply all_values_True
             | (intros; by apply vector_add_assoc) ].
  rewrite (map_accumulate_assoc rket_add ∅ (λ _, True))
    by first [ done | apply all_values_True
             | (intros; by apply (map_accumulate_assoc radd r0 (λ _, True));
                  auto using all_values_True)
             | (intros; by apply rket_add_empty_l) ].
  rewrite (map_accumulate_assoc app [] (λ _, True))
    by first [ done | apply all_values_True
             | (intros; by rewrite app_assoc) ].
  done.
Qed.

(** X11 (the four sums of a merge do not depend on its direction).  With a
    commutative scalar addition that has zero as a left unit, and density
    matrices without empty rows, merging [b] into [a] and merging [a] into
    [b] give the same density, probability, probability-ket and overlap
    sums.  (The two lists are concatenated, so their order does depend on
    the direction.) *)
Theorem merge_sums_commute (a b : VectorEngine) :
  (∀ x y : real, radd x y = radd y x) →
  (∀ x : real, radd r0 x = x) →
  density_wf a → density_wf b →
  snapshots_density (add a b) = snapshots_density (add b a) ∧
  snapshots_probs (add a b) = snapshots_probs (add b a) ∧
  snapshots_probs_ket (add a b) = snapshots_probs_ket (add b a) ∧
  snapshots_overlaps (add a b) = snapshots_overlaps (add b a).
Proof.
  intros Hcomm Hunit Ha Hb. unfold density_wf in *.
  rewrite !add_snapshots_density, !add_snapshots_probs,
    !add_snapshots_probs_ket, !add_snapshots_overlaps.
  split_and!.
  - apply (map_accumulate_comm density_accumulate [] proper); try done.
    intros x y Px Py. rewrite !density_accumulate_proper by done.
    by apply matrix_add_comm.
  - apply (map_accumulate_comm vector_add [] (λ _, True));
      first [ done | apply all_values_True | (intros; by apply vector_add_comm) ].
  - apply (map_accumulate_comm rket_add ∅ (λ _, True));
      first [ done | apply all_values_True
            | (intros; by apply (map_accumulate_comm radd r0 (λ _, True));
                 auto using all_values_True)
            | (intros; by apply rket_add_empty_l) ].
  - apply (map_accumulate_comm vector_add [] (λ _, True));
      first [ done | apply all_values_True | (intros; by apply vector_add_comm) ].
Qed.

End MergeAlgebra.

(** *** Probabilities and the diagonal of the density matrix *)

Lemma vec_add_lookup {A} (f : A → A → A) (l r : list A) (i : nat) (x y : A) :
  l !! i = Some x → r !! i = Some y → vec_add f l r !! i = Some (f x y).
Proof.
  revert r i. induction l as [|a l IH]; intros [|b r] [|i]; cbn; try done.
  - by intros [= ->] [= ->].
  - apply IH.
Qed.

Lemma vec_add_Forall_length {A} (f : A → A → A) (n : nat) (a b : list (list A)) :
  Forall (λ row, length row = n) a → Forall (λ row, length row = n) b →
  Forall (λ row, length row = n) (vec_add (vec_add f) a b).
Proof.
  intros Ha. revert b. induction Ha as [|ra a Hra Ha IH]; intros b Hb; [done|].
  destruct Hb as [|rb b Hrb Hb]; [by constructor|].
  cbn. constructor; [|by apply IH].
  rewrite vec_add_length. lia.
Qed.

Section DiagonalLemmas.
Context `{Collaborators}.

Lemma diag_from_outer_product (u v : cvector_t) (i : nat) :
  length u + i ≤ length v →
  diag_from i (outer_product u v) =
    zip_with (λ a b, cmul a (cconj b)) u (drop i v).
Proof.
  revert i. induction u as [|a u IH]; intros i Hlen; [done|].
  cbn in Hlen. cbn [outer_product fmap list_fmap diag_from].
  destruct (lookup_lt_is_Some_2 v i) as [b Hb]; [lia|].
  rewrite list_lookup_fmap, Hb. cbn [fmap option_fmap option_map default].
  rewrite (drop_S _ _ _ Hb). cbn [zip_with]. f_equal.
  apply IH. lia.
Qed.

Lemma diag_re_outer_product (psi : cvector_t) :
  (∀ x y : real, rmul x y = rmul y x) →
  diag_re (outer_product psi psi) = get_probs <$> psi.
Proof.
  intros Hmul. unfold diag_re.
  rewrite diag_from_outer_product by lia. rewrite drop_0.
  induction psi as [|a psi IH]; [done|]. cbn [zip_with fmap list_fmap].
  rewrite IH. f_equal. unfold get_probs, cmul, cconj. cbn.
  by rewrite (Hmul (im a) (ropp (im a))).
Qed.

Lemma diag_from_matrix_add (n i : nat) (a b : cmatrix_t) :
  Forall (λ row : cvector_t, length row = n) a →
  Forall (λ row : cvector_t, length row = n) b →
  length a + i ≤ n → length b + i ≤ n →
  diag_from i (matrix_add a b) = vec_add cadd (diag_from i a) (diag_from i b).
Proof.
  unfold matrix_add. intros Ha. revert i b.
  induction Ha as [|ra a Hra Ha IH]; intros i b Hb Hla Hlb; [done|].
  destruct Hb as [|rb b Hrb Hb]; [done|].
  cbn in Hla, Hlb. cbn [vec_add diag_from].
  destruct (lookup_lt_is_Some_2 ra i) as [x Hx]; [lia|].
  destruct (lookup_lt_is_Some_2 rb i) as [y Hy]; [lia|].
  rewrite (vec_add_lookup cadd ra rb i x y Hx Hy), Hx, Hy. cbn [default].
  f_equal. apply IH; [done|lia..].
Qed.

Lemma re_vec_add (x y : cvector_t) :
  re <$> vec_add cadd x y = vec_add radd (re <$> x) (re <$> y).
Proof.
  revert y. induction x as [|a x IH]; intros [|b y]; cbn; [done..|].
  by rewrite IH.
Qed.

Lemma diag_re_matrix_add (n : nat) (a b : cmatrix_t) :
  square n a → square n b →
  diag_re (matrix_add a b) = vector_add (diag_re a) (diag_re b).
Proof.
  intros [Hla Ha] [Hlb Hb]. unfold diag_re, vector_add.
  rewrite (diag_from_matrix_add n 0 a b) by (done || lia).
  apply re_vec_add.
Qed.

Lemma square_matrix_add (n : nat) (a b : cmatrix_t) :
  square n a → square n b → square n (matrix_add a b).
Proof.
  intros [Hla Ha] [Hlb Hb]. unfold matrix_add. split.
  - rewrite vec_add_length. lia.
  - by apply vec_add_Forall_length.
Qed.

Lemma square_outer_product (psi : cvector_t) :
  square (length psi) (outer_product psi psi).
Proof.
  unfold square, outer_product. split; [by rewrite length_fmap|].
  apply Forall_fmap, Forall_forall. intros a _. cbn. by rewrite length_fmap.
Qed.

Lemma diag_from_length (i : nat) (m : cmatrix_t) :
  length (diag_from i m) = length m.
Proof. revert i. induction m as [|row m IH]; intros i; cbn; by rewrite ?IH. Qed.

Lemma square_size_0 (n : nat) (m : cmatrix_t) :
  square n m → (matrix_size m = 0 ↔ n = 0).
Proof.
  intros [Hl Hrows]. unfold matrix_size. split.
  - destruct m as [|row m]; [by cbn in Hl|].
    apply Forall_cons in Hrows as [Hrow _]. cbn. lia.
  - intros ->. destruct m; [done|by cbn in Hl].
Qed.

Lemma compute_density_lookup snaps (e : VectorEngine) (k : N) :
  show_snapshots_density e = true →
  snapshots_density (compute_density snaps e) !! k =
    match snaps !! k with
    | Some psi => Some (density_accumulate (default [] (snapshots_density e !! k))
                          (outer_product psi psi))
    | None => snapshots_density e !! k
    end.
Proof.
  intros Hon. unfold compute_density. rewrite Hon. cbn. unfold at_key.
  by rewrite (for_each_assign_lookup
                (λ _ psi o, density_accumulate (default [] o) (outer_product psi psi))).
Qed.

Lemma compute_probs_lookup snaps (e : VectorEngine) (k : N) :
  show_snapshots_probs e = true →
  snapshots_probs (compute_probs snaps e) !! k =
    match snaps !! k with
    | Some psi =>
        Some (if decide (default [] (snapshots_probs e !! k) = [])
              then get_probs <$> psi
              else vector_add (default [] (snapshots_probs e !! k))
                     (get_probs <$> psi))
    | None => snapshots_probs e !! k
    end.
Proof.
  intros Hon. unfold compute_probs. rewrite Hon.
  cbn [snapshots_probs set_snapshots_probs].
  refine (eq_trans
            (for_each_assign_lookup
               (λ _ psi o, if decide (default [] o = []) then get_probs_vec psi
                           else vector_add (default [] o) (get_probs_vec psi))
               _ _ k) _).
  destruct (snaps !! k); [|done].
  by rewrite !get_probs_vec_fmap.
Qed.

(** X12 (the probabilities are the diagonal of the density matrix).  With a
    commutative scalar multiplication, with the density and the probability
    selector both on or both off, and with every snapshot of the shot of the
    dimension of the density matrix already stored under its label: if under
    every label the probability vector is the diagonal of the (square)
    density matrix before a compute call, it is so after the call. *)
Theorem probabilities_are_density_diagonal (this : VectorEngine)
    (qasm : Circuit) (be : Backend) :
  (∀ x y : real, rmul x y = rmul y x) →
  show_snapshots_density this = show_snapshots_probs this →
  (∀ k psi rho, access_snapshots be !! k = Some psi →
                snapshots_density this !! k = Some rho →
                square (length psi) rho) →
  probs_match_density this →
  probs_match_density (compute_results this qasm be).1.
Proof.
  intros Hmul Hsel Hdim Hinv.
  destruct (snapshots_empty (base_compute_results (base this) qasm be)) eqn:Eg.
  { rewrite compute_results_unfold. cbn zeta. by rewrite Eg. }
  intros k.
  destruct (compute_results_blocks this qasm be Eg) as (_ & _ & -> & ->).
  destruct (show_snapshots_probs this) eqn:Ep.
  2:{ unfold compute_density, compute_probs. rewrite Hsel, Ep. apply Hinv. }
  rewrite compute_density_lookup, compute_probs_lookup by done.
  specialize (Hinv k). specialize (Hdim k).
  destruct (access_snapshots be !! k) as [psi|]; [|exact Hinv].
  specialize (Hdim psi).
  destruct (snapshots_density this !! k) as [rho|],
    (snapshots_probs this !! k) as [pr|]; try done; cbn [default]; unfold id.
  - destruct Hinv as [_ ->]. specialize (Hdim rho eq_refl eq_refl).
    unfold density_accumulate.
    destruct (decide (length psi = 0)) as [Hz|Hnz].
    + rewrite decide_True by (by apply (square_size_0 (length psi))).
      rewrite decide_True.
      2:{ apply nil_length_inv. unfold diag_re.
          rewrite length_fmap, diag_from_length. destruct Hdim as [-> _]. done. }
      split; [eauto using square_outer_product|].
      by rewrite diag_re_outer_product.
    + rewrite decide_False
        by (intros Hs; by apply (square_size_0 (length psi)) in Hs).
      rewrite decide_False.
      2:{ intros Hnil. apply (f_equal length) in Hnil. unfold diag_re in Hnil.
          rewrite length_fmap, diag_from_length in Hnil.
          destruct Hdim as [Hl _]. cbn in Hnil. lia. }
      split.
      * exists (length psi). apply square_matrix_add; [done|].
        apply square_outer_product.
      * rewrite (diag_re_matrix_add (length psi))
          by auto using square_outer_product.
        by rewrite diag_re_outer_product.
  - unfold density_accumulate. rewrite decide_True by done.
    rewrite decide_True by done.
    split; [eauto using square_outer_product|].
    by rewrite diag_re_outer_product.
Qed.

End DiagonalLemmas.

(** *** What rendering, computing and merging leave alone *)

Section Frames.
Context `{Collaborators}.

(** X13 (what rendering leaves of the base document).  [to_json] writes
    under six keys only: every other entry of the rendered document is the
    one the base class wrote, and so is the entry under one of the six keys
    whose selector is off or whose accumulated structure is empty.  With
    every selector off the document is the one of the base class. *)
Theorem to_json_frame (js : json_t) (eng : VectorEngine) :
  let doc := (to_json js eng).1 in
  let base_doc := base_to_json js (base eng) in
  (∀ key, key ∉ output_keys → doc !! key = base_doc !! key) ∧
  (show_snapshots_ket eng = false ∨ snapshots_ket eng = [] →
   doc !! "quantum_state_ket" = base_doc !! "quantum_state_ket") ∧
  (show_snapshots_density eng = false ∨ snapshots_density eng = ∅ →
   doc !! "density_matrix" = base_doc !! "density_matrix") ∧
  (show_snapshots_probs eng = false ∨ snapshots_probs eng = ∅ →
   doc !! "probabilities" = base_doc !! "probabilities") ∧
  (show_snapshots_probs_ket eng = false ∨ snapshots_probs_ket eng = ∅ →
   doc !! "probabilities_ket" = base_doc !! "probabilities_ket") ∧
  (show_snapshots_inner_product eng = false ∨ snapshots_inprods eng = ∅ →
   doc !! "inner_products" = base_doc !! "inner_products") ∧
  (show_snapshots_overlaps eng = false ∨ snapshots_overlaps eng = ∅ →
   doc !! "overlaps" = base_doc !! "overlaps") ∧
  (selectors eng = (false, false, false, false, false, false) → doc = base_doc).
Proof.
  cbn zeta.
  rewrite to_json_ket, to_json_density, to_json_probs, to_json_probs_ket,
    to_json_inner_products, to_json_overlaps.
  split_and!.
  - intros key Hkey. unfold output_keys in Hkey.
    rewrite !not_elem_of_cons in Hkey.
    destruct Hkey as (K1 & K2 & K3 & K4 & K5 & K6 & _).
    rewrite to_json_blocks.
    by rewrite !lookup_put_if_ne by done.
  - intros [-> | ->]; [done|]. rewrite bool_decide_eq_false_2 by (by intros ?).
    by rewrite andb_false_r.
  - intros [-> | ->]; [done|]. rewrite bool_decide_eq_false_2 by (by intros ?).
    by rewrite andb_false_r.
  - intros [-> | ->]; [done|]. rewrite bool_decide_eq_false_2 by (by intros ?).
    by rewrite andb_false_r.
  - intros [-> | ->]; [done|]. rewrite bool_decide_eq_false_2 by (by intros ?).
    by rewrite andb_false_r.
  - intros [-> | ->]; [done|]. rewrite bool_decide_eq_false_2 by (by intros ?).
    by rewrite andb_false_r.
  - intros [-> | ->]; [done|]. rewrite bool_decide_eq_false_2 by (by intros ?).
    by rewrite andb_false_r.
  - unfold selectors. intros [= Hk Hd Hp Hpk Hi Ho]. rewrite to_json_blocks.
    by rewrite Hk, Hd, Hp, Hpk, Hi, Ho.
Qed.

Lemma compute_results_base (this : VectorEngine) qasm be :
  base (compute_results this qasm be).1 =
    base_compute_results (base this) qasm be.
Proof.
  rewrite compute_results_unfold. cbn zeta.
  destruct (snapshots_empty _); [done|].
  match goal with |- context [compute_kets ?r ?s ?e] =>
    pose proof (compute_kets_frame r s e) as (_ & Hb1 & _);
    pose proof (compute_density_frame s (compute_kets r s e)) as (_ & Hb2 & _);
    pose proof (compute_probs_frame s (compute_density s (compute_kets r s e)))
      as (_ & Hb3 & _);
    pose proof (compute_inprods_frame (access_qreg be) s
                  (compute_probs s (compute_density s (compute_kets r s e))))
      as (_ & Hb4 & _)
  end.
  cbn zeta in Hb4. by rewrite Hb4, Hb3, Hb2, Hb1.
Qed.

(** X14 (a call never changes the configuration).  A compute call, whether
    it returns or throws, and a merge leave the threshold, the qudit
    dimension, the target states and the six selectors of the engine as they
    are (a merge keeps those of the receiving engine, whatever the merged one
    is configured with); the base sub-object is the one the base class
    produces for the same call. *)
Theorem calls_keep_configuration (this eng : VectorEngine) (qasm : Circuit)
    (be : Backend) :
  same_config (compute_results this qasm be).1 this ∧
  base (compute_results this qasm be).1 =
    base_compute_results (base this) qasm be ∧
  same_config (add this eng) this ∧
  base (add this eng) = base_add (base this) (base eng).
Proof.
  split_and!; [apply compute_results_config|apply compute_results_base| |done].
  unfold same_config.
  destruct (add_config this eng) as (-> & -> & -> & -> & -> & -> & -> & -> & ->).
  by split_and!.
Qed.

(** X15 (a configured engine is well formed).  The engine that [from_json]
    produces satisfies the four invariants of the accumulated data: shape of
    the inner products and overlaps, density matrices without empty rows,
    probabilities on the diagonal of the density matrices, overlaps the sums
    of the squared moduli of the inner products. *)
Theorem from_json_well_formed (js : json_t) (eng : VectorEngine) :
  inprods_wf (from_json js eng) ∧ density_wf (from_json js eng) ∧
  probs_match_density (from_json js eng) ∧
  overlaps_match_inprods (from_json js eng).
Proof.
  destruct (from_json_members js eng) as (Hempty & _).
  unfold accumulator_empty, snapshot_data in Hempty.
  injection Hempty as _ Hd Hp _ Hi Ho.
  unfold inprods_wf, density_wf, probs_match_density, overlaps_match_inprods.
  rewrite Hd, Hp, Hi, Ho. split_and!; try apply map_Forall_empty.
  - intros k. by rewrite !lookup_empty.
  - intros k. by rewrite !lookup_empty.
Qed.

(** X16 (the conversions to probabilities act entry by entry).  The vector
    overload of [get_probs] returns a vector of the length of its argument
    whose entry [i] is the scalar overload applied to amplitude [i]; the ket
    overload returns a ket with the labels of its argument, the scalar
    overload applied to each amplitude. *)
Theorem get_probs_entrywise (vec : QubitVector) (ket : cket_t) :
  length (get_probs_vec vec) = length vec ∧
  (∀ i, get_probs_vec vec !! i = get_probs <$> vec !! i) ∧
  (∀ s, get_probs_ket ket !! s = get_probs <$> ket !! s).
Proof.
  rewrite get_probs_vec_fmap. split_and!.
  - by rewrite length_fmap.
  - intros i. by rewrite list_lookup_fmap.
  - intros s. unfold get_probs_ket. by rewrite lookup_fmap.
Qed.

End Frames.

(** *** Labels of a merge; overlaps and inner products *)

Section MergeLabels.
Context `{Collaborators}.

Lemma map_accumulate_is_Some {A B} (op : B → A → B) (dflt : B)
    (a : gmap N B) (b : gmap N A) (k : N) :
  is_Some (map_accumulate op dflt a b !! k) ↔ is_Some (a !! k) ∨ is_Some (b !! k).
Proof.
  rewrite lookup_map_accumulate.
  destruct (b !! k); split; eauto. intros [?|[? ?]]; done.
Qed.

(** X17 (labels of a merge).  After a merge each of the five per-label maps
    has an entry under a label exactly when one of the two engines had one,
    and the ket list has the entries of both. *)
Theorem merge_labels (this eng : VectorEngine) (k : N) :
  (is_Some (snapshots_density (add this eng) !! k) ↔
   is_Some (snapshots_density this !! k) ∨ is_Some (snapshots_density eng !! k)) ∧
  (is_Some (snapshots_probs (add this eng) !! k) ↔
   is_Some (snapshots_probs this !! k) ∨ is_Some (snapshots_probs eng !! k)) ∧
  (is_Some (snapshots_probs_ket (add this eng) !! k) ↔
   is_Some (snapshots_probs_ket this !! k) ∨
   is_Some (snapshots_probs_ket eng !! k)) ∧
  (is_Some (snapshots_inprods (add this eng) !! k) ↔
   is_Some (snapshots_inprods this !! k) ∨ is_Some (snapshots_inprods eng !! k)) ∧
  (is_Some (snapshots_overlaps (add this eng) !! k) ↔
   is_Some (snapshots_overlaps this !! k) ∨
   is_Some (snapshots_overlaps eng !! k)) ∧
  length (snapshots_ket (add this eng)) =
    length (snapshots_ket this) + length (snapshots_ket eng).
Proof.
  rewrite add_snapshots_ket, add_snapshots_density, add_snapshots_probs,
    add_snapshots_probs_ket, add_snapshots_inprods, add_snapshots_overlaps.
  rewrite length_app. split_and!; try apply map_accumulate_is_Some. done.
Qed.

Lemma sum_overlaps_snoc (l : list cvector_t) (s : cvector_t) :
  sum_overlaps (l ++ [s]) = vector_add (sum_overlaps l) (get_probs <$> s).
Proof. unfold sum_overlaps. by rewrite foldl_app. Qed.

Lemma after_overlaps_match eps targets (l : list (N * QubitVector))
    (acc_i : gmap N (list cvector_t)) (acc_o : gmap N rvector_t) :
  (∀ k, acc_o !! k = sum_overlaps <$> acc_i !! k) →
  ∀ k, overlaps_after eps targets l acc_o !! k =
       sum_overlaps <$> inprods_after eps targets l acc_i !! k.
Proof.
  unfold overlaps_after, inprods_after.
  revert acc_i acc_o. induction l as [|[k0 psi] l IH]; intros acc_i acc_o Hacc;
    [done|].
  cbn [foldl fst snd]. apply IH. intros k.
  destruct (decide (k0 = k)) as [->|Hne].
  - rewrite !lookup_insert_eq. cbn. rewrite sum_overlaps_snoc, Hacc.
    by destruct (acc_i !! k).
  - by rewrite !lookup_insert_ne.
Qed.

Lemma overlaps_match_compute_results (this : VectorEngine) qasm be :
  show_snapshots_inner_product this = show_snapshots_overlaps this →
  overlaps_match_inprods this →
  overlaps_match_inprods (compute_results this qasm be).1.
Proof.
  intros Hsel Hinv.
  destruct (snapshots_empty (base_compute_results (base this) qasm be)) eqn:Eg.
  { rewrite compute_results_unfold. cbn zeta. by rewrite Eg. }
  destruct (compute_results_guarded this qasm be Eg)
    as (e3 & (_ & _ & _ & _ & _ & _ & _ & Hsi & Hso) & Hi & Ho & ->).
  assert (overlaps_match_inprods e3) as Hinv3.
  { unfold overlaps_match_inprods. by rewrite Hi, Ho. }
  assert (show_snapshots_inner_product e3 = show_snapshots_overlaps e3) as Hsel3
    by congruence.
  clear -Hinv3 Hsel3. unfold overlaps_match_inprods in *.
  unfold compute_inprods. destruct (_ && _); [|done].
  destruct (inprods_loop_prefix (length (access_qreg be))
              (items (access_snapshots be)) e3) as (l1 & l2 & _ & -> & ->).
  rewrite Hsel3. destruct (show_snapshots_overlaps e3); [|done].
  by apply after_overlaps_match.
Qed.

Lemma sum_overlaps_app (l1 l2 : list cvector_t) :
  (∀ x y z : real, radd (radd x y) z = radd x (radd y z)) →
  sum_overlaps (l1 ++ l2) = vector_add (sum_overlaps l1) (sum_overlaps l2).
Proof.
  intros Hassoc. induction l2 as [|s l2 IH] using rev_ind.
  - rewrite app_nil_r. exact (eq_sym (vec_add_nil_r radd (sum_overlaps l1))).
  - rewrite app_assoc, !sum_overlaps_snoc, IH.
    by apply vector_add_assoc.
Qed.

Lemma overlaps_match_add (this eng : VectorEngine) :
  (∀ x y z : real, radd (radd x y) z = radd x (radd y z)) →
  overlaps_match_inprods this → overlaps_match_inprods eng →
  overlaps_match_inprods (add this eng).
Proof.
  intros Hassoc Ha Hb k. unfold overlaps_match_inprods in *.
  rewrite add_snapshots_inprods, add_snapshots_overlaps.
  rewrite !lookup_map_accumulate, Ha, Hb.
  destruct (snapshots_inprods eng !! k) as [l2|]; [|done]. cbn.
  destruct (snapshots_inprods this !! k) as [l1|]; cbn.
  - f_equal. symmetry. by apply sum_overlaps_app.
  - done.
Qed.

(** X18 (the overlaps are the squared moduli of the inner products).  If
    under every label the overlap sum is the sum of the squared moduli of the
    inner-product sequences stored under it, this is so after a compute call
    of an engine with the inner-product and the overlap selector both on or
    both off, whether the call returns or throws, and, with an associative
    scalar addition, after merging an engine of this kind. *)
Theorem overlaps_match_invariant (this eng : VectorEngine) (qasm : Circuit)
    (be : Backend) :
  overlaps_match_inprods this →
  (show_snapshots_inner_product this = show_snapshots_overlaps this →
   overlaps_match_inprods (compute_results this qasm be).1) ∧
  ((∀ x y z : real, radd (radd x y) z = radd x (radd y z)) →
   overlaps_match_inprods eng → overlaps_match_inprods (add this eng)).
Proof.
  intros Hinv. split.
  - intros Hsel. by apply overlaps_match_compute_results.
  - intros Hassoc Heng. by apply overlaps_match_add.
Qed.

End MergeLabels.

(** *** The sign of a probability *)

(** X19 (probabilities are not negative).  In an arithmetic where
    [(-x) * y = -(x * y)] and [x - (-y) = x + y], the scalar overload of
    [get_probs] returns [re * re + im * im]; where moreover no square and no
    sum of two values that are not below zero is below zero, the value
    returned is not below zero. *)
Theorem get_probs_not_negative `{Scalar} (z : complex_t) :
  (∀ x y : real, rmul (ropp x) y = ropp (rmul x y)) →
  (∀ x y : real, rsub x (ropp y) = radd x y) →
  get_probs z = radd (rmul (re z) (re z)) (rmul (im z) (im z)) ∧
  ((∀ x : real, rltb (rmul x x) r0 = false) →
   (∀ x y : real, rltb x r0 = false → rltb y r0 = false →
                  rltb (radd x y) r0 = false) →
   rltb (get_probs z) r0 = false).
Proof.
  intros Hmul Hsub.
  assert (get_probs z = radd (rmul (re z) (re z)) (rmul (im z) (im z))) as Heq.
  { unfold get_probs, cmul, cconj. cbn. by rewrite Hmul, Hsub. }
  split; [exact Heq|]. intros Hsq Hadd. rewrite Heq. by apply Hadd.
Qed.

(** *** The inner products of a configured engine, rendered *)

Section RenderedInnerProducts.
Context `{Collaborators}.

Lemma configured_by_invariant (cfg : json_t) (e : VectorEngine) :
  configured_by cfg e →
  same_config e (from_json cfg (VectorEngine_new 2)) ∧ inprods_wf e.
Proof.
  induction 1 as [eng|e qasm be _ [IHc IHw]|a b _ [IHac IHaw] _ [IHbc IHbw]].
  - split; [apply same_config_refl|].
    destruct (from_json_members cfg eng) as (Hempty & _).
    unfold accumulator_empty, snapshot_data in Hempty.
    injection Hempty as _ _ _ _ Hi Ho.
    unfold inprods_wf. rewrite Hi, Ho. split; apply map_Forall_empty.
  - split; [|by apply inprods_wf_compute_results].
    eapply same_config_trans; [apply compute_results_config|exact IHc].
  - assert (same_config (add a b) a) as Hadd.
    { unfold same_config.
      destruct (add_config a b) as (-> & -> & -> & -> & -> & -> & -> & -> & ->).
      by split_and!. }
    split; [by eapply same_config_trans|].
    destruct IHac as (Ea & _ & Ta & _). destruct IHbc as (Eb & _ & Tb & _).
    apply inprods_wf_add; [congruence|congruence|done..].
Qed.

(** C4 (inner-product output chopping).  For an engine that arises from one
    configuration (configured by [from_json], then any compute calls and
    merges), the [inner_products] field of the rendered document holds, per
    label, the accumulated per-shot lists as they are: no factor is applied,
    every real or imaginary component of magnitude below the threshold is
    exactly zero, and the field equals the accumulated map chopped
    elementwise at the threshold of the engine. *)
Theorem inner_products_rendered_chopped (cfg js : json_t) (eng : VectorEngine) :
  configured_by cfg eng →
  let doc := (to_json js eng).1 in
  (show_snapshots_inner_product eng = true → snapshots_inprods eng ≠ ∅ →
   doc !! "inner_products" = Some (JCVectorLists (snapshots_inprods eng)) ∧
   doc !! "inner_products" =
     Some (JCVectorLists (chop_cvecs (epsilon eng) <$> snapshots_inprods eng))) ∧
  (∀ k seqs s z,
     snapshots_inprods eng !! k = Some seqs → s ∈ seqs → z ∈ s →
     (rltb (rabs (re z)) (epsilon eng) = true → re z = r0) ∧
     (rltb (rabs (im z)) (epsilon eng) = true → im z = r0)).
Proof.
  intros Hcfg. cbn zeta.
  destruct (configured_by_invariant cfg eng Hcfg) as [_ [Hi _]].
  assert (∀ k seqs s z,
    snapshots_inprods eng !! k = Some seqs → s ∈ seqs → z ∈ s →
    chop_c (epsilon eng) z = z) as Hfix.
  { intros k seqs s z Hk Hs Hz. specialize (Hi _ _ Hk). cbn in Hi.
    rewrite Forall_forall in Hi. destruct (Hi s Hs) as [_ Hchop].
    unfold chop_cvec in Hchop.
    apply list_elem_of_lookup in Hz as [i Hz].
    apply (f_equal (λ l : cvector_t, l !! i)) in Hchop.
    rewrite list_lookup_fmap, Hz in Hchop. by injection Hchop. }
  split.
  - intros Hon Hne. rewrite to_json_inner_products, Hon.
    rewrite bool_decide_eq_true_2 by done. cbn [andb]. split; [done|].
    do 2 f_equal. apply map_eq. intros k. rewrite lookup_fmap.
    destruct (snapshots_inprods eng !! k) as [seqs|] eqn:Ek; [|done]. cbn.
    f_equal. unfold chop_cvecs.
    rewrite <- (list_fmap_id seqs) at 1. apply list_fmap_ext.
    intros _ s Hs%list_elem_of_lookup_2. unfold chop_cvec.
    rewrite <- (list_fmap_id s) at 1. apply list_fmap_ext.
    intros _ z Hz%list_elem_of_lookup_2. cbn. symmetry. by eapply Hfix.
  - intros k seqs s z Hk Hs Hz. pose proof (Hfix k seqs s z Hk Hs Hz) as Hc.
    unfold chop_c, chop in Hc. destruct z as [x y]. cbn in *.
    injection Hc as Hx Hy.
    split; intros Hlt; [rewrite Hlt in Hx|rewrite Hlt in Hy]; done.
Qed.

End RenderedInnerProducts.

(** ** The properties on the concrete instance *)

Import Exact.
Import ExactData.

Lemma Q_radd_assoc (x y z : real) : radd (radd x y) z = radd x (radd y z).
Proof.
  destruct x as [a b], y as [c d], z as [e f]. cbn.
  unfold QArith_base.Qplus. cbn. f_equal.
  - rewrite !Pos2Z.inj_mul. lia.
  - by rewrite Pos.mul_assoc.
Qed.

Lemma Q_radd_comm (x y : real) : radd x y = radd y x.
Proof.
  destruct x as [a b], y as [c d]. cbn.
  unfold QArith_base.Qplus. cbn. f_equal.
  - lia.
  - by rewrite Pos.mul_comm.
Qed.

Lemma Q_radd_unit (x : real) : radd r0 x = x.
Proof.
  destruct x as [a b]. cbn. unfold QArith_base.Qplus. cbn. f_equal.
  destruct a; cbn; f_equal; lia.
Qed.

Lemma recording_records : base_records_snapshots.
Proof.
  intros b qasm be Hne. cbn. rewrite decide_False by done.
  apply bool_decide_eq_false. by destruct (rec_snapshots b).
Qed.

(** The sample run of the specification (one label, two identical shots,
    every category on, default threshold), with the state [(3/5, 4/5)]: the
    rendered probabilities are [9/25, 16/25], the density matrix is the
    averaged outer product, the overlap with the state itself is 1, and the
    ket list has one entry per shot. *)
Example two_shots_rendered :
  let doc := (to_json ∅ (run eng_all circ [shot1; shot1]).1).1 in
  rendered_rvector doc "probabilities" 0 =
    Some [QArith_base.Qmake 9 25; QArith_base.Qmake 16 25] ∧
  rendered_matrix_re doc "density_matrix" 0 =
    Some [[QArith_base.Qmake 9 25; QArith_base.Qmake 12 25];
          [QArith_base.Qmake 12 25; QArith_base.Qmake 16 25]] ∧
  rendered_rvector doc "overlaps" 0 = Some [QArith_base.Qmake 1 1] ∧
  match doc !! "quantum_state_ket" with
  | Some (JKets l) => length l
  | _ => 0
  end = 2.
Proof. vm_compute. by split_and!. Qed.

(** The sample run rendered: two shots on record, the probability sums
    [18/25, 32/25] under label 0 appear as [9/25, 16/25]. *)
Lemma renormalization_scope_witness :
  let doc := (to_json ∅ two_shots).1 in
  let out (x : real) : real :=
    if rltb (rabs (rmul x (rdiv r1 (of_uint (total_shots (base two_shots))))))
         (epsilon two_shots)
    then r0 else rmul x (rdiv r1 (of_uint (total_shots (base two_shots)))) in
  total_shots (base two_shots) = 2%N ∧
  option_map (List.map Qreduction.Qred) (snapshots_probs two_shots !! 0%N) =
    Some [QArith_base.Qmake 18 25; QArith_base.Qmake 32 25] ∧
  doc !! "probabilities" =
    Some (JRVectors ((λ v : rvector_t, out <$> v) <$> snapshots_probs two_shots)) ∧
  rendered_rvector doc "probabilities" 0 =
    Some [QArith_base.Qmake 9 25; QArith_base.Qmake 16 25].
Proof.
  cbn zeta. split_and!.
  - reflexivity.
  - vm_compute. reflexivity.
  - destruct (renormalization_scope ∅ two_shots) as (_ & Hp & _).
    apply Hp; [reflexivity|].
    intros Hempty.
    apply (f_equal (λ m : gmap N rvector_t, m !! 0%N)) in Hempty.
    vm_compute in Hempty. discriminate.
  - vm_compute. reflexivity.
Defined.

Example normalise_tokens :
  normalise "  ProbS " = "probs" ∧
  normalise "TargetStatesInner" = "targetstatesinner" ∧
  normalise "prob s" = "prob s".
Proof. by split_and!. Qed.

(** Three shots, processed as [shot2; shot1; shot3] on one accumulator and
    as the groups [shot1], [shot2] and [shot3] merged right to left. *)
Lemma merge_partition_invariance_witness :
  let t := Node (Leaf [shot1]) (Node (Leaf [shot2]) (Leaf [shot3])) in
  let merged := merge_groups eng_all circ t in
  let direct := (run eng_all circ [shot2; shot1; shot3]).1 in
  snapshots_density merged = snapshots_density direct ∧
  snapshots_probs merged = snapshots_probs direct ∧
  snapshots_probs_ket merged = snapshots_probs_ket direct ∧
  snapshots_overlaps merged = snapshots_overlaps direct.
Proof.
  apply (merge_partition_invariance eng_all circ
           (Node (Leaf [shot1]) (Node (Leaf [shot2]) (Leaf [shot3])))
           [shot2; shot1; shot3]
           Q_radd_assoc Q_radd_comm Q_radd_unit recording_records).
  - reflexivity.
  - apply perm_swap.
  - vm_compute. reflexivity.
Defined.

(** Merging a fresh engine into, and into a fresh engine, the accumulator of
    two shots. *)
Lemma merge_identity_witness :
  let e := (run eng_all circ [shot1; shot2]).1 in
  snapshot_data (add e (VectorEngine_new 2)) = snapshot_data e ∧
  snapshot_data (add (VectorEngine_new 2) e) = snapshot_data e.
Proof.
  apply (merge_identity (run eng_all circ [shot1; shot2]).1 (VectorEngine_new 2)
           Q_radd_unit).
  reflexivity.
Defined.

(** C7, the claim as stated fails.  With both selectors on, the target [1]
    and a snapshot [1e-12] of the same length, the call succeeds, but what is
    appended and added is not the inner product [1e-12] and its squared
    modulus: the stored value is the chopped one, zero. *)
Lemma inner_product_claim_counterexample :
  show_snapshots_inner_product eng_targets = true ∧
  show_snapshots_overlaps eng_targets = true ∧
  target_states eng_targets ≠ [] ∧
  (compute_results eng_targets circ shot_tiny).2 = None ∧
  snapshots_inprods (compute_results eng_targets circ shot_tiny).1 !! 0%N =
    Some [[c0]] ∧
  inner_product [tiny] [amp 1 1] ≠ c0 ∧
  ¬ accumulates inner_product eng_targets circ shot_tiny.
Proof.
  split_and!.
  - reflexivity.
  - reflexivity.
  - discriminate.
  - vm_compute. reflexivity.
  - vm_compute. reflexivity.
  - vm_compute. discriminate.
  - unfold accumulates. cbn zeta. intros Hacc.
    destruct (Hacc 0%N [tiny] eq_refl) as [Hi _].
    specialize (Hi eq_refl). vm_compute in Hi. discriminate.
Qed.

(** The second sample shot, whose two snapshots have the length of the
    target. *)
Lemma inner_product_accumulation_witness :
  (compute_results eng_all circ shot2).2 = None ∧
  accumulates (λ psi vec, chop_c (epsilon eng_all) (inner_product psi vec))
    eng_all circ shot2.
Proof.
  apply (inner_product_accumulation eng_all circ shot2).
  - reflexivity.
  - discriminate.
  - intros k psi Hk. cbn in Hk.
    destruct (decide (k = 0%N)) as [->|H0];
      [|destruct (decide (k = 1%N)) as [->|H1]].
    + vm_compute in Hk. injection Hk as <-.
      apply Forall_cons; split; [reflexivity|apply Forall_nil; exact I].
    + vm_compute in Hk. injection Hk as <-.
      apply Forall_cons; split; [reflexivity|apply Forall_nil; exact I].
    + rewrite lookup_insert_ne, lookup_singleton_ne in Hk by done. discriminate.
Defined.

(** The premises of the size-mismatch property are needed.  With no
    selector on, a snapshot of length 2 and a target of length 1, the call
    does not fail.  With the selectors on and snapshots of lengths 1 and 2
    beside a register of length 1, the call throws at the second snapshot:
    the error carries the length of the register and the entries of the
    first snapshot stay committed. *)
Remark size_check_premises_needed :
  ((compute_results eng_off circ shot_long).2 = None ∧
   ¬ fails_cleanly eng_off circ shot_long) ∧
  ((compute_results eng_targets circ shot_mixed).2 = Some (TargetStateSize 1 1) ∧
   snapshots_inprods (compute_results eng_targets circ shot_mixed).1 !! 0%N =
     Some [[amp 1 1]] ∧
   snapshots_inprods eng_targets !! 0%N = None ∧
   ¬ fails_cleanly eng_targets circ shot_mixed).
Proof.
  split; split_and!.
  - vm_compute. reflexivity.
  - unfold fails_cleanly. cbn zeta. intros Hc.
    destruct Hc as ((k0 & psi0 & vec0 & _ & _ & _ & Herr) & _).
    + exists 0%N, psi_a, [amp 1 1]. split_and!; [reflexivity|left|cbn; lia].
    + vm_compute in Herr. discriminate.
  - vm_compute. reflexivity.
  - vm_compute. reflexivity.
  - reflexivity.
  - unfold fails_cleanly. cbn zeta. intros Hc. destruct Hc as (_ & Hi & _).
    + exists 1%N, psi_a, [amp 1 1]. split_and!; [reflexivity|left|cbn; lia].
    + apply (f_equal (λ m : gmap N (list cvector_t), m !! 0%N)) in Hi.
      vm_compute in Hi. discriminate.
Qed.

(** The shot whose register and snapshot have two amplitudes, against the
    target of length 1: the error carries 1 and 2, and nothing is
    committed. *)
Lemma size_mismatch_failure_witness :
  (∃ k psi vec,
     access_snapshots shot_long !! k = Some psi ∧
     vec ∈ target_states eng_targets ∧ length vec ≠ length psi) ∧
  (compute_results eng_targets circ shot_long).2 = Some (TargetStateSize 1 2) ∧
  fails_cleanly eng_targets circ shot_long.
Proof.
  split_and!.
  - exists 0%N, psi_a, [amp 1 1]. split_and!; [reflexivity|left|cbn; lia].
  - vm_compute. reflexivity.
  - apply (size_mismatch_failure eng_targets circ shot_long).
    + reflexivity.
    + reflexivity.
    + intros k psi Hk. cbn in Hk.
      destruct (decide (k = 0%N)) as [->|H0].
      * vm_compute in Hk. injection Hk as <-. reflexivity.
      * rewrite lookup_singleton_ne in Hk by done. discriminate.
Defined.

(** The render-time chop of the inner products is dead code: [to_json]
    computes the chopped copy [tmp] and writes the accumulated map.  It shows
    only on an accumulator that mixes two configurations: filled under the
    threshold [1e-13] it holds the inner product [1e-12]; merged into an
    engine whose threshold is the default [1e-10] and rendered, the field
    carries [1e-12] as it is. *)
Remark mixed_thresholds_rendered_unchopped :
  epsilon eng_merged = r_1e_10 ∧
  show_snapshots_inner_product eng_merged = true ∧
  (to_json ∅ eng_merged).1 !! "inner_products" =
    Some (JCVectorLists {[ 0%N := [[tiny]] ]}) ∧
  chop_cvecs (epsilon eng_merged) [[tiny]] = [[c0]] ∧
  tiny ≠ c0.
Proof.
  split_and!.
  - reflexivity.
  - reflexivity.
  - vm_compute. reflexivity.
  - reflexivity.
  - discriminate.
Qed.

(** ** The further properties on the concrete instance *)

Lemma Q_rmul_comm (x y : real) : rmul x y = rmul y x.
Proof.
  destruct x as [a b], y as [c d]. cbn.
  unfold QArith_base.Qmult. cbn. f_equal.
  - lia.
  - by rewrite Pos.mul_comm.
Qed.

Lemma Q_rmul_opp (x y : real) : rmul (ropp x) y = ropp (rmul x y).
Proof.
  destruct x as [a b], y as [c d]. cbn.
  unfold QArith_base.Qmult, QArith_base.Qopp. cbn. f_equal. lia.
Qed.

Lemma Q_rsub_opp (x y : real) : rsub x (ropp y) = radd x y.
Proof.
  destruct x as [a b], y as [c d]. cbn.
  unfold QArith_base.Qminus, QArith_base.Qopp. cbn.
  by rewrite Z.opp_involutive.
Qed.

Lemma Q_square_not_negative (x : real) : rltb (rmul x x) r0 = false.
Proof.
  destruct x as [a b]. cbn. apply negb_false_iff, QArith_base.Qle_bool_iff.
  unfold QArith_base.Qle. cbn. nia.
Qed.

Lemma Q_radd_not_negative (x y : real) :
  rltb x r0 = false → rltb y r0 = false → rltb (radd x y) r0 = false.
Proof.
  destruct x as [a b], y as [c d]. cbn.
  rewrite !negb_false_iff, !QArith_base.Qle_bool_iff.
  unfold QArith_base.Qle. cbn.
  pose proof (Pos2Z.is_pos b). pose proof (Pos2Z.is_pos d). nia.
Qed.

(** The empty engine and the accumulator of one shot satisfy the
    invariants. *)
Lemma eng_all_well_formed :
  inprods_wf eng_all ∧ density_wf eng_all ∧ probs_match_density eng_all ∧
  overlaps_match_inprods eng_all.
Proof.
  split_and!.
  - split; apply map_Forall_empty.
  - apply map_Forall_empty.
  - intros k. change (snapshots_density eng_all) with (∅ : gmap N cmatrix_t).
    change (snapshots_probs eng_all) with (∅ : gmap N rvector_t).
    by rewrite !lookup_empty.
  - intros k. change (snapshots_overlaps eng_all) with (∅ : gmap N rvector_t).
    change (snapshots_inprods eng_all) with (∅ : gmap N (list cvector_t)).
    by rewrite !lookup_empty.
Defined.

Lemma after_shot_well_formed (be : RecBackend) :
  inprods_wf (compute_results eng_all circ be).1 ∧
  density_wf (compute_results eng_all circ be).1 ∧
  overlaps_match_inprods (compute_results eng_all circ be).1.
Proof.
  destruct eng_all_well_formed as (Hi & Hd & _ & Ho). split_and!.
  - by apply inprods_wf_compute_results.
  - by apply density_wf_compute_results.
  - by apply overlaps_match_compute_results.
Defined.

(** The second sample shot on the empty engine: both of its labels are
    new. *)
Lemma density_and_probability_accumulation_witness :
  snapshots_probs (compute_results eng_all circ shot2).1 !! 0%N =
    match access_snapshots shot2 !! 0%N with
    | Some psi =>
        let pr := at_key [] (snapshots_probs eng_all) 0%N in
        Some (if decide (pr = []) then get_probs <$> psi
              else vector_add pr (get_probs <$> psi))
    | None => snapshots_probs eng_all !! 0%N
    end.
Proof.
  assert (snapshots_empty (base_compute_results (base eng_all) circ shot2) = false)
    as Hg by reflexivity.
  pose proof (density_and_probability_accumulation eng_all circ shot2 Hg) as Hw.
  cbn zeta in Hw. destruct Hw as [_ Hp]. exact (Hp eq_refl 0%N).
Defined.

Lemma ket_form_accumulation_witness :
  ∃ km : gmap N cket_t,
    snapshots_ket (compute_results eng_all circ shot2).1 =
      snapshots_ket eng_all ++ [km] ∧
    ∀ k, km !! k =
      (λ psi, vec2ket psi (qudit_dim eng_all) (epsilon eng_all)
                (ket_regs eng_all circ)) <$> access_snapshots shot2 !! k.
Proof.
  assert (snapshots_empty (base_compute_results (base eng_all) circ shot2) = false)
    as Hg by reflexivity.
  pose proof (ket_form_accumulation eng_all circ shot2 Hg) as Hw.
  cbn zeta in Hw. destruct Hw as [Hk _]. exact (Hk eq_refl).
Defined.

(** A second shot on the accumulator of the first, and the merge of the
    accumulators of two shots. *)
Lemma inprods_wf_invariant_witness :
  inprods_wf (compute_results after_shot1 circ shot2).1 ∧
  inprods_wf (add after_shot1 after_shot2).
Proof.
  destruct (after_shot_well_formed shot1) as (H1 & _).
  destruct (after_shot_well_formed shot2) as (H2 & _).
  destruct (inprods_wf_invariant after_shot1 after_shot2 circ shot2 H1)
    as [Hc Ha].
  split; [exact Hc|]. apply Ha; [reflexivity|reflexivity|exact H2].
Defined.

Lemma to_json_inner_products_chopped_witness :
  (to_json ∅ after_shot1).1 !! "inner_products" =
    Some (JCVectorLists
            (chop_cvecs (epsilon after_shot1) <$> snapshots_inprods after_shot1)).
Proof.
  destruct (after_shot_well_formed shot1) as (H1 & _).
  rewrite (to_json_inner_products_chopped ∅ after_shot1 H1).
  reflexivity.
Defined.

Lemma selectors_of_token_set_witness :
  selectors (from_json config_tokens_a eng_all) =
    selectors (from_json config_tokens_b (VectorEngine_new 2)).
Proof.
  apply selectors_of_token_set.
  assert (normalise <$> default [] (get_strings "data" config_tokens_a) =
          ["probs"; "densitymatrix"]) as -> by (vm_compute; reflexivity).
  assert (normalise <$> default [] (get_strings "data" config_tokens_b) =
          ["densitymatrix"; "probs"; "probs"]) as -> by (vm_compute; reflexivity).
  intros t. rewrite !elem_of_cons, !elem_of_nil. tauto.
Defined.

Lemma density_wf_invariant_witness :
  density_wf (compute_results after_shot1 circ shot2).1 ∧
  density_wf (add after_shot1 after_shot2).
Proof.
  destruct (after_shot_well_formed shot1) as (_ & H1 & _).
  destruct (after_shot_well_formed shot2) as (_ & H2 & _).
  destruct (density_wf_invariant after_shot1 after_shot2 circ shot2 H1)
    as (Hc & Ha & _).
  split; [exact Hc|exact (Ha H2)].
Defined.

Lemma merge_associative_witness :
  snapshot_data (add (add after_shot1 after_shot2) after_shot3) =
    snapshot_data (add after_shot1 (add after_shot2 after_shot3)).
Proof.
  destruct (after_shot_well_formed shot1) as (_ & H1 & _).
  destruct (after_shot_well_formed shot2) as (_ & H2 & _).
  destruct (after_shot_well_formed shot3) as (_ & H3 & _).
  exact (merge_associative after_shot1 after_shot2 after_shot3
           Q_radd_assoc Q_radd_unit H1 H2 H3).
Defined.

Lemma merge_sums_commute_witness :
  snapshots_density (add after_shot1 after_shot2) =
    snapshots_density (add after_shot2 after_shot1) ∧
  snapshots_probs (add after_shot1 after_shot2) =
    snapshots_probs (add after_shot2 after_shot1) ∧
  snapshots_probs_ket (add after_shot1 after_shot2) =
    snapshots_probs_ket (add after_shot2 after_shot1) ∧
  snapshots_overlaps (add after_shot1 after_shot2) =
    snapshots_overlaps (add after_shot2 after_shot1).
Proof.
  destruct (after_shot_well_formed shot1) as (_ & H1 & _).
  destruct (after_shot_well_formed shot2) as (_ & H2 & _).
  exact (merge_sums_commute after_shot1 after_shot2
           Q_radd_comm Q_radd_unit H1 H2).
Defined.

(** The density matrices of the accumulator of the first shot. *)
Lemma after_shot1_density (k : N) :
  snapshots_density after_shot1 !! k =
    if decide (k = 0%N) then Some (outer_product psi_a psi_a) else None.
Proof.
  unfold after_shot1.
  assert (snapshots_empty (base_compute_results (base eng_all) circ shot1) = false)
    as Hg by reflexivity.
  destruct (compute_results_blocks eng_all circ shot1 Hg) as (_ & _ & Hd & _).
  cbn zeta in Hd. rewrite Hd, compute_density_lookup by reflexivity.
  change (@access_snapshots _ recording shot1)
    with ({[0%N := psi_a]} : gmap N QubitVector).
  change (snapshots_density eng_all) with (∅ : gmap N cmatrix_t).
  destruct (decide (k = 0%N)) as [->|Hk].
  - by rewrite lookup_singleton_eq.
  - by rewrite lookup_singleton_ne, lookup_empty.
Qed.

(** The second sample shot on the accumulator of the first: label 0 already
    holds a 2 × 2 density matrix and its diagonal, to which the snapshot of
    the second shot is added; label 1 is new. *)
Lemma probabilities_are_density_diagonal_witness :
  snapshots_density after_shot1 !! 0%N = Some (outer_product psi_a psi_a) ∧
  access_snapshots shot2 !! 0%N = Some psi_b ∧
  probs_match_density (compute_results after_shot1 circ shot2).1.
Proof.
  split; [by rewrite after_shot1_density|]. split; [reflexivity|].
  apply (probabilities_are_density_diagonal after_shot1 circ shot2 Q_rmul_comm).
  - reflexivity.
  - intros k psi rho Hk Hrho. rewrite after_shot1_density in Hrho.
    destruct (decide (k = 0%N)) as [->|Hne]; [|discriminate].
    vm_compute in Hk. injection Hk as <-. injection Hrho as <-.
    split; [reflexivity|]. repeat constructor.
  - destruct eng_all_well_formed as (_ & _ & Hm & _).
    apply (probabilities_are_density_diagonal eng_all circ shot1 Q_rmul_comm);
      [reflexivity| |exact Hm].
    intros k psi rho _ Hrho.
    change (snapshots_density eng_all) with (∅ : gmap N cmatrix_t) in Hrho.
    by rewrite lookup_empty in Hrho.
Defined.

Lemma overlaps_match_invariant_witness :
  overlaps_match_inprods (compute_results after_shot1 circ shot2).1 ∧
  overlaps_match_inprods (add after_shot1 after_shot2).
Proof.
  destruct (after_shot_well_formed shot1) as (_ & _ & H1).
  destruct (after_shot_well_formed shot2) as (_ & _ & H2).
  destruct (overlaps_match_invariant after_shot1 after_shot2 circ shot2 H1)
    as [Hc Ha].
  split; [apply Hc; reflexivity|exact (Ha Q_radd_assoc H2)].
Defined.

(** The snapshot [1e-12] against the target [1] under the default threshold:
    the inner product is stored, and rendered, as zero. *)
Lemma inner_products_rendered_chopped_witness :
  configured_by config_default eng_tiny ∧
  snapshots_inprods eng_tiny !! 0%N = Some [[c0]] ∧
  (to_json ∅ eng_tiny).1 !! "inner_products" =
    Some (JCVectorLists (snapshots_inprods eng_tiny)) ∧
  (to_json ∅ eng_tiny).1 !! "inner_products" =
    Some (JCVectorLists
            (chop_cvecs (epsilon eng_tiny) <$> snapshots_inprods eng_tiny)).
Proof.
  assert (configured_by config_default eng_tiny) as Hcfg.
  { apply configured_shot, configured_fresh. }
  split; [exact Hcfg|]. split; [vm_compute; reflexivity|].
  destruct (inner_products_rendered_chopped config_default ∅ eng_tiny Hcfg)
    as [Hdoc _].
  apply Hdoc; [reflexivity|].
  intros Hempty.
  apply (f_equal (λ m : gmap N (list cvector_t), m !! 0%N)) in Hempty.
  vm_compute in Hempty. discriminate.
Defined.

(** C8, the claim as stated fails.  After a first shot the engine has
    snapshots on record; a second shot that captured no snapshot then passes
    the guard, and with the ket selector on the ket list gains an empty map:
    the ket category is not left as it was. *)
Lemma sparsity_claim_counterexample :
  access_snapshots shot_none = ∅ ∧
  snapshots_ket after_shot1 ≠ snapshots_ket (compute_results after_shot1 circ shot_none).1 ∧
  length (snapshots_ket (compute_results after_shot1 circ shot_none).1) =
    S (length (snapshots_ket after_shot1)) ∧
  ¬ sparse_as_claimed after_shot1 circ shot_none.
Proof.
  assert (length (snapshots_ket (compute_results after_shot1 circ shot_none).1) =
          S (length (snapshots_ket after_shot1))) as Hlen
    by (vm_compute; reflexivity).
  split_and!.
  - reflexivity.
  - intros Heq. rewrite <- Heq in Hlen. lia.
  - exact Hlen.
  - intros (Hk & _). cbn zeta in Hk. rewrite Hk in Hlen by (by right). lia.
Qed.

(** The amplitude [3/5 + (4/5) i] in exact arithmetic. *)
Lemma get_probs_not_negative_witness :
  get_probs amp_c = radd (rmul (re amp_c) (re amp_c)) (rmul (im amp_c) (im amp_c)) ∧
  rltb (get_probs amp_c) r0 = false.
Proof.
  destruct (get_probs_not_negative amp_c Q_rmul_opp Q_rsub_opp) as [Heq Hpos].
  split; [exact Heq|].
  exact (Hpos Q_square_not_negative Q_radd_not_negative).
Defined.
